(** * Collapsed Gibbs sampling for latent Dirichlet allocation

    A shallow embedding of [lda/lda.py] (class [LDA]) and of the properties
    its design document states about it.

    Conventions of the embedding:
    - a Python [float] / [np.float64] value is an exact rational of type [Qc];
      rounding is outside the model, and a division by zero, which numpy
      answers with [nan] or [inf], yields 0;
    - a cell of an [np.intc] array is a [Z] kept in the signed 32-bit range by
      [Intc.wrap];
    - a one-dimensional array is a [list], a two-dimensional array the list of
      its rows;
    - a Python exception is a value of [exn], and fallible code returns a
      [result]; what a method did to the model or to a generator before it
      raised is not kept;
    - the numpy random generator, which lives outside the repository, is a
      parameter of the development;
    - calls to the logger are left out. *)

From Stdlib Require Import List ZArith QArith Qcanon Qcabs Lia Bool Arith
  PeanoNat Permutation.
Import ListNotations.

Set Implicit Arguments.

(** ** Exceptions and results *)

Inductive exn : Type :=
| ValueError
| ZeroDivisionError
| IndexError
| AssertionError
| AttributeError.

Inductive result (A : Type) : Type :=
| Ok (a : A)
| Raise (e : exn).

Arguments Ok {A} a.
Arguments Raise {A} e.

Definition bind {A B : Type} (c : result A) (k : A -> result B) : result B :=
  match c with
  | Ok a => k a
  | Raise e => Raise e
  end.

Declare Scope py_scope.
Delimit Scope py_scope with py.
Notation "x <- c ;; k" := (bind c (fun x => k))
  (at level 61, c at next level, right associativity) : py_scope.
Notation "' p <- c ;; k" := (bind c (fun p => k))
  (at level 61, p pattern, c at next level, right associativity) : py_scope.
Open Scope py_scope.

(** [for x in xs: body], threading the loop state and stopping at the first
    exception. *)
Fixpoint for_each {A S : Type} (xs : list A) (body : A -> S -> result S)
  (s : S) : result S :=
  match xs with
  | [] => Ok s
  | x :: xs' => s' <- body x s ;; for_each xs' body s'
  end.

(** An attribute that may not have been set yet (or has been deleted). *)
Definition attr {A : Type} (field : option A) : result A :=
  match field with
  | Some a => Ok a
  | None => Raise AttributeError
  end.

(** ** [np.intc] cells *)

Module Intc.

Definition half : Z := 2 ^ 31.
Definition modulus : Z := 2 ^ 32.

(** Two's complement wrap-around into [-2^31, 2^31). *)
Definition wrap (x : Z) : Z := ((x + half) mod modulus - half)%Z.

(** [cell += 1] and [cell -= 1]. *)
Definition inc (x : Z) : Z := wrap (x + 1).
Definition dec (x : Z) : Z := wrap (x - 1).

Definition in_range (x : Z) : Prop := (- half <= x < half)%Z.

End Intc.

(** ** Arrays *)

Module Np.

(** [a[i]]; an index past the end raises. *)
Definition get {A : Type} (a : list A) (i : nat) : result A :=
  match nth_error a i with
  | Some x => Ok x
  | None => Raise IndexError
  end.

Fixpoint replace {A : Type} (a : list A) (i : nat) (x : A) : list A :=
  match a, i with
  | [], _ => []
  | _ :: a', O => x :: a'
  | y :: a', S i' => y :: replace a' i' x
  end.

(** [a[i] = x]. *)
Definition set {A : Type} (a : list A) (i : nat) (x : A) : result (list A) :=
  if i <? length a then Ok (replace a i x) else Raise IndexError.

(** [a[i] = f(a[i])], the shape of [a[i] += 1]. *)
Definition update {A : Type} (a : list A) (i : nat) (f : A -> A)
  : result (list A) :=
  x <- get a i ;; Ok (replace a i (f x)).

(** [m[r, c] = f(m[r, c])]. *)
Definition update2 {A : Type} (m : list (list A)) (r c : nat) (f : A -> A)
  : result (list (list A)) :=
  row <- get m r ;;
  row' <- update row c f ;;
  Ok (replace m r row').

(** [np.zeros(n, dtype=np.intc)] and [np.zeros((r, c), dtype=np.intc)]. *)
Definition zeros (n : nat) : list Z := repeat 0%Z n.
Definition zeros2 (r c : nat) : list (list Z) := repeat (zeros c) r.

(** [m.shape] of a two-dimensional array held as its rows.  An array
    without rows reports width 0. *)
Definition shape {A : Type} (m : list (list A)) : nat * nat :=
  (length m, match m with [] => O | row :: _ => length row end).

Definition Zsum (a : list Z) : Z := fold_right Z.add 0%Z a.


End Np.

(** [i % n] on Python integers that are not negative. *)
Definition py_mod (i n : nat) : result nat :=
  match n with
  | O => Raise ZeroDivisionError
  | _ => Ok (i mod n)
  end.

(** [range(start, stop, step)]; a zero step raises [ValueError]. *)
Definition py_range (start stop step : Z) : result (list Z) :=
  if (step =? 0)%Z then Raise ValueError
  else
    let len :=
      if (0 <? step)%Z
      then (if (start <? stop)%Z then (stop - start - 1) / step + 1 else 0)%Z
      else (if (stop <? start)%Z then (start - stop - 1) / (- step) + 1 else 0)%Z
    in
    Ok (map (fun k => (start + Z.of_nat k * step)%Z) (seq 0 (Z.to_nat len))).

(** ** The document-word matrix *)

(** A dense or sparse two-dimensional array of counts: its width and its
    rows.  Entry [(d, w)] is read as [nth w row 0], for [w] below the width. *)
Record matrix : Type := mkMatrix {
  n_cols : nat;
  rows : list (list nat)
}.

Definition row_total (W : nat) (row : list nat) : nat :=
  fold_right Nat.add O (map (fun w => nth w row O) (seq 0 W)).

(** [int(X.sum())] *)
Definition matrix_sum (X : matrix) : nat :=
  fold_right Nat.add O (map (row_total (n_cols X)) (rows X)).

(** What [fit], [fit_transform] and [transform] may be handed: a
    one-dimensional [np.ndarray] of shape [(n_features,)], a two-dimensional
    [np.ndarray], or a sparse matrix. *)
Inductive input : Type :=
| Dense1 (v : list nat)
| Dense2 (X : matrix)
| Sparse (X : matrix).

(** [isinstance(X, np.ndarray)] *)
Definition is_ndarray (X : input) : bool :=
  match X with
  | Dense1 _ | Dense2 _ => true
  | Sparse _ => false
  end.

(** [np.atleast_2d(X)] *)
Definition atleast_2d (X : input) : input :=
  match X with
  | Dense1 v => Dense2 (mkMatrix (length v) [v])
  | _ => X
  end.

(** [D, W = X.shape]; a one-dimensional shape does not unpack into two. *)
Definition shape2 (X : input) : result (matrix * nat * nat) :=
  match X with
  | Dense1 _ => Raise ValueError
  | Dense2 M | Sparse M => Ok (M, length (rows M), n_cols M)
  end.

(** Modelled from the spec: [lda.utils.matrix_to_lists], which is not among
    the sources.  Section 6 of the design document: for the entry at
    (doc d, word w) with count c, exactly c tokens with (word = w, doc = d)
    appear contiguously, documents in row-major order and the words of a
    document in column order.  The result is the pair (WS, DS). *)
Definition row_tokens (W d : nat) (row : list nat) : list (nat * nat) :=
  flat_map (fun w => repeat (w, d) (nth w row O)) (seq 0 W).

Fixpoint rows_tokens (W d : nat) (rs : list (list nat)) : list (nat * nat) :=
  match rs with
  | [] => []
  | row :: rs' => row_tokens W d row ++ rows_tokens W (S d) rs'
  end.

Definition matrix_to_lists (X : matrix) : list nat * list nat :=
  let toks := rows_tokens (n_cols X) 0 (rows X) in
  (map fst toks, map snd toks).

(** ** Rational arithmetic standing for [float] *)

Open Scope Qc_scope.

Definition Qc_of_Z (z : Z) : Qc := Q2Qc (inject_Z z).
Definition Qc_of_nat (n : nat) : Qc := Qc_of_Z (Z.of_nat n).

(** [x <= y] and [x < y] as tests. *)
Definition Qcle_bool (x y : Qc) : bool := Qle_bool x y.
Definition Qclt_bool (x y : Qc) : bool := negb (Qle_bool y x).

Definition Qcsum (a : list Qc) : Qc := fold_right Qcplus 0 a.

(** Running totals of [a], started from [acc]. *)
Fixpoint cumsum (acc : Qc) (a : list Qc) : list Qc :=
  match a with
  | [] => []
  | x :: a' => (acc + x) :: cumsum (acc + x) a'
  end.

(** Divide every entry of a row by the row's total: the effect of
    [m /= np.sum(m, axis=1)[:, np.newaxis]] on one row. *)
Definition normalize (row : list Qc) : list Qc :=
  map (fun x => x / Qcsum row) row.

(** ** The arrays a sweep mutates *)

Record chain : Type := mkChain {
  c_ZS : list nat;
  c_nzw : list (list Z);
  c_ndz : list (list Z);
  c_nz : list Z
}.

(** Modelled from the spec: the compiled sampler [lda._lda._sample_topics],
    which is not among the sources.  Section 4.2 of the design document, one
    sweep over all tokens in token order.  The sampler receives the
    hyperparameters as the two vectors that [LDA._sample_topics] builds; the
    document's [alpha] for topic z is entry z of the first, its [eta] for
    word w is entry w of the second, and [vocab_size] is the length of the
    second.  The document does not say what happens when the tokens outnumber
    the pool; here the cursor wraps around.  Reads outside an array yield 0
    and writes outside an array are dropped. *)
Module _lda.

Definition cell (a : list Z) (i : nat) : Z := nth i a 0%Z.
Definition cell2 (m : list (list Z)) (r c : nat) : Z := nth c (nth r m []) 0%Z.

Definition bump (f : Z -> Z) (a : list Z) (i : nat) : list Z :=
  Np.replace a i (f (cell a i)).
Definition bump2 (f : Z -> Z) (m : list (list Z)) (r c : nat)
  : list (list Z) :=
  Np.replace m r (bump f (nth r m []) c).

(** Step 1, exclude self. *)
Definition exclude (w d z_old : nat) (c : chain) : chain :=
  {| c_ZS := c_ZS c;
     c_nzw := bump2 Intc.dec (c_nzw c) z_old w;
     c_ndz := bump2 Intc.dec (c_ndz c) d z_old;
     c_nz := bump Intc.dec (c_nz c) z_old |}.

(** Step 2, the unnormalized conditional mass of topic [z]. *)
Definition mass (alpha eta : list Qc) (c : chain) (w d z : nat) : Qc :=
  (Qc_of_Z (cell2 (c_nzw c) z w) + nth w eta 0)
  * (Qc_of_Z (cell2 (c_ndz c) d z) + nth z alpha 0)
  / (Qc_of_Z (cell (c_nz c) z) + nth w eta 0 * Qc_of_nat (length eta)).

Definition masses (alpha eta : list Qc) (c : chain) (w d : nat) : list Qc :=
  map (mass alpha eta c w d) (seq 0 (length (c_nz c))).

(** Step 3.  Linear scan for the first running total that reaches [r],
    counting from [k]; the scan overruns to one past the last index. *)
Fixpoint first_reaching (cum : list Qc) (r : Qc) (k : nat) : nat :=
  match cum with
  | [] => k
  | t :: cum' => if Qcle_bool r t then k else first_reaching cum' r (S k)
  end.

(** The selected index, clamped to the last topic. *)
Definition select (cum : list Qc) (r : Qc) : nat :=
  Nat.min (first_reaching cum r 0) (length cum - 1).

(** The next pool variate for token [i]. *)
Definition draw (rands : list Qc) (i : nat) : Qc :=
  nth (i mod length rands) rands 0.

(** Step 4, reinstate. *)
Definition reinstate (i w d z_new : nat) (c : chain) : chain :=
  {| c_ZS := Np.replace (c_ZS c) i z_new;
     c_nzw := bump2 Intc.inc (c_nzw c) z_new w;
     c_ndz := bump2 Intc.inc (c_ndz c) d z_new;
     c_nz := bump Intc.inc (c_nz c) z_new |}.

(** The topic drawn for a token of word [w] in document [d] once the token
    has been excluded. *)
Definition sample (alpha eta : list Qc) (u : Qc) (w d : nat) (c : chain)
  : nat :=
  let cum := cumsum 0 (masses alpha eta c w d) in
  select cum (u * last cum 0).

Definition resample (WS DS : list nat) (alpha eta rands : list Qc)
  (c : chain) (i : nat) : chain :=
  let w := nth i WS O in
  let d := nth i DS O in
  let z_old := nth i (c_ZS c) O in
  let c1 := exclude w d z_old c in
  let z_new := sample alpha eta (draw rands i) w d c1 in
  reinstate i w d z_new c1.

Definition _sample_topics (WS DS : list nat) (c : chain)
  (alpha eta rands : list Qc) : chain :=
  fold_left (resample WS DS alpha eta rands) (seq 0 (length WS)) c.

End _lda.

(** ** Iterated pseudo-counts: the array expressions of [transform] *)

Module Pz.

Fixpoint map_result {A B : Type} (f : A -> result B) (xs : list A)
  : result (list B) :=
  match xs with
  | [] => Ok []
  | x :: xs' => y <- f x ;; ys <- map_result f xs' ;; Ok (y :: ys)
  end.

(** Entrywise [a + b], [a - b], [a * b] and [a + s] for a scalar [s]. *)
Definition vadd (a b : list Qc) : list Qc :=
  map (fun p => fst p + snd p) (combine a b).
Definition vsub (a b : list Qc) : list Qc :=
  map (fun p => fst p - snd p) (combine a b).
Definition vmul (a b : list Qc) : list Qc :=
  map (fun p => fst p * snd p) (combine a b).
Definition vadds (a : list Qc) (s : Qc) : list Qc := map (fun x => x + s) a.

(** [phi[:, w]]; a word id past the vocabulary raises. *)
Definition phi_column (phi : list (list Qc)) (w : nat) : result (list Qc) :=
  map_result (fun row => Np.get row w) phi.

(** [P.sum(axis=0)] for [P] of shape [(len(ws_doc), n_topics)]. *)
Definition colsum (n_topics : nat) (P : list (list Qc)) : list Qc :=
  map (fun z => Qcsum (map (fun row => nth z row 0) P)) (seq 0 n_topics).

(** [ws_doc = WS[DS == d]] *)
Definition ws_of_doc (ws ds : list nat) (d : nat) : list nat :=
  map fst (filter (fun t => snd t =? d)%nat (combine ws ds)).

(** [(phi[:, ws_doc].T * alpha)] followed by
    [PZS /= PZS.sum(axis=1)[:, np.newaxis]]. *)
Definition init (phi : list (list Qc)) (alpha : Qc) (ws_doc : list nat)
  : result (list (list Qc)) :=
  cols <- map_result (phi_column phi) ws_doc ;;
  Ok (map normalize (map (fun col => map (fun x => x * alpha) col) cols)).

(** The loop over [enumerate(ws_doc)]: [PZS_sum] is diminished by row [i],
    used, and restored; the result is [PZS_new] before its rows are
    normalized. *)
Fixpoint fill (phi : list (list Qc)) (alpha : Qc)
  (toks : list (nat * list Qc)) (PZS_sum : list Qc)
  : result (list (list Qc)) :=
  match toks with
  | [] => Ok []
  | (w, PZS_i) :: toks' =>
      let PZS_sum1 := vsub PZS_sum PZS_i in
      col <- phi_column phi w ;;
      let PZS_new_i := vmul col (vadds PZS_sum1 alpha) in
      let PZS_sum2 := vadd PZS_sum1 PZS_i in
      rest <- fill phi alpha toks' PZS_sum2 ;;
      Ok (PZS_new_i :: rest)
  end.

(** [np.abs(PZS_new - PZS).sum()] *)
Definition l1_distance (P Q : list (list Qc)) : Qc :=
  Qcsum (map (fun rs => Qcsum (map Qcabs (vsub (fst rs) (snd rs))))
           (combine P Q)).

(** One pass of the loop [for s in range(max_iter)]: the new matrix and
    [delta_naive]. *)
Definition round (phi : list (list Qc)) (alpha : Qc) (ws_doc : list nat)
  (PZS : list (list Qc)) : result (list (list Qc) * Qc) :=
  let PZS_sum := colsum (length phi) PZS in
  raw <- fill phi alpha (combine ws_doc PZS) PZS_sum ;;
  let PZS_new := map normalize raw in
  Ok (PZS_new, l1_distance PZS_new PZS).

Fixpoint iterate (max_iter : nat) (tol : Qc) (phi : list (list Qc))
  (alpha : Qc) (ws_doc : list nat) (PZS : list (list Qc))
  : result (list (list Qc)) :=
  match max_iter with
  | O => Ok PZS
  | S n =>
      '(PZS_new, delta_naive) <- round phi alpha ws_doc PZS ;;
      if Qclt_bool delta_naive tol then Ok PZS_new
      else iterate n tol phi alpha ws_doc PZS_new
  end.

(** The body of the loop over documents: the row [theta_doc]. *)
Definition transform_doc (max_iter : nat) (tol : Qc) (phi : list (list Qc))
  (alpha : Qc) (ws_doc : list nat) : result (list Qc) :=
  PZS0 <- init phi alpha ws_doc ;;
  PZS <- iterate max_iter tol phi alpha ws_doc PZS0 ;;
  Ok (normalize (colsum (length phi) PZS)).

End Pz.

(** The inference procedure in the words of Section 4.5 of the design
    document, for a document with word ids [ws]: entries are read with a
    default, every row is computed from the column sums of the previous
    matrix less the row itself. *)
Module PzSpec.

Definition phi_at (phi : list (list Qc)) (z w : nat) : Qc :=
  nth w (nth z phi []) 0.

Definition topics (phi : list (list Qc)) : list nat := seq 0 (length phi).

(** Step 1. *)
Definition init (phi : list (list Qc)) (alpha : Qc) (ws : list nat)
  : list (list Qc) :=
  map (fun w => normalize (map (fun z => phi_at phi z w * alpha) (topics phi)))
    ws.

Definition col_sum (P : list (list Qc)) (z : nat) : Qc :=
  Qcsum (map (fun row => nth z row 0) P).

(** Step 2, the new row of token [i] with word [w]. *)
Definition new_row (phi : list (list Qc)) (alpha : Qc) (P : list (list Qc))
  (w : nat) (P_i : list Qc) : list Qc :=
  normalize
    (map (fun z => phi_at phi z w * (col_sum P z - nth z P_i 0 + alpha))
       (topics phi)).

Definition step (phi : list (list Qc)) (alpha : Qc) (ws : list nat)
  (P : list (list Qc)) : list (list Qc) :=
  map (fun wp => new_row phi alpha P (fst wp) (snd wp)) (combine ws P).

Definition delta (P_new P : list (list Qc)) : Qc :=
  Qcsum (map (fun rs =>
                Qcsum (map (fun ab => Qcabs (fst ab - snd ab))
                         (combine (fst rs) (snd rs))))
           (combine P_new P)).

Fixpoint rounds (max_iter : nat) (tol : Qc) (phi : list (list Qc))
  (alpha : Qc) (ws : list nat) (P : list (list Qc)) : list (list Qc) :=
  match max_iter with
  | O => P
  | S n =>
      let P_new := step phi alpha ws P in
      if Qclt_bool (delta P_new P) tol then P_new
      else rounds n tol phi alpha ws P_new
  end.

(** Step 3. *)
Definition estimate (max_iter : nat) (tol : Qc) (phi : list (list Qc))
  (alpha : Qc) (ws : list nat) : list Qc :=
  let P := rounds max_iter tol phi alpha ws (init phi alpha ws) in
  normalize (map (col_sum P) (topics phi)).

End PzSpec.

(** ** The random source *)

(** What [random_state] may be: [None], an integer seed, or a
    [RandomState] object of the caller. *)
Inductive seed : Type :=
| SeedNone
| SeedInt (s : Z)
| SeedObject.

Section LDA.

(** The state of a numpy [RandomState]; [np.random.RandomState(s)];
    [rng.rand(n)]; [rng.shuffle(a)].  The last two also advance the
    generator. *)
Variable rng : Type.
Variable RandomState : Z -> rng.
Variable rand : rng -> Z -> list Qc * rng.
Variable shuffle : rng -> list Qc -> list Qc * rng.

(** The compiled evaluator [lda._lda._loglikelihood], called with
    [(nzw, ndz, nz, nd, alpha, eta)]; it is not among the sources and needs
    the log-gamma function, so it stays a parameter. *)
Variable _loglikelihood :
  list (list Z) -> list (list Z) -> list Z -> list Z -> Qc -> Qc -> Qc.

(** The generators that outlive a call: numpy's global one
    ([np.random.mtrand._rand]) and the caller's own object, if any. *)
Record world : Type := mkWorld {
  global_rng : rng;
  object_rng : rng
}.

(** The generator a method works with: one of the two shared ones, or a
    fresh one that only the method holds. *)
Inductive handle : Type :=
| Global
| Object
| Fresh (g : rng).

(** Modelled from the spec: [lda.utils.check_random_state], which is not
    among the sources.  The comment in [LDA.__init__] says that for [None]
    it returns the current numpy [RandomState]; Section 6 of the design
    document asks the draws and the shuffle to be deterministic under a
    fixed seed, so an integer seeds a new generator; a generator object is
    used as it is. *)
Definition check_random_state (s : seed) : handle :=
  match s with
  | SeedNone => Global
  | SeedInt n => Fresh (RandomState n)
  | SeedObject => Object
  end.

(** Run a generator method through a handle. *)
Definition with_rng {A : Type} (f : rng -> A * rng) (h : handle) (w : world)
  : A * handle * world :=
  match h with
  | Global =>
      let (a, g) := f (global_rng w) in
      (a, Global, mkWorld g (object_rng w))
  | Object =>
      let (a, g) := f (object_rng w) in
      (a, Object, mkWorld (global_rng w) g)
  | Fresh g0 =>
      let (a, g) := f g0 in
      (a, Fresh g, w)
  end.

(** ** The model object *)

Record LDA : Type := mkLDA {
  n_topics : nat;
  n_iter : Z;
  alpha : Qc;
  eta : Qc;
  random_state : seed;
  refresh : Z;
  _rands : list Qc;
  nzw_ : option (list (list Z));
  ndz_ : option (list (list Z));
  nz_ : option (list Z);
  WS : option (list nat);
  DS : option (list nat);
  ZS : option (list nat);
  loglikelihoods_ : option (list Qc)
}.

(** [1024**2 // 8] *)
Definition pool_size : Z := 1024 ^ 2 / 8.

(** The constructor.  When it raises, the caller gets no object; the
    generators are returned as the constructor leaves them. *)
Definition __init__ (n_topics : nat) (n_iter : Z) (alpha eta : Qc)
  (random_state : seed) (refresh : Z) (w : world) : result LDA * world :=
  if Qcle_bool alpha 0 || Qcle_bool eta 0 then (Raise ValueError, w)
  else
    let h := check_random_state random_state in
    let '(pool, _, w') := with_rng (fun g => rand g pool_size) h w in
    (Ok (mkLDA n_topics n_iter alpha eta random_state refresh pool
           None None None None None None None), w').

(** The assignments of [_initialize] and of the sampler to attributes. *)
Definition set_tables (self : LDA) (c : chain) : LDA :=
  mkLDA (n_topics self) (n_iter self) (alpha self) (eta self)
    (random_state self) (refresh self) (_rands self)
    (Some (c_nzw c)) (Some (c_ndz c)) (Some (c_nz c))
    (WS self) (DS self) (Some (c_ZS c)) (loglikelihoods_ self).

Definition set_tokens (self : LDA) (ws ds : list nat) : LDA :=
  mkLDA (n_topics self) (n_iter self) (alpha self) (eta self)
    (random_state self) (refresh self) (_rands self)
    (nzw_ self) (ndz_ self) (nz_ self)
    (Some ws) (Some ds) (ZS self) (loglikelihoods_ self).

Definition set_loglikelihoods (self : LDA) (lls : list Qc) : LDA :=
  mkLDA (n_topics self) (n_iter self) (alpha self) (eta self)
    (random_state self) (refresh self) (_rands self)
    (nzw_ self) (ndz_ self) (nz_ self)
    (WS self) (DS self) (ZS self) (Some lls).

(** The body of the loop of [_initialize] for token [i]. *)
Definition init_token (n_topics : nat) (ws ds : list nat) (i : nat)
  (c : chain) : result chain :=
  w <- Np.get ws i ;;
  d <- Np.get ds i ;;
  z_new <- py_mod i n_topics ;;
  zs <- Np.set (c_ZS c) i z_new ;;
  ndz <- Np.update2 (c_ndz c) d z_new Intc.inc ;;
  nzw <- Np.update2 (c_nzw c) z_new w Intc.inc ;;
  nz <- Np.update (c_nz c) z_new Intc.inc ;;
  Ok (mkChain zs nzw ndz nz).

(** The arrays before the loop: zeroed tables, and [ZS] with the length of
    [WS] ([np.empty_like]; every cell is written before it is read). *)
Definition init_chain (n_topics D W : nat) (ws : list nat) : chain :=
  mkChain (repeat O (length ws)) (Np.zeros2 n_topics W)
    (Np.zeros2 D n_topics) (Np.zeros n_topics).

Definition _initialize (self : LDA) (X : input) : result LDA :=
  '(M, D, W) <- shape2 X ;;
  let N := matrix_sum M in
  let '(ws, ds) := matrix_to_lists M in
  if negb (N =? length ws)%nat then Raise AssertionError
  else
    c <- for_each (seq 0 N) (init_token (n_topics self) ws ds)
           (init_chain (n_topics self) D W ws) ;;
    Ok (set_loglikelihoods (set_tables (set_tokens self ws ds) c) []).

Definition initialize (self : LDA) (X : input) : result LDA :=
  _initialize self X.

Definition loglikelihood (self : LDA) : result Qc :=
  nzw <- attr (nzw_ self) ;;
  ndz <- attr (ndz_ self) ;;
  nz <- attr (nz_ self) ;;
  let nd := map (fun row => Intc.wrap (Np.Zsum row)) ndz in
  Ok (_loglikelihood nzw ndz nz nd (alpha self) (eta self)).

Definition _sample_topics (self : LDA) (rands : list Qc) : result LDA :=
  nzw <- attr (nzw_ self) ;;
  let '(n_topics, vocab_size) := Np.shape nzw in
  let alpha := repeat (alpha self) n_topics in
  let eta := repeat (eta self) vocab_size in
  ws <- attr (WS self) ;;
  ds <- attr (DS self) ;;
  zs <- attr (ZS self) ;;
  ndz <- attr (ndz_ self) ;;
  nz <- attr (nz_ self) ;;
  Ok (set_tables self
        (_lda._sample_topics ws ds (mkChain zs nzw ndz nz) alpha eta rands)).

(** The loop of [sample_topics]: [rands] is the local copy of the pool,
    shuffled again before every sweep. *)
Fixpoint sample_loop (iterations : nat) (h : handle) (rands : list Qc)
  (self : LDA) (w : world) : result (LDA * world) :=
  match iterations with
  | O => Ok (self, w)
  | S n =>
      let '(rands', h', w') := with_rng (fun g => shuffle g rands) h w in
      self' <- _sample_topics self rands' ;;
      sample_loop n h' rands' self' w'
  end.

Definition sample_topics (self : LDA) (iterations : Z) (w : world)
  : result (LDA * world) :=
  let random_state := check_random_state (random_state self) in
  let rands := _rands self in
  sample_loop (Z.to_nat iterations) random_state rands self w.

Definition clean_up (self : LDA) : LDA :=
  mkLDA (n_topics self) (n_iter self) (alpha self) (eta self)
    (random_state self) (refresh self) (_rands self)
    (nzw_ self) (ndz_ self) (nz_ self)
    None None None (loglikelihoods_ self).

(** [ll = self.loglikelihood(); self.loglikelihoods_.append(ll)] *)
Definition checkpoint (self : LDA) : result LDA :=
  ll <- loglikelihood self ;;
  lls <- attr (loglikelihoods_ self) ;;
  Ok (set_loglikelihoods self (lls ++ [ll])).

(** The body of the loop of [_fit] at sweep number [it]. *)
Definition fit_block (it : Z) (sw : LDA * world) : result (LDA * world) :=
  let (self, w) := sw in
  self' <- checkpoint self ;;
  sample_topics self' (Z.min (refresh self') (n_iter self' - it)) w.

Definition _fit (self : LDA) (X : input) (w : world)
  : result (LDA * world) :=
  self0 <- _initialize self X ;;
  its <- py_range 0 (n_iter self0) (refresh self0) ;;
  '(self1, w1) <- for_each its fit_block (self0, w) ;;
  self2 <- checkpoint self1 ;;
  Ok (clean_up self2, w1).

Definition fit (self : LDA) (X : input) (w : world)
  : result (LDA * world) :=
  _fit self X w.

(** [components_] and [doc_topic_]: a table of counts plus the prior, each
    row divided by its total. *)
Definition project (prior : Qc) (counts : list (list Z)) : list (list Qc) :=
  map (fun row => normalize (map (fun n => Qc_of_Z n + prior) row)) counts.

Definition components_ (self : LDA) : result (list (list Qc)) :=
  nzw <- attr (nzw_ self) ;; Ok (project (eta self) nzw).

Definition topic_word_ (self : LDA) : result (list (list Qc)) :=
  components_ self.

Definition doc_topic_ (self : LDA) : result (list (list Qc)) :=
  ndz <- attr (ndz_ self) ;; Ok (project (alpha self) ndz).

Definition fit_transform (self : LDA) (X : input) (w : world)
  : result (list (list Qc) * LDA * world) :=
  let X := if is_ndarray X then atleast_2d X else X in
  '(self', w') <- _fit self X w ;;
  doc_topic <- doc_topic_ self' ;;
  Ok (doc_topic, self', w').

Definition transform (self : LDA) (X : input) (max_iter : nat) (tol : Qc)
  : result (list (list Qc)) :=
  let X := if is_ndarray X then atleast_2d X else X in
  phi <- components_ self ;;
  let alpha := alpha self in
  '(M, D, _) <- shape2 X ;;
  let '(ws, ds) := matrix_to_lists M in
  Pz.map_result
    (fun d => Pz.transform_doc max_iter tol phi alpha (Pz.ws_of_doc ws ds d))
    (seq 0 D).


(** ** Runs and reachable states *)

(** The arrays of a model whose attributes are all set. *)
Definition has_chain (self : LDA) (ws ds : list nat) (c : chain) : Prop :=
  WS self = Some ws /\ DS self = Some ds /\ ZS self = Some (c_ZS c)
  /\ nzw_ self = Some (c_nzw c) /\ ndz_ self = Some (c_ndz c)
  /\ nz_ self = Some (c_nz c).

(** The pools handed to the successive sweeps of [sample_loop], and the
    generators it leaves behind. *)
Fixpoint loop_pools (iterations : nat) (h : handle) (rands : list Qc)
  (w : world) : list (list Qc) :=
  match iterations with
  | O => []
  | S n =>
      let '(rands', h', w') := with_rng (fun g => shuffle g rands) h w in
      rands' :: loop_pools n h' rands' w'
  end.

Fixpoint loop_world (iterations : nat) (h : handle) (rands : list Qc)
  (w : world) : world :=
  match iterations with
  | O => w
  | S n =>
      let '(rands', h', w') := with_rng (fun g => shuffle g rands) h w in
      loop_world n h' rands' w'
  end.

(** The pools of a run of blocks of sweeps, one call of [sample_topics] per
    block: every call asks [check_random_state] for its generator and starts
    from the stored pool [rands]; the generators are handed from one call
    to the next. *)
Fixpoint fit_pools (bs : list nat) (s : seed) (rands : list Qc) (w : world)
  : list (list Qc) :=
  match bs with
  | [] => []
  | k :: bs' =>
      let h := check_random_state s in
      loop_pools k h rands w
      ++ fit_pools bs' s rands (loop_world k h rands w)
  end.

Fixpoint fit_world (bs : list nat) (s : seed) (rands : list Qc) (w : world)
  : world :=
  match bs with
  | [] => w
  | k :: bs' =>
      fit_world bs' s rands (loop_world k (check_random_state s) rands w)
  end.

(** The states a model goes through once [X] has been handed to
    [_initialize]: the initialized one, and any state a sweep produces from
    such a state. *)
Inductive trained (self0 : LDA) (X : input) : LDA -> Prop :=
| trained_init : forall self,
    _initialize self0 X = Ok self -> trained self0 X self
| trained_sweep : forall self rands self',
    trained self0 X self ->
    _sample_topics self rands = Ok self' ->
    trained self0 X self'.

(** Two ways to train from scratch: construct, then [fit]; or construct,
    [initialize], then [sample_topics] for a number of sweeps (which keeps
    the topic assignments).  Each returns the trained model. *)
Definition fit_run (n_topics : nat) (n_iter : Z) (alpha eta : Qc)
  (random_state : seed) (refresh : Z) (X : input) (w : world) : result LDA :=
  let (made, w1) := __init__ n_topics n_iter alpha eta random_state refresh w in
  self <- made ;;
  '(self', _) <- fit self X w1 ;;
  Ok self'.

Definition sweep_run (n_topics : nat) (n_iter : Z) (alpha eta : Qc)
  (random_state : seed) (refresh : Z) (X : input) (iterations : Z)
  (w : world) : result LDA :=
  let (made, w1) := __init__ n_topics n_iter alpha eta random_state refresh w in
  self <- made ;;
  self1 <- initialize self X ;;
  '(self2, _) <- sample_topics self1 iterations w1 ;;
  Ok self2.

End LDA.

(** Successive sweeps of the compiled sampler, one pool each. *)
Definition sweeps (ws ds : list nat) (alpha eta : list Qc)
  (pools : list (list Qc)) (c : chain) : chain :=
  fold_left (fun c rands => _lda._sample_topics ws ds c alpha eta rands)
    pools c.

(** Number of tokens [i] below [n] that satisfy [p]. *)
Definition count_upto (n : nat) (p : nat -> bool) : nat :=
  length (filter p (seq 0 n)).

(** The three tables agree with the assignments [zs] of the tokens
    [(ws, ds)]: every cell holds the number of tokens it stands for. *)
Record consistent (K D W : nat) (ws ds : list nat) (c : chain) : Prop :=
  mkConsistent {
  cs_len_ws : length (c_ZS c) = length ws;
  cs_len_ds : length ds = length ws;
  cs_ws : Forall (fun w => w < W)%nat ws;
  cs_ds : Forall (fun d => d < D)%nat ds;
  cs_zs : Forall (fun z => z < K)%nat (c_ZS c);
  cs_nzw_rows : length (c_nzw c) = K;
  cs_nzw_cols : Forall (fun row => length row = W) (c_nzw c);
  cs_ndz_rows : length (c_ndz c) = D;
  cs_ndz_cols : Forall (fun row => length row = K) (c_ndz c);
  cs_nz_len : length (c_nz c) = K;
  cs_nzw : forall z w, (z < K)%nat -> (w < W)%nat ->
    _lda.cell2 (c_nzw c) z w =
    Z.of_nat (count_upto (length ws)
      (fun i => (nth i (c_ZS c) O =? z)%nat && (nth i ws O =? w)%nat));
  cs_ndz : forall d z, (d < D)%nat -> (z < K)%nat ->
    _lda.cell2 (c_ndz c) d z =
    Z.of_nat (count_upto (length ws)
      (fun i => (nth i ds O =? d)%nat && (nth i (c_ZS c) O =? z)%nat));
  cs_nz : forall z, (z < K)%nat ->
    _lda.cell (c_nz c) z =
    Z.of_nat (count_upto (length ws) (fun i => (nth i (c_ZS c) O =? z)%nat))
}.

(** Stand-ins for the numpy generator, to run the model on small inputs: the
    state is a counter, [rand] yields eighths, [shuffle] reverses. *)
Definition demo_RandomState (s : Z) : Z := s.
Definition demo_rand (g n : Z) : list Qc * Z :=
  (map (fun k => Q2Qc (((g + Z.of_nat k) mod 7 + 1) # 8)) (seq 0 (Z.to_nat n)),
   (g + n)%Z).
Definition demo_shuffle (g : Z) (a : list Qc) : list Qc * Z :=
  (rev a, (g + 1)%Z).
Definition demo_loglikelihood (nzw ndz : list (list Z)) (nz nd : list Z)
  (alpha eta : Qc) : Qc := Qc_of_Z (Np.Zsum nz).
Definition demo_world : world Z := mkWorld 0%Z 0%Z.

(** A small matrix and a model of two topics over it. *)
Definition tiny_X : matrix := mkMatrix 2 [[2; 1]; [0; 1]]%nat.
Definition tiny_model : LDA :=
  mkLDA 2 3 (Q2Qc (1 # 10)) (Q2Qc (1 # 100)) (SeedInt 0) 2
    [Q2Qc (1 # 8); Q2Qc (7 # 8); Q2Qc (1 # 2)]
    None None None None None None None.

(** A pool of four variates, one for each token of [tiny_X]. *)
Definition tiny_pool : list Qc :=
  [Q2Qc (1 # 8); Q2Qc (7 # 8); Q2Qc (1 # 2); Q2Qc (1 # 4)].

(** [tiny_model] with another [n_iter] and [refresh]. *)
Definition tiny_scheduled (n r : Z) : LDA :=
  mkLDA 2 n (Q2Qc (1 # 10)) (Q2Qc (1 # 100)) (SeedInt 0) r
    [Q2Qc (1 # 8); Q2Qc (7 # 8); Q2Qc (1 # 2)]
    None None None None None None None.

(** ** Notions used to state the properties *)

Definition same_shape (c c' : chain) : Prop :=
  length (c_ZS c') = length (c_ZS c)
  /\ Np.shape (c_nzw c') = Np.shape (c_nzw c)
  /\ Np.shape (c_ndz c') = Np.shape (c_ndz c)
  /\ length (c_nz c') = length (c_nz c).

(** The hyperparameters and the pool, which no training method assigns. *)
Definition same_config (self self' : LDA) : Prop :=
  n_topics self' = n_topics self /\ n_iter self' = n_iter self
  /\ alpha self' = alpha self /\ eta self' = eta self
  /\ random_state self' = random_state self /\ refresh self' = refresh self
  /\ _rands self' = _rands self.

(** The vectors [LDA._sample_topics] builds for a model whose topic-word
    table is [nzw]. *)
Definition alpha_vector (self : LDA) (nzw : list (list Z)) : list Qc :=
  repeat (alpha self) (fst (Np.shape nzw)).
Definition eta_vector (self : LDA) (nzw : list (list Z)) : list Qc :=
  repeat (eta self) (snd (Np.shape nzw)).

(** Shapes of the arrays for [K] topics, [D] documents and [W] words. *)
Record well_shaped (K D W : nat) (ws ds : list nat) (c : chain) : Prop :=
  mkShaped {
  sh_zs : length (c_ZS c) = length ws;
  sh_ds : length ds = length ws;
  sh_ws_lt : Forall (fun w => w < W)%nat ws;
  sh_ds_lt : Forall (fun d => d < D)%nat ds;
  sh_nzw_rows : length (c_nzw c) = K;
  sh_nzw_cols : Forall (fun row => length row = W) (c_nzw c);
  sh_ndz_rows : length (c_ndz c) = D;
  sh_ndz_cols : Forall (fun row => length row = K) (c_ndz c);
  sh_nz : length (c_nz c) = K
}.

(** The tables count the tokens selected by [active]: all of them between
    sweeps, all but one while a token is being resampled, the first ones
    during initialization. *)
Record counted (K D W : nat) (ws ds : list nat) (active : nat -> bool)
  (c : chain) : Prop := mkCounted {
  ct_shape : well_shaped K D W ws ds c;
  ct_zs : forall i, (i < length ws)%nat -> active i = true ->
    (nth i (c_ZS c) O < K)%nat;
  ct_nzw : forall z w, (z < K)%nat -> (w < W)%nat ->
    _lda.cell2 (c_nzw c) z w =
    Z.of_nat (count_upto (length ws)
      (fun i => active i && ((nth i (c_ZS c) O =? z)%nat && (nth i ws O =? w)%nat)));
  ct_ndz : forall d z, (d < D)%nat -> (z < K)%nat ->
    _lda.cell2 (c_ndz c) d z =
    Z.of_nat (count_upto (length ws)
      (fun i => active i && ((nth i ds O =? d)%nat && (nth i (c_ZS c) O =? z)%nat)));
  ct_nz : forall z, (z < K)%nat ->
    _lda.cell (c_nz c) z =
    Z.of_nat (count_upto (length ws)
      (fun i => active i && (nth i (c_ZS c) O =? z)%nat))
}.

(** What the loop of [_initialize] does with token [i]. *)
Definition init_step (K : nat) (ws ds : list nat) (c : chain) (i : nat)
  : chain :=
  _lda.reinstate i (nth i ws O) (nth i ds O) (i mod K) c.

(** The matrix behind a two-dimensional input. *)
Definition input_matrix (X : input) : option matrix :=
  match X with
  | Dense1 _ => None
  | Dense2 M | Sparse M => Some M
  end.

(** The arrays [_initialize] leaves for [K] topics over the matrix [M]. *)
Definition initial_chain (K : nat) (M : matrix) : chain :=
  let (ws, ds) := matrix_to_lists M in
  fold_left (init_step K ws ds) (seq 0 (length ws))
    (init_chain K (length (rows M)) (n_cols M) ws).

(** The model [_initialize] leaves. *)
Definition initialized (self : LDA) (M : matrix) : LDA :=
  let (ws, ds) := matrix_to_lists M in
  set_loglikelihoods
    (set_tables (set_tokens self ws ds) (initial_chain (n_topics self) M)) [].

(** [ceiling(n / r)] for [r > 0]. *)
Definition ceil_div (n r : Z) : Z := ((n + r - 1) / r)%Z.

(** The log likelihood recorded for the arrays [c]. *)
Definition chain_loglikelihood
  (ll : list (list Z) -> list (list Z) -> list Z -> list Z -> Qc -> Qc -> Qc)
  (a e : Qc) (c : chain) : Qc :=
  ll (c_nzw c) (c_ndz c) (c_nz c)
     (map (fun row => Intc.wrap (Np.Zsum row)) (c_ndz c)) a e.

(** The resampling of token [i] in the words of Section 4.2 of the design
    document, with the scalar hyperparameters [alpha] and [eta] of the model,
    [n_topics] topics and a vocabulary of [vocab_size] words.  Counts are
    integers, changed by plain addition; every step is written out here, on
    its own: nothing of the sampler's code is used. *)
Module GibbsSpec.

(** The table [a] with [delta] added to entry [i], and the table [m] with
    [delta] added to entry [(r, c)]; every other entry stays. *)
Definition add_at (i : nat) (delta : Z) (a : list Z) : list Z :=
  map (fun k => if (k =? i)%nat then (nth k a 0 + delta)%Z else nth k a 0%Z)
    (seq 0 (length a)).

Definition add_at2 (r c : nat) (delta : Z) (m : list (list Z))
  : list (list Z) :=
  map (fun k => if (k =? r)%nat then add_at c delta (nth k m [])
                else nth k m [])
    (seq 0 (length m)).

(** [topic[i] = z] *)
Definition store (i z : nat) (topic : list nat) : list nat :=
  map (fun k => if (k =? i)%nat then z else nth k topic O)
    (seq 0 (length topic)).

(** Step 2: [mass[z]]. *)
Definition conditional_mass (alpha eta : Qc) (vocab_size : nat)
  (topicWord docTopic : list (list Z)) (topicTotal : list Z) (w d z : nat)
  : Qc :=
  (Qc_of_Z (nth w (nth z topicWord []) 0%Z) + eta)
  * (Qc_of_Z (nth z (nth d docTopic []) 0%Z) + alpha)
  / (Qc_of_Z (nth z topicTotal 0%Z) + eta * Qc_of_nat vocab_size).

(** Step 3: the cumulative sum of [mass] at index [k], and the smallest
    index where it reaches [r]; the last index when it never does. *)
Definition cumulative (mass : list Qc) (k : nat) : Qc :=
  Qcsum (firstn (S k) mass).

Definition choose (mass : list Qc) (r : Qc) : nat :=
  match find (fun k => Qcle_bool r (cumulative mass k))
          (seq 0 (length mass)) with
  | Some k => k
  | None => (length mass - 1)%nat
  end.

Definition step (alpha eta : Qc) (n_topics vocab_size : nat)
  (word doc : list nat) (pool : list Qc) (c : chain) (i : nat) : chain :=
  let w := nth i word O in
  let d := nth i doc O in
  let z_old := nth i (c_ZS c) O in
  (* 1. exclude self *)
  let topicWord := add_at2 z_old w (-1) (c_nzw c) in
  let docTopic := add_at2 d z_old (-1) (c_ndz c) in
  let topicTotal := add_at z_old (-1) (c_nz c) in
  (* 2. build the conditional distribution *)
  let mass := map (conditional_mass alpha eta vocab_size topicWord docTopic
                     topicTotal w d) (seq 0 n_topics) in
  (* 3. sample *)
  let r := nth i pool 0 * Qcsum mass in
  let z_new := choose mass r in
  (* 4. reinstate *)
  mkChain (store i z_new (c_ZS c))
    (add_at2 z_new w 1 topicWord)
    (add_at2 d z_new 1 docTopic)
    (add_at z_new 1 topicTotal).

End GibbsSpec.

(** The words of document [d] of the matrix [M], read off row [d]: every
    word id as often as the row counts it, in column order. *)
Definition doc_words (M : matrix) (d : nat) : list nat :=
  flat_map (fun w => repeat w (nth w (nth d (rows M) []) O))
    (seq 0 (n_cols M)).

(** [n] sweeps cut into blocks of [r]: full blocks, then a shorter one when
    [r] does not divide [n]. *)
Definition blocks (n r : nat) : list nat :=
  repeat r (n / r)%nat
  ++ (if (n mod r =? 0)%nat then nil else (n mod r)%nat :: nil).

(** The word ids [ws] are columns of every row of [phi]. *)
Definition words_in_vocabulary (phi : list (list Qc)) (ws : list nat) : Prop :=
  Forall (fun w => Forall (fun row => (w < length row)%nat) phi) ws.

(** Every entry of [phi] is positive. *)
Definition positive (phi : list (list Qc)) : Prop :=
  Forall (Forall (fun x => 0 < x)) phi.

(** A soft-assignment matrix over [K] topics: every row has [K] positive
    entries that add up to 1. *)
Definition stochastic (K : nat) (P : list (list Qc)) : Prop :=
  Forall (fun row => length row = K /\ Forall (fun x => 0 < x) row
                     /\ Qcsum row = 1) P.

(** The model [tiny_model] once [tiny_X] has been handed to [_initialize]. *)
Definition tiny_initialized : LDA := initialized tiny_model tiny_X.

(** The arrays a model holds after [fit]: the three tables, with the shapes
    of the matrix it was fitted to, and the history; the token arrays are
    gone. *)
Definition fitted (self : LDA) (K D W : nat) : Prop :=
  exists nzw ndz nz lls,
    nzw_ self = Some nzw /\ ndz_ self = Some ndz /\ nz_ self = Some nz
    /\ loglikelihoods_ self = Some lls /\ lls <> []
    /\ WS self = None /\ DS self = None /\ ZS self = None
    /\ length nzw = K /\ Forall (fun row => length row = W) nzw
    /\ length ndz = D /\ Forall (fun row => length row = K) ndz
    /\ length nz = K.

(** Some document of [M] has a token of a word at or beyond column [W]. *)
Definition has_unknown_word (M : matrix) (W : nat) : Prop :=
  exists d w,
    (d < length (rows M))%nat /\ (W <= w < n_cols M)%nat
    /\ (0 < nth w (nth d (rows M) []) O)%nat.


(** * Properties *)

(** ** Arrays *)

Lemma replace_length (A : Type) (a : list A) (i : nat) (x : A) :
  length (Np.replace a i x) = length a.
Proof.
  revert i; induction a as [|y a IH]; intros [|i]; simpl; auto.
Qed.

Lemma replace_beyond (A : Type) (a : list A) (i : nat) (x : A) :
  (length a <= i)%nat -> Np.replace a i x = a.
Proof.
  revert i; induction a as [|y a IH]; intros [|i] H; simpl in *; auto; try lia.
  f_equal; apply IH; lia.
Qed.

Lemma nth_replace_same (A : Type) (a : list A) (i : nat) (x d : A) :
  (i < length a)%nat -> nth i (Np.replace a i x) d = x.
Proof.
  revert i; induction a as [|y a IH]; intros [|i] H; simpl in *; auto; try lia.
  apply IH; lia.
Qed.

Lemma nth_replace_other (A : Type) (a : list A) (i j : nat) (x d : A) :
  i <> j -> nth j (Np.replace a i x) d = nth j a d.
Proof.
  revert i j; induction a as [|y a IH]; intros [|i] [|j] H; simpl; auto;
    try congruence.
Qed.

Lemma replace_self (A : Type) (a : list A) (i : nat) (d : A) :
  Np.replace a i (nth i a d) = a.
Proof.
  revert i; induction a as [|y a IH]; intros [|i]; simpl; auto.
  f_equal; apply IH.
Qed.

Lemma Forall_replace (A : Type) (P : A -> Prop) (a : list A) (i : nat) (x : A) :
  Forall P a -> P x -> Forall P (Np.replace a i x).
Proof.
  intros Ha Hx; revert i; induction Ha as [|y a Hy Ha IH]; intros [|i]; simpl;
    constructor; auto.
Qed.

Lemma get_nth (A : Type) (a : list A) (i : nat) (d : A) :
  (i < length a)%nat -> Np.get a i = Ok (nth i a d).
Proof.
  intros H; unfold Np.get.
  rewrite (nth_error_nth' a d H); reflexivity.
Qed.

Lemma bump_length (f : Z -> Z) (a : list Z) (i : nat) :
  length (_lda.bump f a i) = length a.
Proof. apply replace_length. Qed.

Lemma bump2_length (f : Z -> Z) (m : list (list Z)) (r c : nat) :
  length (_lda.bump2 f m r c) = length m.
Proof. apply replace_length. Qed.

Lemma bump2_widths (f : Z -> Z) (m : list (list Z)) (r c n : nat) :
  Forall (fun row => length row = n) m ->
  Forall (fun row => length row = n) (_lda.bump2 f m r c).
Proof.
  intros H; unfold _lda.bump2.
  destruct (Nat.lt_ge_cases r (length m)) as [Hr|Hr].
  - apply Forall_replace; auto.
    rewrite bump_length.
    rewrite Forall_forall in H; apply H, nth_In, Hr.
  - rewrite replace_beyond; auto.
Qed.

Lemma shape_bump2 (f : Z -> Z) (m : list (list Z)) (r c : nat) :
  Np.shape (_lda.bump2 f m r c) = Np.shape m.
Proof.
  unfold Np.shape; rewrite bump2_length; f_equal.
  unfold _lda.bump2.
  destruct m as [|row m]; [destruct r; reflexivity|].
  destruct r; simpl; auto.
  apply bump_length.
Qed.

Lemma cell_bump (f : Z -> Z) (a : list Z) (i j : nat) :
  (i < length a)%nat ->
  _lda.cell (_lda.bump f a i) j =
  if (i =? j)%nat then f (_lda.cell a j) else _lda.cell a j.
Proof.
  intros H; unfold _lda.cell, _lda.bump.
  destruct (Nat.eqb_spec i j) as [->|Hij].
  - apply nth_replace_same; auto.
  - apply nth_replace_other; auto.
Qed.

Lemma cell2_bump2 (f : Z -> Z) (m : list (list Z)) (r c r' c' : nat) :
  (r < length m)%nat -> (c < length (nth r m []))%nat ->
  _lda.cell2 (_lda.bump2 f m r c) r' c' =
  if ((r =? r') && (c =? c'))%nat then f (_lda.cell2 m r' c')
  else _lda.cell2 m r' c'.
Proof.
  intros Hr Hc; unfold _lda.cell2, _lda.bump2.
  destruct (Nat.eqb_spec r r') as [<-|Hrr]; simpl.
  - rewrite nth_replace_same by auto.
    fold (_lda.cell (_lda.bump f (nth r m []) c) c').
    rewrite cell_bump by auto. reflexivity.
  - rewrite nth_replace_other by auto. reflexivity.
Qed.

(** ** The sampler keeps the shape of its arrays *)

Lemma fold_left_invariant (S A : Type) (P : S -> Prop) (f : S -> A -> S)
  (xs : list A) (s : S) :
  (forall s x, P s -> P (f s x)) -> P s -> P (fold_left f xs s).
Proof.
  intros Hf; revert s; induction xs as [|x xs IH]; simpl; auto.
Qed.

Lemma same_shape_refl (c : chain) : same_shape c c.
Proof. repeat split. Qed.

Lemma same_shape_trans (c1 c2 c3 : chain) :
  same_shape c1 c2 -> same_shape c2 c3 -> same_shape c1 c3.
Proof.
  unfold same_shape; intros (A1 & A2 & A3 & A4) (B1 & B2 & B3 & B4).
  repeat split; congruence.
Qed.

Lemma exclude_shape (w d z : nat) (c : chain) :
  same_shape c (_lda.exclude w d z c).
Proof.
  unfold same_shape, _lda.exclude; simpl.
  rewrite !shape_bump2, bump_length; auto.
Qed.

Lemma reinstate_shape (i w d z : nat) (c : chain) :
  same_shape c (_lda.reinstate i w d z c).
Proof.
  unfold same_shape, _lda.reinstate; simpl.
  rewrite !shape_bump2, bump_length, replace_length; auto.
Qed.

Lemma resample_shape (ws ds : list nat) (al et rands : list Qc) (c : chain)
  (i : nat) :
  same_shape c (_lda.resample ws ds al et rands c i).
Proof.
  unfold _lda.resample.
  eapply same_shape_trans; [apply exclude_shape | apply reinstate_shape].
Qed.

Lemma kernel_shape (ws ds : list nat) (al et rands : list Qc) (c : chain) :
  same_shape c (_lda._sample_topics ws ds c al et rands).
Proof.
  unfold _lda._sample_topics.
  apply fold_left_invariant with (P := same_shape c).
  - intros s x Hs. eapply same_shape_trans; [exact Hs | apply resample_shape].
  - apply same_shape_refl.
Qed.

Lemma sweeps_shape (ws ds : list nat) (al et : list Qc)
  (pools : list (list Qc)) (c : chain) :
  same_shape c (sweeps ws ds al et pools c).
Proof.
  unfold sweeps.
  apply fold_left_invariant with (P := same_shape c).
  - intros s x Hs. eapply same_shape_trans; [exact Hs | apply kernel_shape].
  - apply same_shape_refl.
Qed.

(** ** Attributes of the model across its methods *)

Lemma same_config_refl (self : LDA) : same_config self self.
Proof. repeat split. Qed.

Lemma same_config_trans (s1 s2 s3 : LDA) :
  same_config s1 s2 -> same_config s2 s3 -> same_config s1 s3.
Proof.
  unfold same_config.
  intros (A1 & A2 & A3 & A4 & A5 & A6 & A7) (B1 & B2 & B3 & B4 & B5 & B6 & B7).
  repeat split; congruence.
Qed.

Lemma set_tables_has_chain (self : LDA) (ws ds : list nat) (c c' : chain) :
  has_chain self ws ds c -> has_chain (set_tables self c') ws ds c'.
Proof.
  unfold has_chain; intros (H1 & H2 & _); simpl; auto 10.
Qed.

Lemma set_tables_twice (self : LDA) (c c' : chain) :
  set_tables (set_tables self c) c' = set_tables self c'.
Proof. reflexivity. Qed.

Lemma set_tables_same (self : LDA) (ws ds : list nat) (c : chain) :
  has_chain self ws ds c -> set_tables self c = self.
Proof.
  destruct self, c; unfold has_chain, set_tables; simpl.
  intros (_ & _ & -> & -> & -> & ->); reflexivity.
Qed.

Lemma sample_topics_1_ok (self : LDA) (ws ds : list nat) (c : chain)
  (rands : list Qc) :
  has_chain self ws ds c ->
  _sample_topics self rands =
  Ok (set_tables self
        (_lda._sample_topics ws ds c (alpha_vector self (c_nzw c))
           (eta_vector self (c_nzw c)) rands)).
Proof.
  intros (H1 & H2 & H3 & H4 & H5 & H6).
  unfold _sample_topics, alpha_vector, eta_vector.
  rewrite H1, H2, H3, H4, H5, H6; simpl.
  destruct c; reflexivity.
Qed.

Lemma bind_ok (A B : Type) (c : result A) (k : A -> result B) (b : B) :
  bind c k = Ok b -> exists a, c = Ok a /\ k a = Ok b.
Proof.
  destruct c as [a|e]; simpl; [eauto | discriminate].
Qed.

Ltac bind_inv H :=
  let a := fresh "a" in
  let Ha := fresh "Ha" in
  apply bind_ok in H; destruct H as (a & Ha & H).

Lemma sample_topics_1_config (self self' : LDA) (rands : list Qc) :
  _sample_topics self rands = Ok self' ->
  same_config self self' /\ loglikelihoods_ self' = loglikelihoods_ self.
Proof.
  unfold _sample_topics; intros H.
  bind_inv H. destruct (Np.shape a) as [K W].
  do 5 bind_inv H. inversion H; subst.
  split; [repeat split | reflexivity].
Qed.

Section Generators.

Variable rng : Type.
Variable RandomState : Z -> rng.
Variable rand : rng -> Z -> list Qc * rng.
Variable shuffle : rng -> list Qc -> list Qc * rng.
Variable _loglikelihood :
  list (list Z) -> list (list Z) -> list Z -> list Z -> Qc -> Qc -> Qc.

Lemma with_rng_value (A : Type) (f : rng -> A * rng) (h : handle rng)
  (w : world rng) :
  exists g, fst (fst (with_rng f h w)) = fst (f g).
Proof.
  destruct h as [| |g]; simpl.
  - exists (global_rng w); destruct (f (global_rng w)); reflexivity.
  - exists (object_rng w); destruct (f (object_rng w)); reflexivity.
  - exists g; destruct (f g); reflexivity.
Qed.

Lemma sample_loop_config (n : nat) (h : handle rng) (rands : list Qc)
  (self self' : LDA) (w w' : world rng) :
  sample_loop shuffle n h rands self w = Ok (self', w') ->
  same_config self self' /\ loglikelihoods_ self' = loglikelihoods_ self.
Proof.
  revert h rands self w; induction n as [|n IH]; intros h rands self w H.
  - inversion H; subst. split; [apply same_config_refl | reflexivity].
  - simpl in H.
    destruct (with_rng (fun g => shuffle g rands) h w) as [[r1 h1] w1].
    bind_inv H. apply sample_topics_1_config in Ha. apply IH in H.
    destruct Ha as [Ha1 Ha2], H as [H1 H2].
    split; [eapply same_config_trans; eauto | congruence].
Qed.

(** A model with all its arrays runs any number of sweeps: the result holds
    the arrays obtained by running the sampler on the successive pools. *)
Lemma sample_loop_ok (n : nat) (h : handle rng) (rands : list Qc)
  (self : LDA) (w : world rng) (ws ds : list nat) (c : chain) :
  has_chain self ws ds c ->
  sample_loop shuffle n h rands self w =
  Ok (set_tables self
        (sweeps ws ds (alpha_vector self (c_nzw c)) (eta_vector self (c_nzw c))
           (loop_pools shuffle n h rands w) c),
      loop_world shuffle n h rands w).
Proof.
  revert h rands self w c; induction n as [|n IH]; intros h rands self w c Hc.
  - simpl. unfold sweeps; simpl. rewrite (set_tables_same Hc). reflexivity.
  - simpl.
    destruct (with_rng (fun g => shuffle g rands) h w) as [[r1 h1] w1].
    rewrite (sample_topics_1_ok r1 Hc). simpl.
    set (c1 := _lda._sample_topics ws ds c _ _ r1).
    rewrite (IH h1 r1 _ w1 c1) by (eapply set_tables_has_chain; eauto).
    rewrite set_tables_twice.
    assert (Hs : Np.shape (c_nzw c1) = Np.shape (c_nzw c))
      by (apply kernel_shape).
    unfold alpha_vector, eta_vector. rewrite Hs. reflexivity.
Qed.

(** The sweeps of [sample_topics] lead from trained states to trained
    states. *)
Lemma sample_loop_trained (n : nat) (h : handle rng) (rands : list Qc)
  (self0 self self' : LDA) (X : input) (w w' : world rng) :
  trained self0 X self ->
  sample_loop shuffle n h rands self w = Ok (self', w') ->
  trained self0 X self'.
Proof.
  revert h rands self w; induction n as [|n IH]; intros h rands self w T H.
  - inversion H; subst. exact T.
  - simpl in H.
    destruct (with_rng (fun g => shuffle g rands) h w) as [[r1 h1] w1].
    bind_inv H. eapply IH; [| exact H].
    eapply trained_sweep; eauto.
Qed.

Lemma loop_pools_length (n : nat) (h : handle rng) (rands : list Qc)
  (w : world rng) :
  length (loop_pools shuffle n h rands w) = n.
Proof.
  revert h rands w; induction n as [|n IH]; intros h rands w; simpl; auto.
  destruct (with_rng (fun g => shuffle g rands) h w) as [[r1 h1] w1].
  simpl; rewrite IH; reflexivity.
Qed.

Lemma loop_pools_permutation (n : nat) (h : handle rng) (pool rands : list Qc)
  (w : world rng) :
  (forall g a, Permutation a (fst (shuffle g a))) ->
  Permutation pool rands ->
  Forall (Permutation pool) (loop_pools shuffle n h rands w).
Proof.
  intros Hsh; revert h rands w; induction n as [|n IH]; intros h rands w Hp;
    simpl; [constructor|].
  destruct (with_rng_value (fun g => shuffle g rands) h w) as [g Hg].
  destruct (with_rng (fun g => shuffle g rands) h w) as [[r1 h1] w1].
  simpl in Hg; subst r1.
  assert (Permutation pool (fst (shuffle g rands)))
    by (eapply Permutation_trans; [exact Hp | apply Hsh]).
  constructor; auto.
Qed.

End Generators.

(** ** Counting tokens *)

Lemma wrap_id (x : Z) : Intc.in_range x -> Intc.wrap x = x.
Proof.
  unfold Intc.in_range, Intc.wrap, Intc.half, Intc.modulus.
  change (2 ^ 31)%Z with 2147483648%Z; change (2 ^ 32)%Z with 4294967296%Z.
  intros H. rewrite Z.mod_small by lia. lia.
Qed.

Lemma inc_exact (x : Z) : (0 <= x)%Z -> (x + 1 < Intc.half)%Z -> Intc.inc x = (x + 1)%Z.
Proof.
  intros H0 H1; apply wrap_id. unfold Intc.in_range, Intc.half in *.
  change (2 ^ 31)%Z with 2147483648%Z in *. lia.
Qed.

Lemma dec_exact (x : Z) : (0 < x)%Z -> (x < Intc.half)%Z -> Intc.dec x = (x - 1)%Z.
Proof.
  intros H0 H1; apply wrap_id. unfold Intc.in_range, Intc.half in *.
  change (2 ^ 31)%Z with 2147483648%Z in *. lia.
Qed.

Lemma count_upto_le (n : nat) (p : nat -> bool) : (count_upto n p <= n)%nat.
Proof.
  unfold count_upto.
  pose proof (filter_length_le p (seq 0 n)) as H.
  rewrite length_seq in H. exact H.
Qed.

Lemma count_upto_ext (n : nat) (p q : nat -> bool) :
  (forall i, (i < n)%nat -> p i = q i) -> count_upto n p = count_upto n q.
Proof.
  intros H; unfold count_upto; f_equal.
  apply filter_ext_in. intros i Hi; apply in_seq in Hi; apply H; lia.
Qed.


(** Changing the predicate at one token changes the count by that token. *)
Lemma count_upto_toggle (n i : nat) (p q : nat -> bool) :
  (i < n)%nat ->
  (forall j, j <> i -> q j = p j) ->
  (count_upto n q + (if p i then 1 else 0)
   = count_upto n p + (if q i then 1 else 0))%nat.
Proof.
  intros Hi Hoff; unfold count_upto.
  replace n with (i + S (n - S i))%nat by lia.
  rewrite seq_app, !filter_app, !length_app; simpl.
  rewrite (filter_ext_in q p (seq 0 i)).
  2:{ intros j Hj; apply in_seq in Hj; apply Hoff; lia. }
  rewrite (filter_ext_in q p (seq (S i) (n - S i))).
  2:{ intros j Hj; apply in_seq in Hj; apply Hoff; lia. }
  destruct (p i), (q i); simpl; lia.
Qed.

Lemma row_width (A : Type) (m : list (list A)) (r n : nat) :
  Forall (fun row => length row = n) m -> (r < length m)%nat ->
  length (nth r m []) = n.
Proof.
  intros H Hr. rewrite Forall_forall in H. apply H, nth_In, Hr.
Qed.

Lemma exclude_well_shaped (K D W : nat) (ws ds : list nat) (c : chain)
  (w d z : nat) :
  well_shaped K D W ws ds c -> well_shaped K D W ws ds (_lda.exclude w d z c).
Proof.
  intros []; constructor; simpl; auto;
    rewrite ?bump2_length, ?bump_length; auto; apply bump2_widths; auto.
Qed.

Lemma reinstate_well_shaped (K D W : nat) (ws ds : list nat) (c : chain)
  (i w d z : nat) :
  well_shaped K D W ws ds c ->
  well_shaped K D W ws ds (_lda.reinstate i w d z c).
Proof.
  intros []; constructor; simpl; auto;
    rewrite ?bump2_length, ?bump_length, ?replace_length; auto;
    apply bump2_widths; auto.
Qed.

Lemma count_after_inc (N i : nat) (p q : nat -> bool) (x : Z) (hit : bool) :
  (i < N)%nat -> (forall j, j <> i -> q j = p j) ->
  p i = false -> q i = hit ->
  (Z.of_nat N < Intc.half)%Z ->
  x = Z.of_nat (count_upto N p) ->
  (if hit then Intc.inc x else x) = Z.of_nat (count_upto N q).
Proof.
  intros Hi Hoff Hp Hq HN ->.
  pose proof (@count_upto_toggle N i p q Hi Hoff) as T. rewrite Hp, Hq in T.
  pose proof (count_upto_le N q).
  destruct hit.
  - rewrite inc_exact by lia. lia.
  - f_equal; lia.
Qed.

Lemma count_after_dec (N i : nat) (p q : nat -> bool) (x : Z) (hit : bool) :
  (i < N)%nat -> (forall j, j <> i -> q j = p j) ->
  p i = hit -> q i = false ->
  (Z.of_nat N < Intc.half)%Z ->
  x = Z.of_nat (count_upto N p) ->
  (if hit then Intc.dec x else x) = Z.of_nat (count_upto N q).
Proof.
  intros Hi Hoff Hp Hq HN ->.
  pose proof (@count_upto_toggle N i p q Hi Hoff) as T. rewrite Hp, Hq in T.
  pose proof (count_upto_le N p).
  destruct hit.
  - rewrite dec_exact by lia. lia.
  - f_equal; lia.
Qed.

(** Reinstating token [i] with topic [z] adds it to the counted tokens. *)
Lemma reinstate_counted (K D W : nat) (ws ds : list nat)
  (active : nat -> bool) (c : chain) (i z : nat) :
  counted K D W ws ds active c ->
  (i < length ws)%nat -> active i = false -> (z < K)%nat ->
  (Z.of_nat (length ws) < Intc.half)%Z ->
  counted K D W ws ds (fun j => active j || (j =? i)%nat)
    (_lda.reinstate i (nth i ws O) (nth i ds O) z c).
Proof.
  intros [Sh Hzs Hzw Hdz Hz] Hi Hact HzK HN.
  pose proof Sh as [S1 S2 S3 S4 S5 S6 S7 S8 S9].
  assert (Hw : (nth i ws O < W)%nat).
  { rewrite Forall_forall in S3; apply S3, nth_In, Hi. }
  assert (Hd : (nth i ds O < D)%nat).
  { rewrite Forall_forall in S4; apply S4, nth_In; lia. }
  assert (Hoff : forall j, j <> i ->
            nth j (Np.replace (c_ZS c) i z) O = nth j (c_ZS c) O).
  { intros j Hj; apply nth_replace_other; auto. }
  assert (Hat : nth i (Np.replace (c_ZS c) i z) O = z).
  { apply nth_replace_same; lia. }
  constructor.
  - apply reinstate_well_shaped; exact Sh.
  - intros j Hj Hj'. simpl.
    destruct (Nat.eqb_spec j i) as [->|Hne].
    + rewrite Hat; exact HzK.
    + rewrite Hoff by auto. apply Hzs; auto.
      rewrite orb_false_r in Hj'; exact Hj'.
  - intros z' w' Hz' Hw'. simpl.
    rewrite cell2_bump2
      by (rewrite ?(row_width S6) by lia; lia).
    apply count_after_inc with (i := i)
      (p := fun j => active j && ((nth j (c_ZS c) O =? z')%nat
                                  && (nth j ws O =? w')%nat)); auto.
    + intros j Hj. rewrite Hoff by auto.
      destruct (Nat.eqb_spec j i); [contradiction|].
      rewrite orb_false_r; reflexivity.
    + rewrite Hact; reflexivity.
    + rewrite Hat, Nat.eqb_refl, orb_true_r; reflexivity.
  - intros d' z' Hd' Hz'. simpl.
    rewrite cell2_bump2
      by (rewrite ?(row_width S8) by lia; lia).
    apply count_after_inc with (i := i)
      (p := fun j => active j && ((nth j ds O =? d')%nat
                                  && (nth j (c_ZS c) O =? z')%nat)); auto.
    + intros j Hj. rewrite Hoff by auto.
      destruct (Nat.eqb_spec j i); [contradiction|].
      rewrite orb_false_r; reflexivity.
    + rewrite Hact; reflexivity.
    + rewrite Hat, Nat.eqb_refl, orb_true_r; reflexivity.
  - intros z' Hz'. simpl.
    rewrite cell_bump by lia.
    apply count_after_inc with (i := i)
      (p := fun j => active j && (nth j (c_ZS c) O =? z')%nat); auto.
    + intros j Hj. rewrite Hoff by auto.
      destruct (Nat.eqb_spec j i); [contradiction|].
      rewrite orb_false_r; reflexivity.
    + rewrite Hact; reflexivity.
    + rewrite Hat, Nat.eqb_refl, orb_true_r; reflexivity.
Qed.

(** Excluding token [i] removes it from the counted tokens. *)
Lemma exclude_counted (K D W : nat) (ws ds : list nat)
  (active : nat -> bool) (c : chain) (i : nat) :
  counted K D W ws ds active c ->
  (i < length ws)%nat -> active i = true ->
  (Z.of_nat (length ws) < Intc.half)%Z ->
  counted K D W ws ds (fun j => active j && negb (j =? i)%nat)
    (_lda.exclude (nth i ws O) (nth i ds O) (nth i (c_ZS c) O) c).
Proof.
  intros [Sh Hzs Hzw Hdz Hz] Hi Hact HN.
  pose proof Sh as [S1 S2 S3 S4 S5 S6 S7 S8 S9].
  assert (Hw : (nth i ws O < W)%nat).
  { rewrite Forall_forall in S3; apply S3, nth_In, Hi. }
  assert (Hd : (nth i ds O < D)%nat).
  { rewrite Forall_forall in S4; apply S4, nth_In; lia. }
  assert (HzK : (nth i (c_ZS c) O < K)%nat) by (apply Hzs; auto).
  constructor.
  - apply exclude_well_shaped; exact Sh.
  - intros j Hj Hj'. simpl.
    apply andb_true_iff in Hj'. apply Hzs; tauto.
  - intros z' w' Hz' Hw'. simpl.
    rewrite cell2_bump2
      by (rewrite ?(row_width S6) by lia; lia).
    apply count_after_dec with (i := i)
      (p := fun j => active j && ((nth j (c_ZS c) O =? z')%nat
                                  && (nth j ws O =? w')%nat)); auto.
    + intros j Hj. destruct (Nat.eqb_spec j i); [contradiction|].
      simpl; rewrite andb_true_r; reflexivity.
    + rewrite Hact; reflexivity.
    + rewrite Nat.eqb_refl; simpl. rewrite andb_false_r; reflexivity.
  - intros d' z' Hd' Hz'. simpl.
    rewrite cell2_bump2
      by (rewrite ?(row_width S8) by lia; lia).
    apply count_after_dec with (i := i)
      (p := fun j => active j && ((nth j ds O =? d')%nat
                                  && (nth j (c_ZS c) O =? z')%nat)); auto.
    + intros j Hj. destruct (Nat.eqb_spec j i); [contradiction|].
      simpl; rewrite andb_true_r; reflexivity.
    + rewrite Hact; reflexivity.
    + rewrite Nat.eqb_refl; simpl. rewrite andb_false_r; reflexivity.
  - intros z' Hz'. simpl.
    rewrite cell_bump by lia.
    apply count_after_dec with (i := i)
      (p := fun j => active j && (nth j (c_ZS c) O =? z')%nat); auto.
    + intros j Hj. destruct (Nat.eqb_spec j i); [contradiction|].
      simpl; rewrite andb_true_r; reflexivity.
    + rewrite Hact; reflexivity.
    + rewrite Nat.eqb_refl; simpl. rewrite andb_false_r; reflexivity.
Qed.

Lemma counted_ext (K D W : nat) (ws ds : list nat) (a a' : nat -> bool)
  (c : chain) :
  (forall j, (j < length ws)%nat -> a j = a' j) ->
  counted K D W ws ds a c -> counted K D W ws ds a' c.
Proof.
  intros E [Sh Hzs Hzw Hdz Hz]; constructor.
  - exact Sh.
  - intros i Hi Hi'. apply Hzs; auto. rewrite E; auto.
  - intros z w Hz' Hw'. rewrite Hzw by auto. f_equal.
    apply count_upto_ext. intros i Hi; rewrite E; auto.
  - intros d z Hd' Hz'. rewrite Hdz by auto. f_equal.
    apply count_upto_ext. intros i Hi; rewrite E; auto.
  - intros z Hz'. rewrite Hz by auto. f_equal.
    apply count_upto_ext. intros i Hi; rewrite E; auto.
Qed.


(** ** The scan of the running totals *)

Lemma first_reaching_bounds (cum : list Qc) (r : Qc) (k : nat) :
  (k <= _lda.first_reaching cum r k <= k + length cum)%nat.
Proof.
  revert k; induction cum as [|t cum IH]; intros k; simpl; [lia|].
  destruct (Qcle_bool r t); [lia|]. specialize (IH (S k)); lia.
Qed.

Lemma select_lt (cum : list Qc) (r : Qc) :
  cum <> [] -> (_lda.select cum r < length cum)%nat.
Proof.
  intros H; unfold _lda.select.
  destruct cum; [contradiction|]. simpl length. lia.
Qed.

Lemma cumsum_length (acc : Qc) (a : list Qc) :
  length (cumsum acc a) = length a.
Proof.
  revert acc; induction a as [|x a IH]; intros acc; simpl; auto.
Qed.

Lemma sample_lt (al et : list Qc) (u : Qc) (w d : nat) (c : chain) :
  (0 < length (c_nz c))%nat ->
  (_lda.sample al et u w d c < length (c_nz c))%nat.
Proof.
  intros H; unfold _lda.sample.
  set (cum := cumsum 0 (_lda.masses al et c w d)).
  assert (L : length cum = length (c_nz c)).
  { unfold cum, _lda.masses.
    rewrite cumsum_length, length_map, length_seq; reflexivity. }
  rewrite <- L. apply select_lt.
  intros E; rewrite E in L; simpl in L; lia.
Qed.

(** ** A sweep keeps the tables in step with the assignments *)

Lemma resample_counted (K D W : nat) (ws ds : list nat)
  (al et rands : list Qc) (c : chain) (i : nat) :
  (Z.of_nat (length ws) < Intc.half)%Z ->
  (i < length ws)%nat ->
  counted K D W ws ds (fun _ => true) c ->
  counted K D W ws ds (fun _ => true) (_lda.resample ws ds al et rands c i).
Proof.
  intros HN Hi Hc. unfold _lda.resample.
  set (c1 := _lda.exclude _ _ _ c).
  assert (H1 : counted K D W ws ds (fun j => true && negb (j =? i)%nat) c1)
    by (apply exclude_counted; auto).
  assert (HK : (0 < K)%nat).
  { pose proof (@ct_zs _ _ _ _ _ _ _ Hc i Hi eq_refl). lia. }
  assert (Hlen : length (c_nz c1) = K) by (apply H1).
  set (z := _lda.sample al et (_lda.draw rands i) _ _ c1).
  assert (Hz : (z < K)%nat).
  { rewrite <- Hlen. apply sample_lt. lia. }
  eapply counted_ext; [| apply reinstate_counted; eauto].
  - intros j Hj; simpl. destruct (Nat.eqb_spec j i); reflexivity.
  - simpl. rewrite Nat.eqb_refl; reflexivity.
Qed.


(** ** The token stream *)

Lemma row_tokens_length (W d : nat) (row : list nat) :
  length (row_tokens W d row) = row_total W row.
Proof.
  unfold row_tokens, row_total.
  induction (seq 0 W) as [|w l IH]; simpl; auto.
  rewrite length_app, repeat_length, IH; reflexivity.
Qed.

Lemma rows_tokens_length (W d : nat) (rs : list (list nat)) :
  length (rows_tokens W d rs) = fold_right Nat.add O (map (row_total W) rs).
Proof.
  revert d; induction rs as [|row rs IH]; intros d; simpl; auto.
  rewrite length_app, row_tokens_length, IH; reflexivity.
Qed.

Lemma row_tokens_range (W d : nat) (row : list nat) :
  Forall (fun t => (fst t < W)%nat /\ snd t = d) (row_tokens W d row).
Proof.
  unfold row_tokens. apply Forall_forall. intros t Ht.
  apply in_flat_map in Ht. destruct Ht as (w & Hw & Ht).
  apply repeat_spec in Ht; subst t. apply in_seq in Hw. simpl; lia.
Qed.

Lemma rows_tokens_range (W d : nat) (rs : list (list nat)) :
  Forall (fun t => (fst t < W)%nat /\ (snd t < d + length rs)%nat)
    (rows_tokens W d rs).
Proof.
  revert d; induction rs as [|row rs IH]; intros d; simpl; [constructor|].
  apply Forall_app; split.
  - eapply Forall_impl; [| apply row_tokens_range].
    intros t [H1 H2]; simpl in *; lia.
  - eapply Forall_impl; [| apply (IH (S d))].
    intros t [H1 H2]; simpl in *; lia.
Qed.

Lemma matrix_to_lists_spec (M : matrix) :
  let (ws, ds) := matrix_to_lists M in
  length ws = matrix_sum M /\ length ds = length ws
  /\ Forall (fun w => w < n_cols M)%nat ws
  /\ Forall (fun d => d < length (rows M))%nat ds.
Proof.
  unfold matrix_to_lists, matrix_sum.
  pose proof (rows_tokens_range (n_cols M) 0 (rows M)) as R.
  rewrite !length_map, rows_tokens_length.
  repeat split; apply Forall_map; eapply Forall_impl; try exact R;
    simpl; intros t [H1 H2]; auto.
Qed.

Lemma matrix_to_lists_length (M : matrix) :
  length (fst (matrix_to_lists M)) = matrix_sum M.
Proof.
  pose proof (matrix_to_lists_spec M) as Hm.
  destruct (matrix_to_lists M) as [ws ds]. apply Hm.
Qed.

(** ** Initialization *)

Lemma update_bump (f : Z -> Z) (a : list Z) (i : nat) :
  (i < length a)%nat -> Np.update a i f = Ok (_lda.bump f a i).
Proof.
  intros H; unfold Np.update. rewrite (get_nth a 0%Z H). reflexivity.
Qed.

Lemma update2_bump2 (f : Z -> Z) (m : list (list Z)) (r c : nat) :
  (r < length m)%nat -> (c < length (nth r m []))%nat ->
  Np.update2 m r c f = Ok (_lda.bump2 f m r c).
Proof.
  intros Hr Hc; unfold Np.update2.
  rewrite (get_nth m [] Hr); simpl.
  rewrite (update_bump f _ Hc); reflexivity.
Qed.

Lemma init_token_ok (K D W : nat) (ws ds : list nat) (c : chain) (i : nat) :
  well_shaped K D W ws ds c -> (0 < K)%nat -> (i < length ws)%nat ->
  init_token K ws ds i c = Ok (init_step K ws ds c i).
Proof.
  intros [S1 S2 S3 S4 S5 S6 S7 S8 S9] HK Hi.
  assert (Hw : (nth i ws O < W)%nat).
  { rewrite Forall_forall in S3; apply S3, nth_In, Hi. }
  assert (Hd : (nth i ds O < D)%nat).
  { rewrite Forall_forall in S4; apply S4, nth_In; lia. }
  assert (Hz : (i mod K < K)%nat) by (apply Nat.mod_upper_bound; lia).
  unfold init_token, init_step.
  rewrite (get_nth ws O Hi); simpl.
  rewrite (get_nth ds O) by lia; simpl.
  unfold py_mod. destruct K as [|K']; [lia|]. simpl bind.
  unfold Np.set. replace (i <? length (c_ZS c))%nat with true
    by (symmetry; apply Nat.ltb_lt; lia). simpl bind.
  rewrite update2_bump2 by (rewrite ?(row_width S8) by lia; lia). simpl bind.
  rewrite update2_bump2 by (rewrite ?(row_width S6) by lia; lia). simpl bind.
  rewrite update_bump by lia. reflexivity.
Qed.

Lemma init_loop_ok (K D W : nat) (ws ds : list nat) (a len : nat) (c : chain) :
  well_shaped K D W ws ds c -> (0 < K)%nat -> (a + len <= length ws)%nat ->
  for_each (seq a len) (init_token K ws ds) c =
  Ok (fold_left (init_step K ws ds) (seq a len) c).
Proof.
  revert a c; induction len as [|len IH]; intros a c Hs HK Hl; simpl; auto.
  rewrite (init_token_ok Hs) by lia. simpl.
  apply IH; auto; [| lia].
  apply reinstate_well_shaped; exact Hs.
Qed.

Lemma count_upto_none (n : nat) (p : nat -> bool) :
  (forall i, (i < n)%nat -> p i = false) -> count_upto n p = O.
Proof.
  intros H. rewrite (@count_upto_ext n p (fun _ => false) H).
  unfold count_upto. induction (seq 0 n); simpl; auto.
Qed.

Lemma cell_zeros (n i : nat) : _lda.cell (Np.zeros n) i = 0%Z.
Proof. unfold _lda.cell, Np.zeros. apply nth_repeat. Qed.

Lemma cell2_zeros2 (r c i j : nat) : _lda.cell2 (Np.zeros2 r c) i j = 0%Z.
Proof.
  unfold _lda.cell2, Np.zeros2.
  destruct (Nat.lt_ge_cases i r) as [H|H].
  - rewrite (nth_indep _ [] (Np.zeros c)) by (rewrite repeat_length; exact H).
    rewrite nth_repeat. apply cell_zeros.
  - rewrite (nth_overflow (repeat (Np.zeros c) r) [])
      by (rewrite repeat_length; exact H).
    destruct j; reflexivity.
Qed.

Lemma init_chain_shaped (K D W : nat) (ws ds : list nat) :
  length ds = length ws ->
  Forall (fun w => w < W)%nat ws -> Forall (fun d => d < D)%nat ds ->
  well_shaped K D W ws ds (init_chain K D W ws).
Proof.
  intros H1 H2 H3; constructor; simpl; auto;
    unfold Np.zeros2, Np.zeros; rewrite ?repeat_length; auto;
    apply Forall_forall; intros row Hr; apply repeat_spec in Hr; subst;
    apply repeat_length.
Qed.

Lemma init_chain_counted (K D W : nat) (ws ds : list nat) :
  length ds = length ws ->
  Forall (fun w => w < W)%nat ws -> Forall (fun d => d < D)%nat ds ->
  counted K D W ws ds (fun j => j <? 0)%nat (init_chain K D W ws).
Proof.
  intros H1 H2 H3; constructor.
  - apply init_chain_shaped; auto.
  - intros i _ Hi. discriminate.
  - intros z w _ _. simpl. rewrite cell2_zeros2, count_upto_none; auto.
  - intros d z _ _. simpl. rewrite cell2_zeros2, count_upto_none; auto.
  - intros z _. simpl. rewrite cell_zeros, count_upto_none; auto.
Qed.

Lemma init_fold_shaped (K D W : nat) (ws ds : list nat) (l : list nat)
  (c : chain) :
  well_shaped K D W ws ds c ->
  well_shaped K D W ws ds (fold_left (init_step K ws ds) l c).
Proof.
  intros H. apply fold_left_invariant; auto.
  intros s x Hs. apply reinstate_well_shaped; exact Hs.
Qed.

Lemma init_fold_counted (K D W : nat) (ws ds : list nat) (n : nat) :
  length ds = length ws ->
  Forall (fun w => w < W)%nat ws -> Forall (fun d => d < D)%nat ds ->
  (0 < K)%nat -> (Z.of_nat (length ws) < Intc.half)%Z ->
  (n <= length ws)%nat ->
  counted K D W ws ds (fun j => j <? n)%nat
    (fold_left (init_step K ws ds) (seq 0 n) (init_chain K D W ws)).
Proof.
  intros H1 H2 H3 HK HN. induction n as [|n IH]; intros Hn.
  - apply init_chain_counted; auto.
  - rewrite seq_S, fold_left_app. simpl.
    eapply counted_ext; [| apply reinstate_counted; try apply IH; try lia].
    + intros j Hj; simpl.
      destruct (Nat.ltb_spec j n), (Nat.eqb_spec j n), (Nat.ltb_spec j (S n));
        simpl; auto; lia.
    + simpl. apply Nat.ltb_irrefl.
    + apply Nat.mod_upper_bound; lia.
Qed.

Lemma init_fold_zs (K D W : nat) (ws ds : list nat) (n : nat) (c : chain) :
  well_shaped K D W ws ds c ->
  (n <= length ws)%nat ->
  forall j, (j < n)%nat ->
  nth j (c_ZS (fold_left (init_step K ws ds) (seq 0 n) c)) O = (j mod K)%nat.
Proof.
  intros Hs. induction n as [|n IH]; intros Hn j Hj; [lia|].
  rewrite seq_S, fold_left_app. simpl.
  pose proof (init_fold_shaped (seq 0 n) Hs) as [S1 _ _ _ _ _ _ _ _].
  destruct (Nat.eq_dec j n) as [->|Hne].
  - apply nth_replace_same. lia.
  - rewrite nth_replace_other by auto. apply IH; lia.
Qed.

Lemma initialize_ok (self : LDA) (X : input) (M : matrix) :
  input_matrix X = Some M -> (0 < n_topics self)%nat ->
  _initialize self X = Ok (initialized self M).
Proof.
  intros HX HK.
  assert (Hs : shape2 X = Ok (M, length (rows M), n_cols M))
    by (destruct X; inversion HX; subst; reflexivity).
  unfold _initialize, initialized, initial_chain. rewrite Hs; cbn [bind].
  pose proof (matrix_to_lists_spec M) as Hm.
  destruct (matrix_to_lists M) as [ws ds].
  destruct Hm as (L1 & L2 & F1 & F2).
  rewrite <- L1, Nat.eqb_refl; simpl.
  rewrite (@init_loop_ok (n_topics self) (length (rows M)) (n_cols M) ws ds);
    auto.
  apply init_chain_shaped; auto.
Qed.

(** [_initialize] fails on a one-dimensional array, and on a matrix with
    tokens when there is no topic. *)
Lemma initialize_inv (self self' : LDA) (X : input) :
  _initialize self X = Ok self' ->
  exists M, input_matrix X = Some M /\
    ((0 < n_topics self)%nat \/ matrix_sum M = O).
Proof.
  intros H. destruct X as [v|M|M]; try discriminate; exists M; split; auto.
  all: destruct (n_topics self) as [|K] eqn:EK; [right | left; lia].
  all: unfold _initialize in H; cbn [bind shape2] in H.
  all: pose proof (matrix_to_lists_spec M) as Hm.
  all: destruct (matrix_to_lists M) as [ws ds].
  all: destruct Hm as (L1 & L2 & F1 & F2).
  all: rewrite <- L1 in *; rewrite Nat.eqb_refl in H; simpl in H.
  all: destruct ws as [|w ws]; [reflexivity|].
  all: destruct ds as [|d ds]; [discriminate|].
  all: rewrite EK in H; simpl in H; discriminate.
Qed.

Lemma initialize_empty (self : LDA) (X : input) (M : matrix) :
  input_matrix X = Some M -> matrix_sum M = O ->
  _initialize self X = Ok (initialized self M).
Proof.
  intros HX HN.
  assert (Hs : shape2 X = Ok (M, length (rows M), n_cols M))
    by (destruct X; inversion HX; subst; reflexivity).
  unfold _initialize, initialized, initial_chain. rewrite Hs; cbn [bind].
  pose proof (matrix_to_lists_spec M) as Hm.
  destruct (matrix_to_lists M) as [ws ds].
  destruct Hm as (L1 & L2 & F1 & F2).
  rewrite <- L1, Nat.eqb_refl; simpl.
  rewrite HN in L1. rewrite L1. reflexivity.
Qed.

Lemma initialize_total (self : LDA) (X : input) (M : matrix) :
  input_matrix X = Some M ->
  (0 < n_topics self)%nat \/ matrix_sum M = O ->
  _initialize self X = Ok (initialized self M).
Proof.
  intros HM [HK|HN]; [apply initialize_ok | apply initialize_empty]; auto.
Qed.

Lemma initial_chain_counted (K : nat) (M : matrix) :
  (0 < K)%nat \/ matrix_sum M = O ->
  (Z.of_nat (matrix_sum M) < Intc.half)%Z ->
  counted K (length (rows M)) (n_cols M)
    (fst (matrix_to_lists M)) (snd (matrix_to_lists M)) (fun _ => true)
    (initial_chain K M).
Proof.
  intros HK HN. unfold initial_chain.
  pose proof (matrix_to_lists_spec M) as Hm.
  destruct (matrix_to_lists M) as [ws ds]; simpl.
  destruct Hm as (L1 & L2 & F1 & F2).
  destruct HK as [HK|HK].
  - eapply counted_ext; [| apply init_fold_counted; auto; lia].
    intros j Hj; simpl. apply Nat.ltb_lt; exact Hj.
  - rewrite HK in L1. rewrite L1; simpl.
    eapply counted_ext; [| apply init_chain_counted; auto].
    intros j Hj; lia.
Qed.

Lemma initialized_has_chain (self : LDA) (M : matrix) :
  has_chain (initialized self M) (fst (matrix_to_lists M))
    (snd (matrix_to_lists M)) (initial_chain (n_topics self) M).
Proof.
  unfold initialized. destruct (matrix_to_lists M) as [ws ds]; simpl.
  repeat split.
Qed.

Lemma initialized_config (self : LDA) (M : matrix) :
  same_config self (initialized self M).
Proof.
  unfold initialized. destruct (matrix_to_lists M) as [ws ds].
  repeat split.
Qed.

Lemma initialize_result (self self' : LDA) (X : input) :
  _initialize self X = Ok self' ->
  exists M, input_matrix X = Some M
    /\ ((0 < n_topics self)%nat \/ matrix_sum M = O)
    /\ self' = initialized self M.
Proof.
  intros H. destruct (initialize_inv _ _ H) as (M & HM & HK).
  exists M; repeat split; auto.
  destruct HK as [HK|HK].
  - rewrite (initialize_ok self X HM HK) in H. congruence.
  - rewrite (initialize_empty self X HM HK) in H. congruence.
Qed.


(** ** Sums of counts *)

Lemma map_seq_nth (A B : Type) (f : A -> B) (l : list A) (d : A) :
  map f l = map (fun i => f (nth i l d)) (seq 0 (length l)).
Proof.
  induction l as [|x l IH]; simpl; auto.
  f_equal. rewrite <- seq_shift, map_map. exact IH.
Qed.







Section Sums.

Variables K D W : nat.
Variables ws ds : list nat.
Variable c : chain.
Hypothesis Hc : counted K D W ws ds (fun _ => true) c.

Lemma nz_counts (z : nat) :
  (z < K)%nat ->
  _lda.cell (c_nz c) z =
  Z.of_nat (count_upto (length ws) (fun i => (nth i (c_ZS c) O =? z)%nat)).
Proof.
  intros Hz. rewrite (ct_nz Hc) by auto. reflexivity.
Qed.




End Sums.

Lemma counted_consistent (K D W : nat) (ws ds : list nat) (c : chain) :
  counted K D W ws ds (fun _ => true) c -> consistent K D W ws ds c.
Proof.
  intros Hc. pose proof Hc as [[S1 S2 S3 S4 S5 S6 S7 S8 S9] Hzs Hzw Hdz Hnz].
  constructor; auto.
  apply Forall_forall. intros z Hz.
  destruct (In_nth _ _ O Hz) as (i & Hi & <-). apply Hzs; auto; lia.
Qed.

Lemma nth_map_seq (A : Type) (f : nat -> A) (n j : nat) (d : A) :
  (j < n)%nat -> nth j (map f (seq 0 n)) d = f j.
Proof.
  intros Hj.
  rewrite (nth_indep _ d (f O)) by (rewrite length_map, length_seq; exact Hj).
  rewrite map_nth, seq_nth by exact Hj. reflexivity.
Qed.

Lemma initial_chain_zs (K : nat) (M : matrix) :
  (0 < K)%nat \/ matrix_sum M = O ->
  c_ZS (initial_chain K M) = map (fun i => i mod K)%nat (seq 0 (matrix_sum M)).
Proof.
  intros HK. rewrite <- matrix_to_lists_length. unfold initial_chain.
  pose proof (matrix_to_lists_spec M) as Hm.
  destruct (matrix_to_lists M) as [ws ds]; simpl fst.
  destruct Hm as (L1 & L2 & F1 & F2).
  destruct HK as [HK|HN].
  2:{ rewrite HN in L1. destruct ws; [reflexivity | discriminate]. }
  assert (Hs : well_shaped K (length (rows M)) (n_cols M) ws ds
                 (init_chain K (length (rows M)) (n_cols M) ws))
    by (apply init_chain_shaped; auto).
  pose proof (init_fold_shaped (seq 0 (length ws)) Hs) as [S1 _ _ _ _ _ _ _ _].
  apply (nth_ext _ _ O O).
  - rewrite length_map, length_seq. exact S1.
  - intros j Hj. rewrite S1 in Hj.
    rewrite (init_fold_zs Hs (Nat.le_refl _) Hj).
    rewrite nth_map_seq by exact Hj. reflexivity.
Qed.

(** C7.  [_initialize] gives token [i] the topic [i mod n_topics], fills the
    three tables with the counts of exactly these assignments, and does so
    whatever the seed and the pool of the model are: any model with the same
    number of topics ends with the same arrays.  (With no topic at all,
    [_initialize] returns only when the matrix has no token.) *)
Theorem initialize_round_robin (self : LDA) (X : input) (M : matrix) :
  input_matrix X = Some M ->
  (0 < n_topics self)%nat \/ matrix_sum M = O ->
  (Z.of_nat (matrix_sum M) < Intc.half)%Z ->
  exists self' c,
    _initialize self X = Ok self'
    /\ has_chain self' (fst (matrix_to_lists M)) (snd (matrix_to_lists M)) c
    /\ c_ZS c
       = map (fun i => i mod n_topics self)%nat (seq 0 (matrix_sum M))
    /\ consistent (n_topics self) (length (rows M)) (n_cols M)
         (fst (matrix_to_lists M)) (snd (matrix_to_lists M)) c
    /\ forall other : LDA,
         n_topics other = n_topics self ->
         exists other',
           _initialize other X = Ok other'
           /\ has_chain other' (fst (matrix_to_lists M))
                (snd (matrix_to_lists M)) c.
Proof.
  intros HM HK HN.
  exists (initialized self M), (initial_chain (n_topics self) M).
  split; [apply initialize_total; auto|].
  split; [apply initialized_has_chain|].
  split; [apply initial_chain_zs; auto|].
  split; [apply counted_consistent, initial_chain_counted; auto|].
  intros other Ho. exists (initialized other M).
  split; [apply initialize_total; auto; rewrite Ho; exact HK|].
  rewrite <- Ho. apply initialized_has_chain.
Qed.


(** ** Checkpoints and blocks of sweeps *)

Lemma py_range_blocks (n r : Z) :
  (0 <= n)%Z -> (0 < r)%Z ->
  py_range 0 n r =
  Ok (map (fun k => (Z.of_nat k * r)%Z) (seq 0 (Z.to_nat (ceil_div n r)))).
Proof.
  intros Hn Hr. unfold py_range, ceil_div.
  replace (r =? 0)%Z with false by (symmetry; apply Z.eqb_neq; lia).
  replace (0 <? r)%Z with true by (symmetry; apply Z.ltb_lt; lia).
  f_equal.
  replace (Z.to_nat (if (0 <? n)%Z then ((n - 0 - 1) / r + 1)%Z else 0%Z))
    with (Z.to_nat ((n + r - 1) / r)).
  - apply map_ext. intros k. lia.
  - f_equal. destruct (Z.ltb_spec 0 n) as [H|H].
    + replace (n + r - 1)%Z with (n - 0 - 1 + 1 * r)%Z by lia.
      rewrite Z.div_add by lia. reflexivity.
    + replace n with 0%Z by lia. apply Z.div_small; lia.
Qed.

Lemma ceil_div_bounds (n r : Z) :
  (0 <= n)%Z -> (0 < r)%Z ->
  (0 <= ceil_div n r /\ (ceil_div n r - 1) * r < n <= ceil_div n r * r)%Z.
Proof.
  intros Hn Hr. unfold ceil_div.
  pose proof (Z.div_mod (n + r - 1) r ltac:(lia)) as E.
  pose proof (Z.mod_pos_bound (n + r - 1) r Hr) as B.
  nia.
Qed.

Lemma set_loglikelihoods_has_chain (self : LDA) (ws ds : list nat) (c : chain)
  (lls : list Qc) :
  has_chain self ws ds c -> has_chain (set_loglikelihoods self lls) ws ds c.
Proof. unfold has_chain; simpl; auto. Qed.

Lemma checkpoint_ok
  (ll : list (list Z) -> list (list Z) -> list Z -> list Z -> Qc -> Qc -> Qc)
  (self : LDA) (ws ds : list nat) (c : chain) (lls : list Qc) :
  has_chain self ws ds c -> loglikelihoods_ self = Some lls ->
  checkpoint ll self =
  Ok (set_loglikelihoods self
        (lls ++ [chain_loglikelihood ll (alpha self) (eta self) c])).
Proof.
  intros (H1 & H2 & H3 & H4 & H5 & H6) HL.
  unfold checkpoint, loglikelihood, chain_loglikelihood.
  rewrite H4, H5, H6, HL. reflexivity.
Qed.

Lemma sweeps_app (ws ds : list nat) (al et : list Qc)
  (ps qs : list (list Qc)) (c : chain) :
  sweeps ws ds al et (ps ++ qs) c =
  sweeps ws ds al et qs (sweeps ws ds al et ps c).
Proof. unfold sweeps. apply fold_left_app. Qed.

Lemma blocks_of_range (n r : Z) :
  (0 <= n)%Z -> (0 < r)%Z ->
  map (fun j => Z.to_nat (Z.min r (n - Z.of_nat j * r)))
    (seq 0 (Z.to_nat (ceil_div n r)))
  = blocks (Z.to_nat n) (Z.to_nat r).
Proof.
  intros Hn Hr. pose proof (ceil_div_bounds Hn Hr) as [Q0 Q].
  unfold blocks.
  set (N := Z.to_nat n). set (R := Z.to_nat r).
  assert (EN : n = Z.of_nat N) by (unfold N; lia).
  assert (ER : r = Z.of_nat R) by (unfold R; lia).
  assert (HR : (0 < R)%nat) by lia.
  pose proof (Nat.div_mod_eq N R) as DM.
  pose proof (Nat.mod_upper_bound N R ltac:(lia)) as MB.
  set (q := (N / R)%nat) in *. set (m := (N mod R)%nat) in *.
  assert (DZ : n = (r * Z.of_nat q + Z.of_nat m)%Z) by lia.
  assert (Hfull : forall j, (j < q)%nat ->
            Z.to_nat (Z.min r (n - Z.of_nat j * r)) = R).
  { intros j Hj. rewrite Z.min_l; [lia|]. nia. }
  assert (Hmap : map (fun j => Z.to_nat (Z.min r (n - Z.of_nat j * r)))
                   (seq 0 q) = repeat R q).
  { rewrite (map_ext_in _ (fun _ => R))
      by (intros j Hj; apply in_seq in Hj; apply Hfull; lia).
    rewrite map_const, length_seq. reflexivity. }
  destruct (Nat.eqb_spec m 0) as [Hm|Hm].
  - assert (EC : Z.to_nat (ceil_div n r) = q) by nia.
    rewrite EC, app_nil_r. exact Hmap.
  - assert (EC : Z.to_nat (ceil_div n r) = S q) by nia.
    rewrite EC, seq_S, map_app, Hmap. f_equal.
    cbn [map Nat.add]. f_equal. rewrite Z.min_r; nia.
Qed.

Lemma blocks_count (n r : nat) :
  (0 < r)%nat -> list_sum (blocks n r) = n.
Proof.
  intros Hr. unfold blocks.
  pose proof (Nat.div_mod_eq n r) as DM.
  rewrite list_sum_app.
  assert (E : forall k, list_sum (repeat r k) = (r * k)%nat)
    by (induction k as [|k IH]; simpl; [lia | rewrite IH; lia]).
  rewrite E. destruct (Nat.eqb_spec (n mod r) 0) as [Hm|Hm]; simpl; lia.
Qed.

Section Fitting.

Variable rng : Type.
Variable RandomState : Z -> rng.
Variable rand : rng -> Z -> list Qc * rng.
Variable shuffle : rng -> list Qc -> list Qc * rng.
Variable _loglikelihood :
  list (list Z) -> list (list Z) -> list Z -> list Z -> Qc -> Qc -> Qc.

Variables ws ds : list nat.
Variables al et : list Qc.
Variables n r : Z.
Variables a0 e0 : Qc.
Variable sd : seed.
Variable pool : list Qc.
Hypothesis Hn : (0 <= n)%Z.
Hypothesis Hr : (0 < r)%Z.

Let LL := chain_loglikelihood _loglikelihood a0 e0.
Let r' := Z.to_nat r.
Let size (j : nat) : nat := Z.to_nat (Z.min r (n - Z.of_nat j * r)).

Lemma fit_loop_ok (m a : nat) (self : LDA) (w : world rng) (c : chain)
  (lls : list Qc) :
  has_chain self ws ds c -> loglikelihoods_ self = Some lls ->
  alpha_vector self (c_nzw c) = al -> eta_vector self (c_nzw c) = et ->
  n_iter self = n -> refresh self = r -> alpha self = a0 -> eta self = e0 ->
  random_state self = sd -> _rands self = pool ->
  (a + m = Z.to_nat (ceil_div n r))%nat ->
  let bs := map size (seq a m) in
  let ps := fit_pools RandomState shuffle bs sd pool w in
  exists self',
    for_each (map (fun k => (Z.of_nat k * r)%Z) (seq a m))
      (fit_block RandomState shuffle _loglikelihood) (self, w)
    = Ok (self', fit_world RandomState shuffle bs sd pool w)
    /\ same_config self self'
    /\ has_chain self' ws ds (sweeps ws ds al et ps c)
    /\ Z.of_nat (length ps) = Z.max 0 (n - Z.of_nat a * r)
    /\ loglikelihoods_ self' =
       Some (lls ++ map (fun k => LL (sweeps ws ds al et
                                        (firstn (k * r') ps) c))
                      (seq 0 m)).
Proof.
  pose proof (ceil_div_bounds Hn Hr) as [Q0 Q].
  revert a self w c lls.
  induction m as [|m IH];
    intros a self w c lls Hc HL Hal Het En Er Ea Ee Es Ep Hq bs ps.
  - exists self. unfold ps, bs. simpl. rewrite app_nil_r.
    assert (Ha : Z.of_nat a = ceil_div n r) by lia.
    split; [reflexivity|].
    split; [apply same_config_refl|].
    split; [exact Hc|].
    split; [rewrite Ha; lia | exact HL].
  - unfold ps, bs. cbn [seq map for_each fit_pools fit_world].
    unfold fit_block at 1.
    rewrite (checkpoint_ok _loglikelihood Hc HL). cbn [bind].
    set (self1 := set_loglikelihoods self _).
    assert (Hc1 : has_chain self1 ws ds c)
      by (apply set_loglikelihoods_has_chain; exact Hc).
    unfold sample_topics.
    rewrite (sample_loop_ok shuffle _ _ _ _ Hc1).
    replace (Z.to_nat (Z.min (refresh self1) (n_iter self1 - Z.of_nat a * r)))
      with (size a) by (unfold self1, size; simpl; rewrite En, Er; reflexivity).
    replace (random_state self1) with sd by (rewrite <- Es; reflexivity).
    replace (_rands self1) with pool by (rewrite <- Ep; reflexivity).
    set (pools := loop_pools shuffle (size a)
                    (check_random_state RandomState sd) pool w).
    set (w1 := loop_world shuffle (size a)
                 (check_random_state RandomState sd) pool w).
    assert (Lp : length pools = size a)
      by (unfold pools; apply loop_pools_length).
    replace (alpha_vector self1 (c_nzw c)) with al by (rewrite <- Hal; reflexivity).
    replace (eta_vector self1 (c_nzw c)) with et by (rewrite <- Het; reflexivity).
    set (c1 := sweeps ws ds al et pools c).
    set (self2 := set_tables self1 c1).
    cbn [bind].
    assert (Hsh : Np.shape (c_nzw c1) = Np.shape (c_nzw c))
      by (apply sweeps_shape).
    destruct (IH (S a) self2 w1 c1
                (lls ++ [chain_loglikelihood _loglikelihood
                           (alpha self) (eta self) c]))
      as (self' & E & Hcfg & Hch & Hlen & Hlls); auto.
    { eapply set_tables_has_chain; eauto. }
    { unfold alpha_vector. rewrite Hsh. exact Hal. }
    { unfold eta_vector. rewrite Hsh. exact Het. }
    { lia. }
    set (rest := fit_pools RandomState shuffle (map size (seq (S a) m))
                   sd pool w1) in *.
    exists self'.
    split; [exact E|].
    split; [eapply same_config_trans; [| exact Hcfg]; repeat split|].
    split; [rewrite sweeps_app; exact Hch|].
    split; [rewrite length_app, Nat2Z.inj_add, Hlen, Lp; unfold size; lia|].
    rewrite Hlls, <- app_assoc. do 2 f_equal. simpl.
    rewrite Ea, Ee. f_equal.
    rewrite <- seq_shift, map_map. apply map_ext_in.
    intros k Hk. apply in_seq in Hk.
    assert (Lr : length pools = r').
    { rewrite Lp. unfold size, r'. f_equal. nia. }
    f_equal. rewrite firstn_app, Lr.
    replace (S k * r' - r')%nat with (k * r')%nat by lia.
    rewrite (@firstn_all2 _ (S k * r') pools) by (rewrite Lr; lia).
    rewrite sweeps_app. reflexivity.
Qed.

End Fitting.

Lemma initialized_loglikelihoods (self : LDA) (M : matrix) :
  loglikelihoods_ (initialized self M) = Some [].
Proof.
  unfold initialized. destruct (matrix_to_lists M); reflexivity.
Qed.

Section Model.

Variable rng : Type.
Variable RandomState : Z -> rng.
Variable rand : rng -> Z -> list Qc * rng.
Variable shuffle : rng -> list Qc -> list Qc * rng.
Variable _loglikelihood :
  list (list Z) -> list (list Z) -> list Z -> list Z -> Qc -> Qc -> Qc.

(** C8.  For [n_iter >= 0] and [refresh > 0], [_fit] runs exactly [n_iter]
    sweeps, in blocks of [refresh] with a shorter last block when [refresh]
    does not divide [n_iter]: one call of [sample_topics] per block, each
    sweep on the pool that call draws for it, so the pools, the final
    tables and the generators left behind are all determined.  It records
    the log likelihood before every block, that is after [0], [refresh],
    [2 * refresh], ... sweeps, and once more after the last sweep, in this
    order: [ceiling(n_iter / refresh) + 1] values.  (The matrix is one
    [_initialize] accepts: with no topic at all it has no token.) *)
Theorem fit_checkpoints (self : LDA) (X : input) (M : matrix)
  (w : world rng) :
  input_matrix X = Some M ->
  (0 < n_topics self)%nat \/ matrix_sum M = O ->
  (0 <= n_iter self)%Z ->
  (0 < refresh self)%Z ->
  let ws := fst (matrix_to_lists M) in
  let ds := snd (matrix_to_lists M) in
  let c0 := initial_chain (n_topics self) M in
  let run := sweeps ws ds (alpha_vector self (c_nzw c0))
               (eta_vector self (c_nzw c0)) in
  let LL := chain_loglikelihood _loglikelihood (alpha self) (eta self) in
  let bs := blocks (Z.to_nat (n_iter self)) (Z.to_nat (refresh self)) in
  let pools := fit_pools RandomState shuffle bs (random_state self)
                 (_rands self) w in
  exists self' lls,
    _fit RandomState shuffle _loglikelihood self X w
    = Ok (self', fit_world RandomState shuffle bs (random_state self)
                   (_rands self) w)
    /\ list_sum bs = Z.to_nat (n_iter self)
    /\ length pools = Z.to_nat (n_iter self)
    /\ nzw_ self' = Some (c_nzw (run pools c0))
    /\ ndz_ self' = Some (c_ndz (run pools c0))
    /\ nz_ self' = Some (c_nz (run pools c0))
    /\ loglikelihoods_ self' = Some lls
    /\ lls = map (fun k => LL (run (firstn (k * Z.to_nat (refresh self)) pools)
                                 c0))
               (seq 0 (Z.to_nat (ceil_div (n_iter self) (refresh self))))
             ++ [LL (run pools c0)]
    /\ Z.of_nat (length lls)
       = (ceil_div (n_iter self) (refresh self) + 1)%Z.
Proof.
  intros HM HK Hn Hr ws ds c0 run LL bs pools.
  pose proof (initialized_config self M) as (C1 & C2 & C3 & C4 & C5 & C6 & C7).
  pose proof (ceil_div_bounds Hn Hr) as [Q0 _].
  destruct (@fit_loop_ok rng RandomState shuffle _loglikelihood ws ds
              (alpha_vector self (c_nzw c0)) (eta_vector self (c_nzw c0))
              (n_iter self) (refresh self) (alpha self) (eta self)
              (random_state self) (_rands self) Hn Hr
              (Z.to_nat (ceil_div (n_iter self) (refresh self))) O
              (initialized self M) w c0 [])
    as (self1 & E & Hcfg & Hch & Hlen & Hlls);
    [ apply initialized_has_chain
    | apply initialized_loglikelihoods
    | unfold alpha_vector; rewrite C3; reflexivity
    | unfold eta_vector; rewrite C4; reflexivity
    | assumption | assumption | assumption | assumption
    | assumption | assumption
    | reflexivity
    | ].
  rewrite (blocks_of_range Hn Hr) in E, Hch, Hlen, Hlls.
  fold bs in E, Hch, Hlen, Hlls. fold pools in Hch, Hlen, Hlls.
  destruct Hcfg as (D1 & D2 & D3 & D4 & D5 & D6 & D7).
  pose proof (checkpoint_ok _loglikelihood Hch Hlls) as Ck.
  rewrite D3, D4, C3, C4 in Ck.
  simpl app in Ck, Hlls.
  eexists (clean_up _), _.
  split.
  { unfold _fit. rewrite (initialize_total self X HM HK). cbn [bind].
    rewrite C2, C6, (py_range_blocks Hn Hr). cbn [bind].
    rewrite E. cbn [bind]. rewrite Ck. reflexivity. }
  split; [apply blocks_count; lia|].
  split; [lia|].
  destruct Hch as (_ & _ & _ & H4 & H5 & H6).
  split; [exact H4|]. split; [exact H5|]. split; [exact H6|].
  split; [reflexivity|]. split; [reflexivity|].
  rewrite length_app, length_map, length_seq. simpl. lia.
Qed.

Lemma Qcle_bool_iff (x y : Qc) : Qcle_bool x y = true <-> x <= y.
Proof. unfold Qcle_bool, Qcle. apply Qle_bool_iff. Qed.

(** C6.  [__init__] raises exactly when [alpha <= 0] or [eta <= 0]; it then
    raises [ValueError] without having drawn from any generator, and no
    model object results; a model that is constructed holds the
    hyperparameters as they were given and none of the training arrays. *)
Theorem init_raises_iff_nonpositive (K : nat) (n : Z) (a e : Qc) (rs : seed)
  (r : Z) (w : world rng) :
  let out := __init__ RandomState rand K n a e rs r w in
  ((exists ex, fst out = Raise ex) <-> (a <= 0 \/ e <= 0))
  /\ (forall ex, fst out = Raise ex -> ex = ValueError /\ snd out = w)
  /\ (forall self, fst out = Ok self ->
        alpha self = a /\ eta self = e /\ 0 < a /\ 0 < e
        /\ nzw_ self = None /\ ndz_ self = None /\ nz_ self = None
        /\ WS self = None /\ DS self = None /\ ZS self = None).
Proof.
  unfold __init__.
  destruct (Qcle_bool a 0) eqn:Ea; [|destruct (Qcle_bool e 0) eqn:Ee]; simpl.
  - apply Qcle_bool_iff in Ea.
    split; [split; eauto|]. split; [intros ex H; inversion H; auto|].
    intros self H; discriminate.
  - apply Qcle_bool_iff in Ee.
    split; [split; eauto|]. split; [intros ex H; inversion H; auto|].
    intros self H; discriminate.
  - assert (Ha : ~ a <= 0) by (intros H; apply Qcle_bool_iff in H; congruence).
    assert (He : ~ e <= 0) by (intros H; apply Qcle_bool_iff in H; congruence).
    apply Qcnot_le_lt in Ha, He.
    destruct (with_rng (fun g => rand g pool_size) (check_random_state RandomState rs) w)
      as [[pool h] w']; simpl.
    split.
    { split; [intros [ex H]; discriminate|].
      intros [H|H]; [apply Qcle_not_lt in H | apply Qcle_not_lt in H];
        contradiction. }
    split; [intros ex H; discriminate|].
    intros self H; inversion H; subst; simpl. auto 10.
Qed.

Example init_zero_alpha :
  __init__ demo_RandomState demo_rand 2 10 0 (Q2Qc (1 # 100)) SeedNone 10
    demo_world
  = (Raise ValueError, demo_world).
Proof. reflexivity. Qed.

Lemma checkpoint_inv (self self' : LDA) :
  checkpoint _loglikelihood self = Ok self' ->
  same_config self self' /\ ndz_ self' = ndz_ self
  /\ exists ndz, ndz_ self = Some ndz.
Proof.
  unfold checkpoint, loglikelihood. intros H.
  bind_inv H. bind_inv H. inversion H; subst.
  split; [repeat split|]. split; [reflexivity|].
  bind_inv Ha. bind_inv Ha.
  destruct (ndz_ self); [eauto | discriminate].
Qed.

(** C10.  On a matrix, [fit_transform] is [fit] followed by reading
    [doc_topic_]: the same fitting run, the same final model and
    generators, and the projection of that model's document-topic
    counts. *)
Theorem fit_transform_refines_fit (self : LDA) (X : input) (M : matrix)
  (w : world rng) :
  input_matrix X = Some M ->
  fit_transform RandomState shuffle _loglikelihood self X w
  = ('(self', w') <- fit RandomState shuffle _loglikelihood self X w ;;
     doc_topic <- doc_topic_ self' ;;
     Ok (doc_topic, self', w'))
  /\ forall self' w',
       fit RandomState shuffle _loglikelihood self X w = Ok (self', w') ->
       exists ndz,
         ndz_ self' = Some ndz
         /\ fit_transform RandomState shuffle _loglikelihood self X w
            = Ok (project (alpha self') ndz, self', w').
Proof.
  intros HM.
  assert (E : (if is_ndarray X then atleast_2d X else X) = X)
    by (destruct X; inversion HM; reflexivity).
  assert (R : fit_transform RandomState shuffle _loglikelihood self X w
              = ('(self', w') <- fit RandomState shuffle _loglikelihood self X w ;;
                 doc_topic <- doc_topic_ self' ;;
                 Ok (doc_topic, self', w'))).
  { unfold fit_transform, fit. rewrite E.
    destruct (_fit RandomState shuffle _loglikelihood self X w) as [[s w']|];
      reflexivity. }
  split; [exact R|].
  intros self' w' H. rewrite R, H. cbn [bind].
  unfold fit, _fit in H.
  do 2 bind_inv H. bind_inv H. destruct a1 as [s1 w1].
  bind_inv H. inversion H; subst.
  destruct (checkpoint_inv _ Ha2) as (_ & Hn & ndz & Hs).
  exists ndz. unfold doc_topic_. simpl. rewrite Hn, Hs. simpl.
  split; reflexivity.
Qed.

(** ** An integer seed *)

Lemma sample_loop_fresh (k : nat) (g : rng) (rands : list Qc) (self : LDA)
  (w w0 : world rng) :
  sample_loop shuffle k (Fresh g) rands self w
  = (p <- sample_loop shuffle k (Fresh g) rands self w0 ;; Ok (fst p, w)).
Proof.
  revert g rands self; induction k as [|k IH]; intros g rands self; simpl.
  - reflexivity.
  - destruct (shuffle g rands) as [rands' g'].
    destruct (_sample_topics self rands') as [self'|ex]; simpl; auto.
Qed.

Lemma fit_block_config (it : Z) (self self' : LDA) (w w' : world rng) :
  fit_block RandomState shuffle _loglikelihood it (self, w) = Ok (self', w') ->
  same_config self self'.
Proof.
  unfold fit_block, sample_topics. intros H. bind_inv H.
  apply checkpoint_inv in Ha. destruct Ha as (Hc & _).
  apply sample_loop_config in H. destruct H as (Hc' & _).
  eapply same_config_trans; eauto.
Qed.

Lemma fit_block_fresh (it s : Z) (self : LDA) (w w0 : world rng) :
  random_state self = SeedInt s ->
  fit_block RandomState shuffle _loglikelihood it (self, w)
  = (p <- fit_block RandomState shuffle _loglikelihood it (self, w0) ;;
     Ok (fst p, w)).
Proof.
  intros Hs. unfold fit_block.
  destruct (checkpoint _loglikelihood self) as [self1|ex] eqn:E; simpl; auto.
  apply checkpoint_inv in E. destruct E as ((_ & _ & _ & _ & Hr & _) & _).
  unfold sample_topics. rewrite Hr, Hs. simpl.
  apply sample_loop_fresh.
Qed.

Lemma fit_loop_fresh (its : list Z) (s : Z) (self : LDA) (w w0 : world rng) :
  random_state self = SeedInt s ->
  for_each its (fit_block RandomState shuffle _loglikelihood) (self, w)
  = (p <- for_each its (fit_block RandomState shuffle _loglikelihood)
            (self, w0) ;;
     Ok (fst p, w)).
Proof.
  revert self w w0; induction its as [|it its IH]; intros self w w0 Hs;
    cbn [for_each].
  - reflexivity.
  - rewrite (@fit_block_fresh it s self w w0 Hs).
    destruct (fit_block RandomState shuffle _loglikelihood it (self, w0))
      as [[self1 w1]|ex] eqn:E; cbn [bind fst]; auto.
    apply fit_block_config in E. destruct E as (_ & _ & _ & _ & Hr & _).
    apply IH. congruence.
Qed.

Lemma fit_fresh (s : Z) (self : LDA) (X : input) (w w0 : world rng) :
  random_state self = SeedInt s ->
  _fit RandomState shuffle _loglikelihood self X w
  = (p <- _fit RandomState shuffle _loglikelihood self X w0 ;; Ok (fst p, w)).
Proof.
  intros Hs. unfold _fit.
  destruct (_initialize self X) as [self0|ex] eqn:E; simpl; auto.
  destruct (py_range 0 (n_iter self0) (refresh self0)) as [its|ex]; simpl; auto.
  destruct (initialize_result _ _ E) as (M & _ & _ & ->).
  pose proof (initialized_config self M) as (_ & _ & _ & _ & Hr & _).
  rewrite (@fit_loop_fresh its s (initialized self M) w w0) by congruence.
  destruct (for_each its (fit_block RandomState shuffle _loglikelihood)
              (initialized self M, w0)) as [[self1 w1]|ex]; simpl; auto.
  destruct (checkpoint _loglikelihood self1); reflexivity.
Qed.

Lemma init_int_seed (K : nat) (n : Z) (a e : Qc) (s r : Z) (w w0 : world rng) :
  __init__ RandomState rand K n a e (SeedInt s) r w
  = (fst (__init__ RandomState rand K n a e (SeedInt s) r w0), w).
Proof.
  unfold __init__.
  destruct (Qcle_bool a 0 || Qcle_bool e 0); simpl; auto.
  destruct (rand (RandomState s) pool_size); reflexivity.
Qed.

Lemma init_keeps_seed (K : nat) (n : Z) (a e : Qc) (rs : seed) (r : Z)
  (w : world rng) (self : LDA) :
  fst (__init__ RandomState rand K n a e rs r w) = Ok self ->
  random_state self = rs.
Proof.
  unfold __init__.
  destruct (Qcle_bool a 0 || Qcle_bool e 0); simpl; [discriminate|].
  destruct (with_rng _ _ w) as [[pool h] w']; simpl.
  intros H; inversion H; reflexivity.
Qed.

(** C9.  With an integer seed, training does not depend on the generators
    around it: two runs on the same matrix with the same hyperparameters,
    the same seed and the same number of sweeps end with the same model,
    hence the same topic assignments and the same two distributions. *)
Theorem integer_seed_deterministic (K : nat) (n : Z) (a e : Qc) (s r : Z)
  (X : input) (iterations : Z) (w1 w2 : world rng) :
  fit_run RandomState rand shuffle _loglikelihood K n a e (SeedInt s) r X w1
  = fit_run RandomState rand shuffle _loglikelihood K n a e (SeedInt s) r X w2
  /\ sweep_run RandomState rand shuffle K n a e (SeedInt s) r X iterations w1
     = sweep_run RandomState rand shuffle K n a e (SeedInt s) r X iterations w2
  /\ (forall m1 m2,
        sweep_run RandomState rand shuffle K n a e (SeedInt s) r X
          iterations w1 = Ok m1 ->
        sweep_run RandomState rand shuffle K n a e (SeedInt s) r X
          iterations w2 = Ok m2 ->
        ZS m1 = ZS m2 /\ components_ m1 = components_ m2
        /\ doc_topic_ m1 = doc_topic_ m2).
Proof.
  assert (F : fit_run RandomState rand shuffle _loglikelihood K n a e
                (SeedInt s) r X w1
              = fit_run RandomState rand shuffle _loglikelihood K n a e
                  (SeedInt s) r X w2).
  { unfold fit_run. rewrite (init_int_seed K n a e s r w1 w2).
    destruct (__init__ RandomState rand K n a e (SeedInt s) r w2)
      as [[self|ex] w'] eqn:E; simpl; auto.
    assert (Hs : random_state self = SeedInt s)
      by (apply (@init_keeps_seed K n a e (SeedInt s) r w2); rewrite E;
          reflexivity).
    unfold fit. rewrite (@fit_fresh s self X w1 w' Hs).
    destruct (_fit RandomState shuffle _loglikelihood self X w')
      as [[self' w'']|ex]; reflexivity. }
  assert (G : sweep_run RandomState rand shuffle K n a e (SeedInt s) r X
                iterations w1
              = sweep_run RandomState rand shuffle K n a e (SeedInt s) r X
                  iterations w2).
  { unfold sweep_run. rewrite (init_int_seed K n a e s r w1 w2).
    destruct (__init__ RandomState rand K n a e (SeedInt s) r w2)
      as [[self|ex] w'] eqn:E; simpl; auto.
    assert (Hs : random_state self = SeedInt s)
      by (apply (@init_keeps_seed K n a e (SeedInt s) r w2); rewrite E;
          reflexivity).
    unfold initialize.
    destruct (_initialize self X) as [self1|ex] eqn:E1; simpl; auto.
    destruct (initialize_result _ _ E1) as (M & _ & _ & ->).
    pose proof (initialized_config self M) as (_ & _ & _ & _ & Hr & _).
    unfold sample_topics. rewrite Hr, Hs. simpl.
    rewrite (sample_loop_fresh _ _ _ _ w1 w').
    destruct (sample_loop shuffle _ _ _ _ w') as [[self2 w'']|ex]; reflexivity. }
  split; [exact F|]. split; [exact G|].
  intros m1 m2 H1 H2. rewrite G in H1. rewrite H1 in H2.
  inversion H2; subst. auto.
Qed.

(** C5, as the code has it.  [sample_topics] shuffles a copy of the pool:
    the pool stored in the model is the same before and after the call, and
    every sweep draws from a permutation of that stored pool. *)
Theorem sample_topics_shuffles_a_copy (self : LDA) (ws ds : list nat)
  (c : chain) (iterations : Z) (w : world rng) :
  (forall g a, Permutation a (fst (shuffle g a))) ->
  has_chain self ws ds c ->
  let h := check_random_state RandomState (random_state self) in
  let k := Z.to_nat iterations in
  let pools := loop_pools shuffle k h (_rands self) w in
  exists self',
    sample_topics RandomState shuffle self iterations w
    = Ok (self', loop_world shuffle k h (_rands self) w)
    /\ _rands self' = _rands self
    /\ length pools = k
    /\ Forall (Permutation (_rands self)) pools
    /\ has_chain self' ws ds
         (sweeps ws ds (alpha_vector self (c_nzw c))
            (eta_vector self (c_nzw c)) pools c).
Proof.
  intros Hsh Hc h k pools.
  eexists. split.
  { unfold sample_topics. apply (sample_loop_ok shuffle _ _ _ _ Hc). }
  split; [reflexivity|].
  split; [apply loop_pools_length|].
  split; [apply loop_pools_permutation; auto|].
  eapply set_tables_has_chain; eauto.
Qed.

End Model.

(** ** One sweep, token by token *)

Lemma last_cons (A : Type) (a d : A) (l : list A) :
  last (a :: l) d = last l a.
Proof.
  revert a d; induction l as [|b l IH]; intros a d; [reflexivity|].
  change (last (a :: b :: l) d) with (last (b :: l) d).
  rewrite IH. symmetry. apply IH.
Qed.

Lemma last_cumsum (acc : Qc) (m : list Qc) :
  last (cumsum acc m) acc = acc + Qcsum m.
Proof.
  revert acc; induction m as [|x m IH]; intros acc; simpl cumsum.
  - simpl. ring.
  - rewrite last_cons, IH. simpl. ring.
Qed.

Lemma nth_cumsum (acc : Qc) (m : list Qc) (k : nat) :
  (k < length m)%nat ->
  nth k (cumsum acc m) 0 = acc + Qcsum (firstn (S k) m).
Proof.
  revert acc k; induction m as [|x m IH]; intros acc k Hk; simpl in Hk; [lia|].
  destruct k as [|k].
  - simpl. ring.
  - change (nth (S k) (cumsum acc (x :: m)) 0)
      with (nth k (cumsum (acc + x) m) 0).
    rewrite IH by lia. simpl. ring.
Qed.

Lemma Qcle_bool_false (x y : Qc) : Qcle_bool x y = false -> y < x.
Proof.
  intros H. apply Qcnot_le_lt. intros L.
  apply Qcle_bool_iff in L. congruence.
Qed.

Lemma first_reaching_spec (cum : list Qc) (r : Qc) (k : nat) :
  let z := _lda.first_reaching cum r k in
  (forall j, (j < z - k)%nat -> nth j cum 0 < r)
  /\ ((z - k < length cum)%nat -> r <= nth (z - k) cum 0).
Proof.
  revert k; induction cum as [|t cum IH]; intros k; simpl.
  - split; intros; lia.
  - destruct (Qcle_bool r t) eqn:E.
    + rewrite Nat.sub_diag. split; [intros; lia|].
      intros _. apply Qcle_bool_iff; exact E.
    + destruct (IH (S k)) as [H1 H2].
      pose proof (first_reaching_bounds cum r (S k)) as B.
      replace (_lda.first_reaching cum r (S k) - k)%nat
        with (S (_lda.first_reaching cum r (S k) - S k)) by lia.
      split.
      * intros [|j] Hj; [apply Qcle_bool_false; exact E|].
        apply H1; lia.
      * intros Hlt. apply H2. lia.
Qed.

(** The selected topic is the first whose running total reaches [r]; when
    none does, it is the last topic. *)
Lemma select_spec (m : list Qc) (r : Qc) :
  m <> [] ->
  let z := _lda.select (cumsum 0 m) r in
  (z < length m)%nat
  /\ (forall k, (k < z)%nat -> Qcsum (firstn (S k) m) < r)
  /\ (r <= Qcsum (firstn (S z) m)
      \/ z = (length m - 1)%nat
         /\ forall k, (k < length m)%nat -> Qcsum (firstn (S k) m) < r).
Proof.
  intros Hm z.
  assert (L : length (cumsum 0 m) = length m) by apply cumsum_length.
  assert (Hz : (z < length m)%nat).
  { rewrite <- L. apply select_lt. intros E; rewrite E in L.
    destruct m; [contradiction | discriminate]. }
  pose proof (first_reaching_spec (cumsum 0 m) r 0) as [H1 H2].
  pose proof (first_reaching_bounds (cumsum 0 m) r 0) as B.
  simpl in H1, H2. rewrite Nat.sub_0_r in H1, H2.
  assert (C : forall k, (k < length m)%nat ->
            nth k (cumsum 0 m) 0 = Qcsum (firstn (S k) m)).
  { intros k Hk. rewrite nth_cumsum by exact Hk. ring. }
  unfold z, _lda.select in *. rewrite L in *.
  split; [exact Hz|].
  destruct (Nat.le_gt_cases (_lda.first_reaching (cumsum 0 m) r 0)
              (length m - 1)) as [Hle|Hgt].
  - rewrite Nat.min_l in * by exact Hle.
    split.
    + intros k Hk. rewrite <- C by lia. apply H1; exact Hk.
    + left. rewrite <- C by lia. apply H2. lia.
  - rewrite Nat.min_r in * by lia.
    split.
    + intros k Hk. rewrite <- C by lia. apply H1; lia.
    + right. split; [reflexivity|].
      intros k Hk. rewrite <- C by lia. apply H1; lia.
Qed.

Lemma nth_repeat_lt (A : Type) (x d : A) (n i : nat) :
  (i < n)%nat -> nth i (repeat x n) d = x.
Proof.
  intros H. rewrite (nth_indep _ d x) by (rewrite repeat_length; exact H).
  apply nth_repeat.
Qed.

(** *** The sampler against the steps of the design document *)

Lemma dec_plain (x : Z) :
  (0 <= x)%Z -> (x < Intc.half)%Z -> Intc.dec x = (x + -1)%Z.
Proof.
  intros H0 H1. unfold Intc.dec. rewrite wrap_id; [lia|].
  unfold Intc.in_range, Intc.half in *.
  change (2 ^ 31)%Z with 2147483648%Z in *. lia.
Qed.

Lemma replace_as_map (A : Type) (a : list A) (i : nat) (x d : A) :
  Np.replace a i x
  = map (fun k => if (k =? i)%nat then x else nth k a d) (seq 0 (length a)).
Proof.
  apply nth_ext with (d := d) (d' := d).
  - rewrite replace_length, length_map, length_seq. reflexivity.
  - intros k Hk. rewrite replace_length in Hk.
    rewrite nth_map_seq by exact Hk.
    destruct (Nat.eqb_spec k i) as [->|Hne].
    + apply nth_replace_same. exact Hk.
    + apply nth_replace_other. intros E. apply Hne. symmetry. exact E.
Qed.

Lemma bump_add (f : Z -> Z) (a : list Z) (i : nat) (delta : Z) :
  ((i < length a)%nat -> f (nth i a 0%Z) = (nth i a 0 + delta)%Z) ->
  _lda.bump f a i = GibbsSpec.add_at i delta a.
Proof.
  intros H. unfold _lda.bump, GibbsSpec.add_at, _lda.cell.
  rewrite (replace_as_map a i _ 0%Z).
  apply map_ext_in. intros k Hk. apply in_seq in Hk.
  destruct (Nat.eqb_spec k i) as [->|Hne]; [| reflexivity].
  apply H. lia.
Qed.

Lemma bump2_add (f : Z -> Z) (m : list (list Z)) (r c : nat) (delta : Z) :
  ((r < length m)%nat -> (c < length (nth r m []))%nat ->
   f (nth c (nth r m []) 0%Z) = (nth c (nth r m []) 0 + delta)%Z) ->
  _lda.bump2 f m r c = GibbsSpec.add_at2 r c delta m.
Proof.
  intros H. unfold _lda.bump2, GibbsSpec.add_at2.
  rewrite (replace_as_map m r _ []).
  apply map_ext_in. intros k Hk. apply in_seq in Hk.
  destruct (Nat.eqb_spec k r) as [->|Hne]; [| reflexivity].
  apply bump_add. intros Hc. apply H; [lia | exact Hc].
Qed.

Lemma find_ext_in (A : Type) (p q : A -> bool) (l : list A) :
  (forall x, In x l -> p x = q x) -> find p l = find q l.
Proof.
  induction l as [|x l IH]; intros H; [reflexivity|]. cbn [find].
  rewrite (H x (or_introl eq_refl)).
  rewrite IH by (intros y Hy; apply H; right; exact Hy). reflexivity.
Qed.

Lemma find_map_S (p : nat -> bool) (l : list nat) :
  find p (map S l) = option_map S (find (fun k => p (S k)) l).
Proof.
  induction l as [|x l IH]; [reflexivity|]. cbn [map find].
  destruct (p (S x)); [reflexivity | exact IH].
Qed.

Lemma first_reaching_find (acc : Qc) (m : list Qc) (r : Qc) (k : nat) :
  _lda.first_reaching (cumsum acc m) r k
  = (k + match find (fun j => Qcle_bool r (acc + Qcsum (firstn (S j) m)))
                 (seq 0 (length m)) with
         | Some j => j
         | None => length m
         end)%nat.
Proof.
  revert acc k; induction m as [|x m IH]; intros acc k.
  - cbn. lia.
  - cbn [cumsum _lda.first_reaching length seq find].
    replace (acc + Qcsum (firstn 1 (x :: m))) with (acc + x)
      by (cbn [firstn Qcsum fold_right]; ring).
    destruct (Qcle_bool r (acc + x)); [lia|].
    rewrite IH, <- seq_shift, find_map_S.
    rewrite (@find_ext_in nat
               (fun j => Qcle_bool r (acc + Qcsum (firstn (S (S j)) (x :: m))))
               (fun j => Qcle_bool r (acc + x + Qcsum (firstn (S j) m)))).
    + destruct (find _ (seq 0 (length m))); cbn [option_map]; lia.
    + intros j _. f_equal. cbn [firstn Qcsum fold_right]. ring.
Qed.

(** The scan over running totals, clamped, is the smallest index whose
    cumulative sum reaches [r], or the last index. *)
Lemma select_choose (m : list Qc) (r : Qc) :
  _lda.select (cumsum 0 m) r = GibbsSpec.choose m r.
Proof.
  unfold _lda.select, GibbsSpec.choose, GibbsSpec.cumulative.
  rewrite first_reaching_find, cumsum_length.
  rewrite (@find_ext_in nat
             (fun j => Qcle_bool r (0 + Qcsum (firstn (S j) m)))
             (fun j => Qcle_bool r (Qcsum (firstn (S j) m))))
    by (intros j _; rewrite Qcplus_0_l; reflexivity).
  destruct (find _ (seq 0 (length m))) as [j|] eqn:E.
  - apply find_some in E. destruct E as [Hin _]. apply in_seq in Hin. lia.
  - lia.
Qed.

Lemma choose_spec (m : list Qc) (r : Qc) :
  m <> [] ->
  let z := GibbsSpec.choose m r in
  (z < length m)%nat
  /\ (forall k, (k < z)%nat -> GibbsSpec.cumulative m k < r)
  /\ (r <= GibbsSpec.cumulative m z
      \/ z = (length m - 1)%nat
         /\ forall k, (k < length m)%nat -> GibbsSpec.cumulative m k < r).
Proof.
  intros Hm. rewrite <- select_choose. apply select_spec. exact Hm.
Qed.

Lemma count_upto_inactive (n i : nat) (p : nat -> bool) :
  (i < n)%nat -> p i = false -> (count_upto n p < n)%nat.
Proof.
  intros Hi Hp.
  assert (E : forall j, j <> i -> p j || (j =? i)%nat = p j).
  { intros j Hj. apply Nat.eqb_neq in Hj. rewrite Hj. apply orb_false_r. }
  pose proof (@count_upto_toggle n i p (fun j => p j || (j =? i)%nat) Hi E)
    as T.
  cbv beta in T. rewrite Hp, Nat.eqb_refl in T. cbn [orb] in T.
  pose proof (count_upto_le n (fun j => p j || (j =? i)%nat)) as L.
  lia.
Qed.

Lemma consistent_counted (K D W : nat) (ws ds : list nat) (c : chain) :
  consistent K D W ws ds c -> counted K D W ws ds (fun _ => true) c.
Proof.
  intros [H1 H2 H3 H4 H5 H6 H7 H8 H9 H10 H11 H12 H13].
  constructor.
  - constructor; assumption.
  - intros i Hi _. rewrite Forall_forall in H5. apply H5, nth_In.
    rewrite H1. exact Hi.
  - intros z w Hz Hw. rewrite H11 by assumption. reflexivity.
  - intros d z Hd Hz. rewrite H12 by assumption. reflexivity.
  - intros z Hz. rewrite H13 by assumption. reflexivity.
Qed.

Lemma resample_step (a e : Qc) (K D W : nat) (ws ds : list nat)
  (rands : list Qc) (c : chain) (i : nat) :
  counted K D W ws ds (fun _ => true) c ->
  (Z.of_nat (length ws) < Intc.half)%Z ->
  (length ws <= length rands)%nat ->
  (i < length ws)%nat ->
  _lda.resample ws ds (repeat a K) (repeat e W) rands c i
  = GibbsSpec.step a e K W ws ds rands c i.
Proof.
  intros Hc HN Hp Hi.
  pose proof (ct_shape Hc) as [S1 S2 S3 S4 S5 S6 S7 S8 S9].
  unfold _lda.resample, GibbsSpec.step. cbv zeta.
  set (w := nth i ws O). set (d := nth i ds O).
  set (z_old := nth i (c_ZS c) O).
  assert (Hw : (w < W)%nat)
    by (rewrite Forall_forall in S3; apply S3, nth_In, Hi).
  assert (Hd : (d < D)%nat)
    by (rewrite Forall_forall in S4; apply S4, nth_In; lia).
  assert (Hz : (z_old < K)%nat) by (apply (ct_zs Hc); auto).
  pose proof (@exclude_counted K D W ws ds (fun _ => true) c i Hc Hi
                eq_refl HN) as Hc1.
  fold w d z_old in Hc1.
  set (c1 := _lda.exclude w d z_old c) in *.
  pose proof (ct_shape Hc1) as [T1 T2 T3 T4 T5 T6 T7 T8 T9].
  assert (B : forall p, (0 <= Z.of_nat (count_upto (length ws) p)
                         < Intc.half)%Z).
  { intros p. pose proof (count_upto_le (length ws) p). lia. }
  assert (E1 : c_nzw c1 = GibbsSpec.add_at2 z_old w (-1) (c_nzw c)).
  { unfold c1, _lda.exclude; cbn [c_nzw]. apply bump2_add. intros _ _.
    fold (_lda.cell2 (c_nzw c) z_old w). rewrite (ct_nzw Hc) by assumption.
    apply dec_plain; apply B. }
  assert (E2 : c_ndz c1 = GibbsSpec.add_at2 d z_old (-1) (c_ndz c)).
  { unfold c1, _lda.exclude; cbn [c_ndz]. apply bump2_add. intros _ _.
    fold (_lda.cell2 (c_ndz c) d z_old). rewrite (ct_ndz Hc) by assumption.
    apply dec_plain; apply B. }
  assert (E3 : c_nz c1 = GibbsSpec.add_at z_old (-1) (c_nz c)).
  { unfold c1, _lda.exclude; cbn [c_nz]. apply bump_add. intros _.
    fold (_lda.cell (c_nz c) z_old). rewrite (ct_nz Hc) by assumption.
    apply dec_plain; apply B. }
  rewrite <- E1, <- E2, <- E3.
  set (mass := map (GibbsSpec.conditional_mass a e W (c_nzw c1) (c_ndz c1)
                      (c_nz c1) w d) (seq 0 K)).
  assert (EM : _lda.masses (repeat a K) (repeat e W) c1 w d = mass).
  { unfold _lda.masses, mass. rewrite T9. apply map_ext_in.
    intros z Hzz. apply in_seq in Hzz.
    unfold _lda.mass, GibbsSpec.conditional_mass, _lda.cell2, _lda.cell.
    rewrite !nth_repeat_lt, repeat_length by lia. reflexivity. }
  assert (Ez : _lda.sample (repeat a K) (repeat e W) (_lda.draw rands i) w d c1
               = GibbsSpec.choose mass (nth i rands 0 * Qcsum mass)).
  { unfold _lda.sample. cbv zeta.
    rewrite EM, last_cumsum, Qcplus_0_l, select_choose.
    unfold _lda.draw. rewrite Nat.mod_small by lia. reflexivity. }
  rewrite Ez.
  set (z_new := GibbsSpec.choose mass (nth i rands 0 * Qcsum mass)) in *.
  assert (Hzn : (z_new < K)%nat).
  { rewrite <- Ez, <- T9. apply sample_lt. lia. }
  assert (Hoff : forall p : nat -> bool,
            (Z.of_nat (count_upto (length ws)
                         (fun j => (true && negb (j =? i)%nat) && p j)) + 1
             < Intc.half)%Z).
  { intros p.
    pose proof (@count_upto_inactive (length ws) i
                  (fun j => (true && negb (j =? i)%nat) && p j) Hi) as L.
    cbv beta in L. rewrite Nat.eqb_refl in L. specialize (L eq_refl). lia. }
  unfold _lda.reinstate. f_equal.
  - unfold GibbsSpec.store. apply (replace_as_map (c_ZS c) i z_new O).
  - apply bump2_add. intros _ _.
    fold (_lda.cell2 (c_nzw c1) z_new w). rewrite (ct_nzw Hc1) by assumption.
    apply inc_exact; [lia | apply Hoff].
  - apply bump2_add. intros _ _.
    fold (_lda.cell2 (c_ndz c1) d z_new). rewrite (ct_ndz Hc1) by assumption.
    apply inc_exact; [lia | apply Hoff].
  - apply bump_add. intros _.
    fold (_lda.cell (c_nz c1) z_new). rewrite (ct_nz Hc1) by assumption.
    apply inc_exact; [lia | apply Hoff].
Qed.

Lemma fold_left_ext_invariant (S A : Type) (P : S -> Prop) (f g : S -> A -> S)
  (xs : list A) (s : S) :
  (forall s x, In x xs -> P s -> f s x = g s x /\ P (f s x)) ->
  P s -> fold_left f xs s = fold_left g xs s.
Proof.
  revert s; induction xs as [|x xs IH]; intros s H Hs; simpl; [reflexivity|].
  destruct (H s x (or_introl eq_refl) Hs) as [E Hs'].
  rewrite <- E. apply IH; auto.
  intros s' x' Hx'. apply H. right; exact Hx'.
Qed.

(** C1.  One sweep of [LDA._sample_topics] over arrays that count their
    tokens is the fold, over the tokens in order, of the step of the design
    document: for token [i] with word [w], document [d] and topic [z_old],
    subtract 1 from [topicWord[z_old][w]], [docTopic[d][z_old]] and
    [topicTotal[z_old]]; compute for every topic the mass
    [(topicWord[z][w] + eta) * (docTopic[d][z] + alpha)
     / (topicTotal[z] + eta * vocab_size)] from the tables so diminished;
    take [r] as the token's pool variate times the total mass; select the
    smallest index where the cumulative sum reaches [r], the last topic
    when none does; add 1 to the three counts of the selected topic and
    store it in [topic[i]].  (The tokens do not outnumber the pool, and
    are fewer than [2^31], the range of the cells.) *)
Theorem sweep_resamples_each_token (self : LDA) (ws ds : list nat)
  (c : chain) (rands : list Qc) (K D W : nat) :
  has_chain self ws ds c ->
  consistent K D W ws ds c ->
  (Z.of_nat (length ws) < Intc.half)%Z ->
  (length ws <= length rands)%nat ->
  _sample_topics self rands
  = Ok (set_tables self
          (fold_left (GibbsSpec.step (alpha self) (eta self) K W ws ds rands)
             (seq 0 (length ws)) c))
  /\ (forall (mass : list Qc) (r : Qc),
        mass <> [] ->
        let z_new := GibbsSpec.choose mass r in
        (z_new < length mass)%nat
        /\ (forall k, (k < z_new)%nat -> GibbsSpec.cumulative mass k < r)
        /\ (r <= GibbsSpec.cumulative mass z_new
            \/ z_new = (length mass - 1)%nat
               /\ forall k, (k < length mass)%nat ->
                    GibbsSpec.cumulative mass k < r)).
Proof.
  intros Hc Hcs HN Hp. split; [| apply choose_spec].
  apply consistent_counted in Hcs.
  rewrite (sample_topics_1_ok rands Hc). do 2 f_equal.
  unfold _lda._sample_topics.
  destruct (length ws) as [|n] eqn:EN; [reflexivity|].
  pose proof (ct_shape Hcs) as [S1 S2 S3 S4 S5 S6 S7 S8 S9].
  assert (HK : (0 < K)%nat).
  { pose proof (@ct_zs K D W ws ds (fun _ => true) c Hcs O) as Z0.
    rewrite EN in Z0. specialize (Z0 (Nat.lt_0_succ n) eq_refl). lia. }
  assert (Ea : alpha_vector self (c_nzw c) = repeat (alpha self) K)
    by (unfold alpha_vector; simpl; rewrite S5; reflexivity).
  assert (Ee : eta_vector self (c_nzw c) = repeat (eta self) W).
  { unfold eta_vector. simpl. destruct (c_nzw c) as [|row m] eqn:Em.
    - simpl in S5. lia.
    - inversion S6; subst. reflexivity. }
  rewrite Ea, Ee, <- EN.
  apply fold_left_ext_invariant
    with (P := counted K D W ws ds (fun _ => true)); [| exact Hcs].
  intros s i Hi Hs. apply in_seq in Hi. split.
  - apply resample_step with (D := D); auto; lia.
  - apply resample_counted; auto; lia.
Qed.

(** ** Projections *)

Lemma Qcsum_scale (row : list Qc) (s : Qc) :
  Qcsum (map (fun x => x / s) row) = Qcsum row / s.
Proof.
  induction row as [|x row IH]; simpl.
  - unfold Qcdiv. ring.
  - rewrite IH. unfold Qcdiv. ring.
Qed.

Lemma normalize_sum (row : list Qc) :
  Qcsum row <> 0 -> Qcsum (normalize row) = 1.
Proof.
  intros H. unfold normalize. rewrite Qcsum_scale.
  unfold Qcdiv. apply Qcmult_inv_r. exact H.
Qed.


Lemma Qcplus_pos_nonneg (x y : Qc) : 0 < x -> 0 <= y -> 0 < x + y.
Proof.
  intros Hx Hy. apply Qclt_le_trans with (y := x); [exact Hx|].
  rewrite <- (Qcplus_0_r x) at 1.
  apply Qcplus_le_compat; [apply Qcle_refl | exact Hy].
Qed.

Lemma Qcplus_nonneg_pos (x y : Qc) : 0 <= x -> 0 < y -> 0 < x + y.
Proof.
  intros Hx Hy. rewrite Qcplus_comm. apply Qcplus_pos_nonneg; assumption.
Qed.

Lemma Qcsum_nonneg (row : list Qc) :
  (forall x, In x row -> 0 <= x) -> 0 <= Qcsum row.
Proof.
  induction row as [|x row IH]; intros H; simpl.
  - apply Qcle_refl.
  - rewrite <- (Qcplus_0_r 0).
    apply Qcplus_le_compat; [apply H; left; reflexivity|].
    apply IH. intros y Hy. apply H. right; exact Hy.
Qed.

Lemma Qcsum_pos (row : list Qc) :
  row <> [] -> (forall x, In x row -> 0 < x) -> 0 < Qcsum row.
Proof.
  destruct row as [|x row]; intros Hne H; [contradiction|]. simpl.
  apply Qcplus_pos_nonneg; [apply H; left; reflexivity|].
  apply Qcsum_nonneg. intros y Hy.
  apply Qclt_le_weak, H. right; exact Hy.
Qed.





(** ** Iterated pseudo-counts *)

Lemma map_result_ok (A B : Type) (f : A -> result B) (g : A -> B)
  (xs : list A) :
  (forall x, In x xs -> f x = Ok (g x)) ->
  Pz.map_result f xs = Ok (map g xs).
Proof.
  induction xs as [|x xs IH]; intros H; simpl; [reflexivity|].
  rewrite (H x (or_introl eq_refl)). simpl.
  rewrite IH by (intros y Hy; apply H; right; exact Hy). reflexivity.
Qed.

Lemma combine_map_same (A B C : Type) (f : A -> B) (g : A -> C) (l : list A) :
  combine (map f l) (map g l) = map (fun x => (f x, g x)) l.
Proof.
  induction l as [|x l IH]; simpl; [reflexivity|]. rewrite IH. reflexivity.
Qed.

Lemma vsub_maps (f g : nat -> Qc) (l : list nat) :
  Pz.vsub (map f l) (map g l) = map (fun z => f z - g z) l.
Proof. unfold Pz.vsub. rewrite combine_map_same, map_map. reflexivity. Qed.

Lemma vadd_maps (f g : nat -> Qc) (l : list nat) :
  Pz.vadd (map f l) (map g l) = map (fun z => f z + g z) l.
Proof. unfold Pz.vadd. rewrite combine_map_same, map_map. reflexivity. Qed.

Lemma vmul_maps (f g : nat -> Qc) (l : list nat) :
  Pz.vmul (map f l) (map g l) = map (fun z => f z * g z) l.
Proof. unfold Pz.vmul. rewrite combine_map_same, map_map. reflexivity. Qed.

Lemma vadds_map (f : nat -> Qc) (s : Qc) (l : list nat) :
  Pz.vadds (map f l) s = map (fun z => f z + s) l.
Proof. unfold Pz.vadds. rewrite map_map. reflexivity. Qed.

Lemma row_as_map (K : nat) (row : list Qc) :
  length row = K -> row = map (fun z => nth z row 0) (seq 0 K).
Proof.
  intros <-. rewrite <- (map_seq_nth (fun x => x) row 0).
  symmetry; apply map_id.
Qed.

Lemma normalize_length (row : list Qc) : length (normalize row) = length row.
Proof. unfold normalize. apply length_map. Qed.

Lemma phi_column_ok (phi : list (list Qc)) (w : nat) :
  Forall (fun row => (w < length row)%nat) phi ->
  Pz.phi_column phi w
  = Ok (map (fun z => PzSpec.phi_at phi z w) (PzSpec.topics phi)).
Proof.
  intros H. unfold Pz.phi_column, PzSpec.topics, PzSpec.phi_at.
  rewrite (map_result_ok (fun row => Np.get row w) (fun row => nth w row 0)).
  - f_equal. apply (map_seq_nth (fun row => nth w row 0) phi []).
  - intros row Hrow. rewrite Forall_forall in H.
    apply get_nth. apply H, Hrow.
Qed.

Lemma pz_init_ok (phi : list (list Qc)) (alpha : Qc) (ws : list nat) :
  words_in_vocabulary phi ws ->
  Pz.init phi alpha ws = Ok (PzSpec.init phi alpha ws).
Proof.
  intros H. unfold Pz.init, PzSpec.init.
  rewrite (map_result_ok (Pz.phi_column phi)
             (fun w => map (fun z => PzSpec.phi_at phi z w)
                         (PzSpec.topics phi))).
  - simpl. rewrite !map_map. f_equal. apply map_ext. intros w.
    rewrite map_map. reflexivity.
  - intros w Hw. unfold words_in_vocabulary in H.
    rewrite Forall_forall in H. apply phi_column_ok, H, Hw.
Qed.

Lemma pz_fill_ok (phi : list (list Qc)) (alpha : Qc) (P : list (list Qc))
  (toks : list (nat * list Qc)) :
  Forall (fun wp => Forall (fun row => (fst wp < length row)%nat) phi
                    /\ length (snd wp) = length phi) toks ->
  Pz.fill phi alpha toks (Pz.colsum (length phi) P)
  = Ok (map (fun wp =>
               map (fun z => PzSpec.phi_at phi z (fst wp)
                             * (PzSpec.col_sum P z - nth z (snd wp) 0 + alpha))
                 (PzSpec.topics phi))
          toks).
Proof.
  induction toks as [|[w p] toks IH]; intros H; simpl; [reflexivity|].
  inversion H as [|? ? [Hw Hp] Htoks]; subst. simpl in Hw, Hp.
  rewrite (phi_column_ok Hw). simpl.
  assert (E : Pz.vadd (Pz.vsub (Pz.colsum (length phi) P) p) p
              = Pz.colsum (length phi) P).
  { rewrite (@row_as_map _ p Hp) at 1 2. unfold Pz.colsum.
    rewrite vsub_maps, vadd_maps. apply map_ext. intros z. ring. }
  rewrite E, (IH Htoks). simpl. do 2 f_equal.
  rewrite (@row_as_map _ p Hp) at 1. unfold Pz.colsum, PzSpec.topics.
  rewrite vsub_maps, vadds_map, vmul_maps. reflexivity.
Qed.

Lemma l1_distance_delta (P Q : list (list Qc)) :
  Pz.l1_distance P Q = PzSpec.delta P Q.
Proof.
  unfold Pz.l1_distance, PzSpec.delta. f_equal. apply map_ext. intros rs.
  unfold Pz.vsub. rewrite map_map. reflexivity.
Qed.

Lemma pz_round_ok (phi : list (list Qc)) (alpha : Qc) (ws : list nat)
  (P : list (list Qc)) :
  words_in_vocabulary phi ws ->
  Forall (fun row => length row = length phi) P ->
  Pz.round phi alpha ws P
  = Ok (PzSpec.step phi alpha ws P,
        PzSpec.delta (PzSpec.step phi alpha ws P) P).
Proof.
  intros Hw HP. unfold Pz.round.
  rewrite (@pz_fill_ok phi alpha P (combine ws P)).
  - simpl. rewrite l1_distance_delta.
    replace (map normalize _) with (PzSpec.step phi alpha ws P);
      [reflexivity|].
    unfold PzSpec.step, PzSpec.new_row. rewrite map_map. reflexivity.
  - apply Forall_forall. intros [w p] Hin. simpl.
    unfold words_in_vocabulary in Hw. rewrite Forall_forall in Hw, HP.
    split; [apply Hw | apply HP].
    + eapply in_combine_l; eauto.
    + eapply in_combine_r; eauto.
Qed.

Lemma step_rows (phi : list (list Qc)) (alpha : Qc) (ws : list nat)
  (P : list (list Qc)) :
  Forall (fun row => length row = length phi) (PzSpec.step phi alpha ws P).
Proof.
  unfold PzSpec.step. apply Forall_forall. intros row Hin.
  apply in_map_iff in Hin. destruct Hin as (wp & <- & _).
  unfold PzSpec.new_row, PzSpec.topics.
  rewrite normalize_length, length_map, length_seq. reflexivity.
Qed.

Lemma init_rows (phi : list (list Qc)) (alpha : Qc) (ws : list nat) :
  Forall (fun row => length row = length phi) (PzSpec.init phi alpha ws).
Proof.
  unfold PzSpec.init. apply Forall_forall. intros row Hin.
  apply in_map_iff in Hin. destruct Hin as (w & <- & _).
  unfold PzSpec.topics.
  rewrite normalize_length, length_map, length_seq. reflexivity.
Qed.

Lemma pz_iterate_ok (max_iter : nat) (tol : Qc) (phi : list (list Qc))
  (alpha : Qc) (ws : list nat) (P : list (list Qc)) :
  words_in_vocabulary phi ws ->
  Forall (fun row => length row = length phi) P ->
  Pz.iterate max_iter tol phi alpha ws P
  = Ok (PzSpec.rounds max_iter tol phi alpha ws P).
Proof.
  intros Hw. revert P; induction max_iter as [|n IH]; intros P HP; simpl;
    [reflexivity|].
  rewrite (pz_round_ok alpha Hw HP). simpl.
  destruct (Qclt_bool _ tol); [reflexivity|].
  apply IH, step_rows.
Qed.

Lemma transform_doc_ok (max_iter : nat) (tol : Qc) (phi : list (list Qc))
  (alpha : Qc) (ws : list nat) :
  words_in_vocabulary phi ws ->
  Pz.transform_doc max_iter tol phi alpha ws
  = Ok (PzSpec.estimate max_iter tol phi alpha ws).
Proof.
  intros Hw. unfold Pz.transform_doc, PzSpec.estimate.
  rewrite (pz_init_ok alpha Hw). simpl.
  rewrite (pz_iterate_ok max_iter tol alpha Hw (init_rows phi alpha ws)).
  reflexivity.
Qed.

Lemma ws_of_doc_in (ws ds : list nat) (d w : nat) :
  In w (Pz.ws_of_doc ws ds d) -> In w ws.
Proof.
  unfold Pz.ws_of_doc. intros H.
  apply in_map_iff in H. destruct H as ([w' d'] & <- & H).
  apply filter_In in H. destruct H as [H _].
  eapply in_combine_l; eauto.
Qed.

Lemma Qcmult_pos (x y : Qc) : 0 < x -> 0 < y -> 0 < x * y.
Proof.
  intros Hx Hy. rewrite <- (Qcmult_0_l y).
  apply Qcmult_lt_compat_r; assumption.
Qed.

Lemma Qcinv_pos (s : Qc) : 0 < s -> 0 < / s.
Proof.
  unfold Qclt, Qcinv. cbn [this Q2Qc]. rewrite !Qred_correct.
  apply Qinv_lt_0_compat.
Qed.

Lemma Qcdiv_pos (x s : Qc) : 0 < x -> 0 < s -> 0 < x / s.
Proof.
  intros Hx Hs. unfold Qcdiv. apply Qcmult_pos; [exact Hx|].
  apply Qcinv_pos; exact Hs.
Qed.

Lemma Qcle_plus_r (x y : Qc) : 0 <= y -> x <= x + y.
Proof.
  intros Hy. rewrite <- (Qcplus_0_r x) at 1.
  apply Qcplus_le_compat; [apply Qcle_refl | exact Hy].
Qed.

Lemma normalize_stochastic (row : list Qc) :
  row <> [] -> Forall (fun x => 0 < x) row ->
  length (normalize row) = length row
  /\ Forall (fun x => 0 < x) (normalize row)
  /\ Qcsum (normalize row) = 1.
Proof.
  intros Hne Hpos.
  assert (Hs : 0 < Qcsum row)
    by (apply Qcsum_pos; [exact Hne | apply Forall_forall; exact Hpos]).
  split; [apply normalize_length|]. split.
  - unfold normalize. apply Forall_forall. intros y Hy.
    apply in_map_iff in Hy. destruct Hy as (x & <- & Hx).
    rewrite Forall_forall in Hpos. apply Qcdiv_pos; auto.
  - apply normalize_sum. apply not_eq_sym, Qclt_not_eq. exact Hs.
Qed.

Lemma phi_at_pos (phi : list (list Qc)) (z w : nat) :
  positive phi -> (z < length phi)%nat ->
  Forall (fun row => (w < length row)%nat) phi ->
  0 < PzSpec.phi_at phi z w.
Proof.
  intros Hp Hz Hw. unfold PzSpec.phi_at, positive in *.
  rewrite Forall_forall in Hp, Hw.
  pose proof (nth_In phi [] Hz) as Hin.
  specialize (Hp _ Hin). specialize (Hw _ Hin).
  rewrite Forall_forall in Hp. apply Hp, nth_In, Hw.
Qed.

Lemma topics_row_nonempty (A : Type) (phi : list (list Qc)) (f : nat -> A) :
  phi <> [] -> map f (PzSpec.topics phi) <> [].
Proof.
  unfold PzSpec.topics. destruct phi; [contradiction | discriminate].
Qed.

Lemma init_stochastic (phi : list (list Qc)) (alpha : Qc) (ws : list nat) :
  positive phi -> phi <> [] -> 0 < alpha -> words_in_vocabulary phi ws ->
  stochastic (length phi) (PzSpec.init phi alpha ws).
Proof.
  intros Hp Hne Ha Hw. unfold stochastic, PzSpec.init.
  apply Forall_forall. intros row Hrow.
  apply in_map_iff in Hrow. destruct Hrow as (w & <- & Hin).
  unfold words_in_vocabulary in Hw. rewrite Forall_forall in Hw.
  destruct (@normalize_stochastic
              (map (fun z => PzSpec.phi_at phi z w * alpha) (PzSpec.topics phi)))
    as (L & P & S).
  - apply topics_row_nonempty; exact Hne.
  - apply Forall_forall. intros x Hx.
    apply in_map_iff in Hx. destruct Hx as (z & <- & Hz).
    apply in_seq in Hz. apply Qcmult_pos; [| exact Ha].
    apply phi_at_pos; auto. lia.
  - rewrite L. unfold PzSpec.topics. rewrite length_map, length_seq. auto.
Qed.

Lemma nth_nonneg (row : list Qc) (z : nat) :
  Forall (fun x => 0 < x) row -> 0 <= nth z row 0.
Proof.
  intros H. destruct (Nat.lt_ge_cases z (length row)) as [L|L].
  - rewrite Forall_forall in H. apply Qclt_le_weak, H, nth_In, L.
  - rewrite nth_overflow by exact L. apply Qcle_refl.
Qed.

Lemma col_sum_nonneg (P : list (list Qc)) (z : nat) :
  Forall (Forall (fun x => 0 < x)) P -> 0 <= PzSpec.col_sum P z.
Proof.
  intros H. unfold PzSpec.col_sum. apply Qcsum_nonneg.
  intros x Hx. apply in_map_iff in Hx. destruct Hx as (row & <- & Hrow).
  rewrite Forall_forall in H. apply nth_nonneg, H, Hrow.
Qed.

Lemma col_sum_ge (P : list (list Qc)) (p : list Qc) (z : nat) :
  Forall (Forall (fun x => 0 < x)) P -> In p P ->
  nth z p 0 <= PzSpec.col_sum P z.
Proof.
  induction P as [|row P IH]; intros H Hin; [contradiction|].
  inversion H as [|? ? Hrow HP]; subst.
  change (PzSpec.col_sum (row :: P) z)
    with (nth z row 0 + PzSpec.col_sum P z).
  destruct Hin as [->|Hin].
  - apply Qcle_plus_r, col_sum_nonneg, HP.
  - apply Qcle_trans with (y := PzSpec.col_sum P z); [apply IH; auto|].
    rewrite Qcplus_comm. apply Qcle_plus_r, nth_nonneg, Hrow.
Qed.

Lemma stochastic_positive (K : nat) (P : list (list Qc)) :
  stochastic K P -> Forall (Forall (fun x => 0 < x)) P.
Proof.
  unfold stochastic. intros H. eapply Forall_impl; [| exact H].
  simpl. intros row (_ & Hp & _). exact Hp.
Qed.

Lemma step_stochastic (phi : list (list Qc)) (alpha : Qc) (ws : list nat)
  (P : list (list Qc)) :
  positive phi -> phi <> [] -> 0 < alpha -> words_in_vocabulary phi ws ->
  stochastic (length phi) P ->
  stochastic (length phi) (PzSpec.step phi alpha ws P).
Proof.
  intros Hp Hne Ha Hw HP. pose proof (stochastic_positive HP) as Hpos.
  unfold stochastic, PzSpec.step.
  apply Forall_forall. intros row Hrow.
  apply in_map_iff in Hrow. destruct Hrow as ([w p] & <- & Hin).
  simpl fst; simpl snd.
  unfold words_in_vocabulary in Hw. rewrite Forall_forall in Hw.
  assert (Hwin : In w ws) by (eapply in_combine_l; eauto).
  assert (Hpin : In p P) by (eapply in_combine_r; eauto).
  unfold PzSpec.new_row.
  destruct (@normalize_stochastic
              (map (fun z => PzSpec.phi_at phi z w
                             * (PzSpec.col_sum P z - nth z p 0 + alpha))
                 (PzSpec.topics phi)))
    as (L & Q & S).
  - apply topics_row_nonempty; exact Hne.
  - apply Forall_forall. intros x Hx.
    apply in_map_iff in Hx. destruct Hx as (z & <- & Hz).
    apply in_seq in Hz. apply Qcmult_pos.
    + apply phi_at_pos; auto. lia.
    + apply Qcplus_nonneg_pos; [| exact Ha].
      unfold Qcminus. apply (proj1 (Qcle_minus_iff _ _)).
      apply col_sum_ge; auto.
  - rewrite L. unfold PzSpec.topics. rewrite length_map, length_seq. auto.
Qed.

Lemma rounds_stochastic (max_iter : nat) (tol : Qc) (phi : list (list Qc))
  (alpha : Qc) (ws : list nat) (P : list (list Qc)) :
  positive phi -> phi <> [] -> 0 < alpha -> words_in_vocabulary phi ws ->
  stochastic (length phi) P ->
  stochastic (length phi) (PzSpec.rounds max_iter tol phi alpha ws P).
Proof.
  intros Hp Hne Ha Hw. revert P.
  induction max_iter as [|n IH]; intros P HP; simpl; [exact HP|].
  destruct (Qclt_bool _ tol); [| apply IH]; apply step_stochastic; auto.
Qed.

Lemma rounds_length (max_iter : nat) (tol : Qc) (phi : list (list Qc))
  (alpha : Qc) (ws : list nat) (P : list (list Qc)) :
  length P = length ws ->
  length (PzSpec.rounds max_iter tol phi alpha ws P) = length ws.
Proof.
  revert P. induction max_iter as [|n IH]; intros P HP; simpl; [exact HP|].
  assert (L : length (PzSpec.step phi alpha ws P) = length ws).
  { unfold PzSpec.step. rewrite length_map, length_combine, HP.
    apply Nat.min_id. }
  destruct (Qclt_bool _ tol); [exact L | apply IH; exact L].
Qed.

Lemma Qcsum_map_add (A : Type) (f g : A -> Qc) (l : list A) :
  Qcsum (map (fun x => f x + g x) l) = Qcsum (map f l) + Qcsum (map g l).
Proof.
  induction l as [|x l IH]; simpl; [ring|]. rewrite IH. ring.
Qed.

(** Adding up the column sums adds up the row sums. *)
Lemma col_sums_total (K : nat) (P : list (list Qc)) :
  Forall (fun row => length row = K) P ->
  Qcsum (map (PzSpec.col_sum P) (seq 0 K)) = Qcsum (map Qcsum P).
Proof.
  induction P as [|row P IH]; intros H.
  - unfold PzSpec.col_sum. simpl. induction (seq 0 K); simpl; [reflexivity|].
    rewrite IHl. ring.
  - inversion H as [|? ? Hrow HP]; subst.
    rewrite (map_ext (PzSpec.col_sum (row :: P))
               (fun z => nth z row 0 + PzSpec.col_sum P z))
      by reflexivity.
    rewrite Qcsum_map_add, (IH HP). simpl. f_equal.
    rewrite <- (@row_as_map (length row) row eq_refl). reflexivity.
Qed.

Lemma estimate_sums_to_one (max_iter : nat) (tol : Qc)
  (phi : list (list Qc)) (alpha : Qc) (ws : list nat) :
  positive phi -> phi <> [] -> 0 < alpha -> words_in_vocabulary phi ws ->
  ws <> [] ->
  Qcsum (PzSpec.estimate max_iter tol phi alpha ws) = 1.
Proof.
  intros Hp Hne Ha Hw Hws. unfold PzSpec.estimate.
  set (P := PzSpec.rounds max_iter tol phi alpha ws _).
  assert (HP : stochastic (length phi) P)
    by (apply rounds_stochastic; auto; apply init_stochastic; auto).
  assert (HL : length P = length ws).
  { apply rounds_length. unfold PzSpec.init. apply length_map. }
  apply normalize_sum. unfold PzSpec.topics.
  rewrite (@col_sums_total (length phi) P).
  - apply not_eq_sym, Qclt_not_eq, Qcsum_pos.
    + destruct P; [destruct ws; [contradiction | discriminate] | discriminate].
    + intros x Hx. apply in_map_iff in Hx. destruct Hx as (row & <- & Hrow).
      unfold stochastic in HP. rewrite Forall_forall in HP.
      destruct (HP row Hrow) as (_ & _ & ->). reflexivity.
  - eapply Forall_impl; [| exact HP]. simpl. intros row (L & _). exact L.
Qed.

Lemma filter_all (A : Type) (p : A -> bool) (l : list A) :
  Forall (fun x => p x = true) l -> filter p l = l.
Proof.
  induction 1 as [|x l Hx _ IH]; simpl; [reflexivity|].
  rewrite Hx, IH. reflexivity.
Qed.

Lemma filter_none (A : Type) (p : A -> bool) (l : list A) :
  Forall (fun x => p x = false) l -> filter p l = [].
Proof.
  induction 1 as [|x l Hx _ IH]; simpl; [reflexivity|].
  rewrite Hx, IH. reflexivity.
Qed.

Lemma combine_fst_snd (A B : Type) (l : list (A * B)) :
  combine (map fst l) (map snd l) = l.
Proof.
  induction l as [|[a b] l IH]; simpl; [reflexivity|]. rewrite IH. reflexivity.
Qed.

Lemma row_tokens_nil (W d : nat) : row_tokens W d [] = [].
Proof.
  unfold row_tokens.
  induction (seq 0 W) as [|w l IH]; cbn [flat_map]; [reflexivity|].
  rewrite IH. destruct w; reflexivity.
Qed.

Lemma row_tokens_words (W d : nat) (row : list nat) :
  map fst (row_tokens W d row)
  = flat_map (fun w => repeat w (nth w row O)) (seq 0 W).
Proof.
  unfold row_tokens.
  induction (seq 0 W) as [|w l IH]; cbn [flat_map map]; [reflexivity|].
  rewrite map_app, IH. f_equal. apply map_repeat.
Qed.

Lemma rows_tokens_of_doc (W d0 : nat) (rs : list (list nat)) (d : nat) :
  filter (fun t => (snd t =? d)%nat) (rows_tokens W d0 rs)
  = if (d0 <=? d)%nat then row_tokens W d (nth (d - d0) rs []) else [].
Proof.
  revert d0; induction rs as [|row rs IH]; intros d0; cbn [rows_tokens].
  - cbn [filter]. destruct (d0 <=? d)%nat; [| reflexivity].
    destruct (d - d0)%nat; rewrite row_tokens_nil; reflexivity.
  - rewrite filter_app, IH.
    pose proof (row_tokens_range W d0 row) as R.
    destruct (Nat.eqb_spec d0 d) as [->|Hne].
    + rewrite filter_all.
      2:{ eapply Forall_impl; [| exact R]. simpl. intros t [_ ->].
          apply Nat.eqb_refl. }
      rewrite Nat.sub_diag, Nat.leb_refl.
      replace (S d <=? d)%nat with false
        by (symmetry; apply Nat.leb_gt; lia).
      apply app_nil_r.
    + rewrite filter_none.
      2:{ eapply Forall_impl; [| exact R]. simpl. intros t [_ ->].
          apply Nat.eqb_neq. exact Hne. }
      destruct (Nat.leb_spec d0 d) as [Hle|Hgt].
      * replace (S d0 <=? d)%nat with true
          by (symmetry; apply Nat.leb_le; lia).
        replace (d - d0)%nat with (S (d - S d0)) by lia. reflexivity.
      * replace (S d0 <=? d)%nat with false
          by (symmetry; apply Nat.leb_gt; lia).
        reflexivity.
Qed.

(** The tokens the code selects for document [d] are the words of row [d]
    of the matrix. *)
Lemma ws_of_doc_row (M : matrix) (d : nat) :
  Pz.ws_of_doc (fst (matrix_to_lists M)) (snd (matrix_to_lists M)) d
  = doc_words M d.
Proof.
  unfold matrix_to_lists, Pz.ws_of_doc, doc_words. cbn [fst snd].
  rewrite combine_fst_snd, rows_tokens_of_doc. cbn [Nat.leb].
  rewrite Nat.sub_0_r. apply row_tokens_words.
Qed.

(** C4.  For a model with a positive topic-word distribution [phi] of at
    least one topic whose rows cover the columns of the new matrix, and
    [alpha > 0], [transform] returns one row per document, and the row of
    document [d], when row [d] of the matrix has a token, is the estimate of
    the iterated pseudo-counts procedure run on the words of that row: rows
    proportional to [phi[z][w_i] * alpha] to start with, at most [max_iter]
    rounds that replace row [i] by the normalized [phi[z][w_i] * (column sum
    without row i + alpha)], an early stop once the L1 distance between
    successive matrices is below [tol], and the normalized column sums as
    the result.  The rows of the first matrix and of every later one add up
    to 1, and so does the result.  (For a document without a token the code
    divides zero by zero; nothing is said about its row.) *)
Theorem transform_iterates_pseudocounts (self : LDA) (X : input) (M : matrix)
  (max_iter : nat) (tol : Qc) (phi : list (list Qc)) :
  input_matrix (atleast_2d X) = Some M ->
  components_ self = Ok phi ->
  Forall (fun row => (n_cols M <= length row)%nat) phi ->
  positive phi -> phi <> [] -> 0 < alpha self ->
  exists doc_topic,
    transform self X max_iter tol = Ok doc_topic
    /\ length doc_topic = length (rows M)
    /\ forall d, (d < length (rows M))%nat -> doc_words M d <> [] ->
         nth d doc_topic []
         = PzSpec.estimate max_iter tol phi (alpha self) (doc_words M d)
         /\ Qcsum (nth d doc_topic []) = 1
         /\ stochastic (length phi)
              (PzSpec.init phi (alpha self) (doc_words M d))
         /\ (forall P, stochastic (length phi) P ->
                       stochastic (length phi)
                         (PzSpec.step phi (alpha self) (doc_words M d) P)).
Proof.
  intros HM Hphi Hcols Hp Hne Ha.
  assert (Hvoc : forall d, words_in_vocabulary phi (doc_words M d)).
  { intros d. rewrite <- ws_of_doc_row.
    pose proof (matrix_to_lists_spec M) as Hm.
    destruct (matrix_to_lists M) as [ws ds]. cbn [fst snd].
    destruct Hm as (_ & _ & Hws & _).
    apply Forall_forall. intros w Hw. apply ws_of_doc_in in Hw.
    rewrite Forall_forall in Hws. specialize (Hws w Hw).
    eapply Forall_impl; [| exact Hcols]. simpl. intros row Hrow. lia. }
  exists (map (fun d => PzSpec.estimate max_iter tol phi (alpha self)
                          (doc_words M d))
            (seq 0 (length (rows M)))).
  split; [| split].
  - unfold transform.
    replace (if is_ndarray X then atleast_2d X else X) with (atleast_2d X)
      by (destruct X; reflexivity).
    rewrite Hphi. cbn [bind].
    assert (Hs : shape2 (atleast_2d X) = Ok (M, length (rows M), n_cols M))
      by (destruct (atleast_2d X); inversion HM; subst; reflexivity).
    rewrite Hs. cbn [bind].
    pose proof (ws_of_doc_row M) as Hrow.
    destruct (matrix_to_lists M) as [ws ds]. cbn [fst snd] in Hrow.
    apply map_result_ok. intros d _. rewrite Hrow.
    apply transform_doc_ok, Hvoc.
  - rewrite length_map, length_seq. reflexivity.
  - intros d Hd Hdoc. rewrite nth_map_seq by exact Hd.
    split; [reflexivity|].
    split; [apply estimate_sums_to_one; auto|].
    split; [apply init_stochastic; auto|].
    intros P HP. apply step_stochastic; auto.
Qed.

(** * The properties on small inputs *)

Lemma tiny_has_chain :
  has_chain tiny_initialized (fst (matrix_to_lists tiny_X))
    (snd (matrix_to_lists tiny_X)) (initial_chain 2 tiny_X).
Proof. repeat split. Defined.

Lemma tiny_consistent :
  consistent 2 2 2 (fst (matrix_to_lists tiny_X))
    (snd (matrix_to_lists tiny_X)) (initial_chain 2 tiny_X).
Proof.
  constructor; try reflexivity; try (vm_compute; repeat constructor).
  - intros z w Hz Hw. destruct z as [|[|z]]; [| | lia];
      (destruct w as [|[|w]]; [| | lia]); reflexivity.
  - intros d z Hd Hz. destruct d as [|[|d]]; [| | lia];
      (destruct z as [|[|z]]; [| | lia]); reflexivity.
  - intros z Hz. destruct z as [|[|z]]; [| | lia]; reflexivity.
Defined.

Lemma sweep_resamples_each_token_witness :
  exists c,
    _sample_topics tiny_initialized tiny_pool
    = Ok (set_tables tiny_initialized c)
    /\ c = fold_left
             (GibbsSpec.step (alpha tiny_model) (eta tiny_model) 2 2
                (fst (matrix_to_lists tiny_X)) (snd (matrix_to_lists tiny_X))
                tiny_pool)
             (seq 0 4) (initial_chain 2 tiny_X)
    /\ c_ZS c = [1; 1; 1; 0]%nat
    /\ c_nzw c = [[0; 1]; [2; 1]]%Z
    /\ c_ndz c = [[0; 3]; [1; 0]]%Z
    /\ c_nz c = [1; 3]%Z.
Proof.
  eexists. split.
  - apply (@sweep_resamples_each_token tiny_initialized
             (fst (matrix_to_lists tiny_X)) (snd (matrix_to_lists tiny_X))
             (initial_chain 2 tiny_X) tiny_pool 2 2 2).
    + exact tiny_has_chain.
    + exact tiny_consistent.
    + reflexivity.
    + simpl. lia.
  - split; [reflexivity|]. vm_compute. repeat split.
Defined.



Lemma transform_iterates_pseudocounts_witness :
  exists phi doc_topic,
    components_ tiny_initialized = Ok phi
    /\ transform tiny_initialized (Dense2 tiny_X) 20 (Q2Qc (1 # 1000))
       = Ok doc_topic
    /\ length doc_topic = 2%nat
    /\ nth 0 doc_topic []
       = PzSpec.estimate 20 (Q2Qc (1 # 1000)) phi (alpha tiny_model)
           [0; 0; 1]%nat
    /\ nth 1 doc_topic []
       = PzSpec.estimate 20 (Q2Qc (1 # 1000)) phi (alpha tiny_model)
           (1%nat :: nil)
    /\ Qcsum (nth 0 doc_topic []) = 1
    /\ Qcsum (nth 1 doc_topic []) = 1.
Proof.
  destruct (components_ tiny_initialized) as [phi|ex] eqn:E;
    [| vm_compute in E; discriminate].
  assert (Hcols : Forall (fun row => (2 <= length row)%nat) phi).
  { vm_compute in E. inversion E; subst phi. repeat constructor. }
  assert (Hpos : positive phi).
  { vm_compute in E. inversion E; subst phi. repeat constructor. }
  assert (Hne : phi <> nil).
  { vm_compute in E. inversion E; discriminate. }
  destruct (@transform_iterates_pseudocounts tiny_initialized
              (Dense2 tiny_X) tiny_X 20 (Q2Qc (1 # 1000)) phi eq_refl E
              Hcols Hpos Hne eq_refl) as (doc_topic & H1 & H2 & H3).
  destruct (H3 0%nat ltac:(simpl; lia) ltac:(vm_compute; discriminate))
    as (A1 & A2 & _).
  destruct (H3 1%nat ltac:(simpl; lia) ltac:(vm_compute; discriminate))
    as (B1 & B2 & _).
  exists phi, doc_topic.
  split; [reflexivity|]. split; [exact H1|]. split; [exact H2|].
  split; [exact A1|]. split; [exact B1|]. split; [exact A2 | exact B2].
Defined.

Lemma demo_shuffle_permutes (g : Z) (a : list Qc) :
  Permutation a (fst (demo_shuffle g a)).
Proof. apply Permutation_rev. Defined.

Lemma sample_topics_shuffles_a_copy_witness :
  exists self' w',
    sample_topics demo_RandomState demo_shuffle tiny_initialized 2 demo_world
    = Ok (self', w')
    /\ _rands self' = _rands tiny_initialized
    /\ Forall (Permutation (_rands tiny_initialized))
         (loop_pools demo_shuffle 2
            (check_random_state demo_RandomState (SeedInt 0))
            (_rands tiny_initialized) demo_world).
Proof.
  destruct (@sample_topics_shuffles_a_copy Z demo_RandomState demo_shuffle
              tiny_initialized (fst (matrix_to_lists tiny_X))
              (snd (matrix_to_lists tiny_X)) (initial_chain 2 tiny_X)
              2%Z demo_world demo_shuffle_permutes tiny_has_chain)
    as (self' & H1 & H2 & H3 & H4 & H5).
  exists self'. eexists.
  split; [exact H1|]. split; [exact H2 | exact H4].
Defined.

(** C5, as the design document has it, fails: after a call that ran one
    sweep on the reversed pool, the pool stored in the model is still the
    pool it was constructed with, not the reversed one. *)
Lemma stored_pool_is_not_shuffled :
  exists self' w',
    sample_topics demo_RandomState demo_shuffle tiny_initialized 1 demo_world
    = Ok (self', w')
    /\ loop_pools demo_shuffle 1
         (check_random_state demo_RandomState
            (random_state tiny_initialized))
         (_rands tiny_initialized) demo_world
       = [Q2Qc (1 # 2); Q2Qc (7 # 8); Q2Qc (1 # 8)] :: nil
    /\ _rands self' = [Q2Qc (1 # 8); Q2Qc (7 # 8); Q2Qc (1 # 2)]
    /\ _rands self' <> [Q2Qc (1 # 2); Q2Qc (7 # 8); Q2Qc (1 # 8)].
Proof.
  destruct (sample_topics demo_RandomState demo_shuffle tiny_initialized 1
              demo_world) as [[self' w']|ex] eqn:E;
    [| vm_compute in E; discriminate].
  exists self', w'. split; [reflexivity|].
  split; [reflexivity|].
  assert (R : _rands self' = [Q2Qc (1 # 8); Q2Qc (7 # 8); Q2Qc (1 # 2)]).
  { unfold sample_topics in E. apply sample_loop_config in E.
    destruct E as ((_ & _ & _ & _ & _ & _ & R) & _). exact R. }
  split; [exact R|].
  rewrite R. intros H. inversion H.
Qed.

Lemma initialize_round_robin_witness :
  exists self' c,
    _initialize tiny_model (Dense2 tiny_X) = Ok self'
    /\ ZS self' = Some (c_ZS c)
    /\ c_ZS c = [0; 1; 0; 1]%nat
    /\ consistent 2 2 2 (fst (matrix_to_lists tiny_X))
         (snd (matrix_to_lists tiny_X)) c.
Proof.
  destruct (@initialize_round_robin tiny_model (Dense2 tiny_X) tiny_X
              eq_refl (or_introl (Nat.lt_0_succ 1)) eq_refl)
    as (self' & c & H1 & H2 & H3 & H4 & _).
  exists self', c.
  split; [exact H1|]. split; [apply H2|]. split; [exact H3 | exact H4].
Defined.

Lemma fit_checkpoints_witness :
  (exists self' lls,
     _fit demo_RandomState demo_shuffle demo_loglikelihood tiny_model
       (Dense2 tiny_X) demo_world = Ok (self', demo_world)
     /\ blocks 3 2 = [2; 1]%nat
     /\ fit_pools demo_RandomState demo_shuffle (blocks 3 2) (SeedInt 0)
          (_rands tiny_model) demo_world
        = [rev (_rands tiny_model); _rands tiny_model;
           rev (_rands tiny_model)]
     /\ nzw_ self' = Some [[0; 2]; [2; 0]]%Z
     /\ ndz_ self' = Some [[1; 2]; [1; 0]]%Z
     /\ nz_ self' = Some [2; 2]%Z
     /\ loglikelihoods_ self' = Some lls
     /\ Z.of_nat (length lls) = 3%Z)
  /\ (exists self' lls,
        _fit demo_RandomState demo_shuffle demo_loglikelihood
          (tiny_scheduled 1 2) (Dense2 tiny_X) demo_world
        = Ok (self', demo_world)
        /\ blocks 1 2 = (1 :: nil)%nat
        /\ nzw_ self' = Some [[0; 1]; [2; 1]]%Z
        /\ ndz_ self' = Some [[0; 3]; [1; 0]]%Z
        /\ nz_ self' = Some [1; 3]%Z
        /\ loglikelihoods_ self' = Some lls
        /\ Z.of_nat (length lls) = 2%Z).
Proof.
  split.
  - destruct (@fit_checkpoints Z demo_RandomState demo_shuffle
                demo_loglikelihood tiny_model (Dense2 tiny_X) tiny_X
                demo_world eq_refl (or_introl (Nat.lt_0_succ 1))
                (Pos2Z.is_nonneg 3) eq_refl)
      as (self' & lls & H1 & _ & _ & H4 & H5 & H6 & H7 & _ & H9).
    exists self', lls.
    split; [exact H1|]. split; [reflexivity|]. split; [reflexivity|].
    split; [rewrite H4; vm_compute; reflexivity|].
    split; [rewrite H5; vm_compute; reflexivity|].
    split; [rewrite H6; vm_compute; reflexivity|].
    split; [exact H7 | exact H9].
  - destruct (@fit_checkpoints Z demo_RandomState demo_shuffle
                demo_loglikelihood (tiny_scheduled 1 2) (Dense2 tiny_X)
                tiny_X demo_world eq_refl (or_introl (Nat.lt_0_succ 1))
                (Pos2Z.is_nonneg 1) eq_refl)
      as (self' & lls & H1 & _ & _ & H4 & H5 & H6 & H7 & _ & H9).
    exists self', lls.
    split; [exact H1|]. split; [reflexivity|].
    split; [rewrite H4; vm_compute; reflexivity|].
    split; [rewrite H5; vm_compute; reflexivity|].
    split; [rewrite H6; vm_compute; reflexivity|].
    split; [exact H7 | exact H9].
Defined.

Lemma fit_transform_refines_fit_witness :
  fit_transform demo_RandomState demo_shuffle demo_loglikelihood tiny_model
    (Sparse tiny_X) demo_world
  = ('(self', w') <- fit demo_RandomState demo_shuffle demo_loglikelihood
                       tiny_model (Sparse tiny_X) demo_world ;;
     doc_topic <- doc_topic_ self' ;;
     Ok (doc_topic, self', w')).
Proof.
  apply (@fit_transform_refines_fit Z demo_RandomState demo_shuffle
           demo_loglikelihood tiny_model (Sparse tiny_X) tiny_X demo_world
           eq_refl).
Defined.

(** * Further properties of the class *)

(** ** What [_initialize] answers *)

Lemma initialize_zero_topics (self : LDA) (X : input) (M : matrix) :
  input_matrix X = Some M -> n_topics self = O -> matrix_sum M <> O ->
  _initialize self X = Raise ZeroDivisionError.
Proof.
  intros HM HK HN.
  assert (Hs : shape2 X = Ok (M, length (rows M), n_cols M))
    by (destruct X; inversion HM; subst; reflexivity).
  unfold _initialize. rewrite Hs; cbn [bind].
  pose proof (matrix_to_lists_spec M) as Hm.
  destruct (matrix_to_lists M) as [ws ds].
  destruct Hm as (L1 & L2 & F1 & F2).
  rewrite <- L1 in *. rewrite Nat.eqb_refl; simpl negb; cbv iota.
  destruct ws as [|w ws]; [contradiction|].
  destruct ds as [|d ds]; [discriminate|].
  rewrite HK. reflexivity.
Qed.

Lemma initialize_cases (self : LDA) (X : input) :
  _initialize self X
  = match input_matrix X with
    | None => Raise ValueError
    | Some M =>
        if ((n_topics self =? 0) && negb (matrix_sum M =? 0))%nat
        then Raise ZeroDivisionError
        else Ok (initialized self M)
    end.
Proof.
  destruct (input_matrix X) as [M|] eqn:HM.
  - destruct (Nat.eqb_spec (n_topics self) 0) as [HK|HK];
      destruct (Nat.eqb_spec (matrix_sum M) 0) as [HN|HN]; simpl.
    + apply initialize_total; auto.
    + apply initialize_zero_topics with (M := M); auto.
    + apply initialize_total; auto.
    + apply initialize_total; auto. left; lia.
  - destruct X; try discriminate. reflexivity.
Qed.

(** X1.  [_initialize] has three outcomes, decided by the input and the
    number of topics alone: a one-dimensional array raises [ValueError]
    (its shape does not unpack into two), a matrix with a token and no topic
    raises [ZeroDivisionError] (at [i % n_topics]), and every other matrix
    is accepted; the assertion on the token count and the array accesses of
    the loop never fail. *)
Theorem initialize_outcomes (self : LDA) (X : input) :
  _initialize self X
  = match input_matrix X with
    | None => Raise ValueError
    | Some M =>
        if ((n_topics self =? 0) && negb (matrix_sum M =? 0))%nat
        then Raise ZeroDivisionError
        else Ok (initialized self M)
    end.
Proof. apply initialize_cases. Qed.

(** ** What [fit] leaves in the model *)

Lemma kernel_well_shaped (K D W : nat) (ws ds : list nat)
  (al et rands : list Qc) (c : chain) :
  well_shaped K D W ws ds c ->
  well_shaped K D W ws ds (_lda._sample_topics ws ds c al et rands).
Proof.
  intros H. unfold _lda._sample_topics. apply fold_left_invariant; auto.
  intros s i Hs. unfold _lda.resample.
  apply reinstate_well_shaped, exclude_well_shaped, Hs.
Qed.

Lemma sweeps_well_shaped (K D W : nat) (ws ds : list nat) (al et : list Qc)
  (pools : list (list Qc)) (c : chain) :
  well_shaped K D W ws ds c ->
  well_shaped K D W ws ds (sweeps ws ds al et pools c).
Proof.
  intros H. unfold sweeps. apply fold_left_invariant; auto.
  intros s p Hs. apply kernel_well_shaped, Hs.
Qed.

Lemma initial_chain_shaped (K : nat) (M : matrix) :
  well_shaped K (length (rows M)) (n_cols M) (fst (matrix_to_lists M))
    (snd (matrix_to_lists M)) (initial_chain K M).
Proof.
  unfold initial_chain.
  pose proof (matrix_to_lists_spec M) as Hm.
  destruct (matrix_to_lists M) as [ws ds]; simpl.
  destruct Hm as (L1 & L2 & F1 & F2).
  apply init_fold_shaped, init_chain_shaped; auto.
Qed.

Lemma checkpoint_result
  (ll : list (list Z) -> list (list Z) -> list Z -> list Z -> Qc -> Qc -> Qc)
  (self self' : LDA) :
  checkpoint ll self = Ok self' ->
  exists x lls,
    loglikelihoods_ self = Some lls
    /\ self' = set_loglikelihoods self (lls ++ x :: nil).
Proof.
  unfold checkpoint. intros H. bind_inv H. bind_inv H.
  inversion H; subst. exists a, a0. split; [| reflexivity].
  destruct (loglikelihoods_ self); [| discriminate].
  inversion Ha0; reflexivity.
Qed.

Section AfterFit.

Variable rng : Type.
Variable RandomState : Z -> rng.
Variable rand : rng -> Z -> list Qc * rng.
Variable shuffle : rng -> list Qc -> list Qc * rng.
Variable _loglikelihood :
  list (list Z) -> list (list Z) -> list Z -> list Z -> Qc -> Qc -> Qc.

Variables K D W : nat.
Variables ws ds : list nat.

Lemma fit_block_inv (it : Z) (self self' : LDA) (w w' : world rng)
  (c : chain) :
  has_chain self ws ds c -> well_shaped K D W ws ds c ->
  fit_block RandomState shuffle _loglikelihood it (self, w) = Ok (self', w') ->
  exists c' lls,
    has_chain self' ws ds c' /\ well_shaped K D W ws ds c'
    /\ loglikelihoods_ self' = Some lls.
Proof.
  intros Hc Hs H. unfold fit_block in H. bind_inv H.
  destruct (checkpoint_result _ _ Ha) as (x & lls & HL & ->).
  assert (Hc1 : has_chain (set_loglikelihoods self (lls ++ x :: nil)) ws ds c)
    by (apply set_loglikelihoods_has_chain; exact Hc).
  unfold sample_topics in H. rewrite (sample_loop_ok shuffle _ _ _ _ Hc1) in H.
  inversion H; subst. eexists; eexists.
  split; [eapply set_tables_has_chain; eauto|].
  split; [apply sweeps_well_shaped; exact Hs | reflexivity].
Qed.

Lemma fit_loop_inv (its : list Z) (self self' : LDA) (w w' : world rng)
  (c : chain) (lls : list Qc) :
  has_chain self ws ds c -> well_shaped K D W ws ds c ->
  loglikelihoods_ self = Some lls ->
  for_each its (fit_block RandomState shuffle _loglikelihood) (self, w)
  = Ok (self', w') ->
  exists c' lls',
    has_chain self' ws ds c' /\ well_shaped K D W ws ds c'
    /\ loglikelihoods_ self' = Some lls'.
Proof.
  revert self w c lls; induction its as [|it its IH];
    intros self w c lls Hc Hs HL H; cbn [for_each] in H.
  - inversion H; subst. eauto.
  - bind_inv H. destruct a as [self1 w1].
    destruct (@fit_block_inv it self self1 w w1 c Hc Hs Ha)
      as (c1 & lls1 & Hc1 & Hs1 & HL1).
    eapply IH; eauto.
Qed.

End AfterFit.

Lemma fit_inv (rng : Type) (RandomState : Z -> rng)
  (shuffle : rng -> list Qc -> list Qc * rng)
  (ll : list (list Z) -> list (list Z) -> list Z -> list Z -> Qc -> Qc -> Qc)
  (self self' : LDA) (X : input) (w w' : world rng) :
  _fit RandomState shuffle ll self X w = Ok (self', w') ->
  exists M,
    input_matrix X = Some M
    /\ fitted self' (n_topics self) (length (rows M)) (n_cols M).
Proof.
  intros H. unfold _fit in H. bind_inv H.
  destruct (initialize_result _ _ Ha) as (M & HM & _ & ->).
  exists M. split; [exact HM|].
  bind_inv H. bind_inv H. destruct a0 as [self1 w1].
  bind_inv H. inversion H; subst.
  destruct (@fit_loop_inv rng RandomState shuffle ll (n_topics self)
              (length (rows M)) (n_cols M) (fst (matrix_to_lists M))
              (snd (matrix_to_lists M)) a _ _ _ _ _ []
              (initialized_has_chain self M)
              (initial_chain_shaped (n_topics self) M)
              (initialized_loglikelihoods self M) Ha1)
    as (c & lls & Hc & Hs & HL).
  destruct (checkpoint_result _ _ Ha2) as (x & lls' & HL' & ->).
  destruct Hc as (_ & _ & _ & H4 & H5 & H6).
  destruct Hs as [S1 S2 S3 S4 S5 S6 S7 S8 S9].
  exists (c_nzw c), (c_ndz c), (c_nz c), (lls' ++ x :: nil).
  simpl. repeat (split; [assumption || reflexivity |]).
  split; [destruct lls'; discriminate|].
  repeat (split; [assumption || reflexivity |]). assumption.
Qed.

Lemma sweep_needs_tokens (self : LDA) (rands : list Qc) :
  nzw_ self = None \/ WS self = None ->
  _sample_topics self rands = Raise AttributeError.
Proof.
  unfold _sample_topics. intros [H|H].
  - rewrite H. reflexivity.
  - destruct (nzw_ self) as [nzw|]; [| reflexivity]. simpl.
    destruct (Np.shape nzw). rewrite H. reflexivity.
Qed.

Lemma project_shape (prior : Qc) (counts : list (list Z)) (n : nat) :
  Forall (fun row => length row = n) counts ->
  length (project prior counts) = length counts
  /\ Forall (fun row => length row = n) (project prior counts).
Proof.
  intros H. unfold project. split; [apply length_map|].
  apply Forall_forall. intros row Hrow.
  apply in_map_iff in Hrow. destruct Hrow as (crow & <- & Hin).
  rewrite Forall_forall in H.
  rewrite normalize_length, length_map. apply H, Hin.
Qed.

Section Methods.

Variable rng : Type.
Variable RandomState : Z -> rng.
Variable rand : rng -> Z -> list Qc * rng.
Variable shuffle : rng -> list Qc -> list Qc * rng.
Variable _loglikelihood :
  list (list Z) -> list (list Z) -> list Z -> list Z -> Qc -> Qc -> Qc.

Lemma sample_topics_needs_tokens (self : LDA) (k : Z) (w : world rng) :
  nzw_ self = None \/ WS self = None -> (1 <= k)%Z ->
  sample_topics RandomState shuffle self k w = Raise AttributeError.
Proof.
  intros H Hk. unfold sample_topics.
  destruct (Z.to_nat k) as [|n] eqn:E; [lia|]. simpl.
  destruct (with_rng _ _ w) as [[r1 h1] w1].
  rewrite (@sweep_needs_tokens self r1 H). reflexivity.
Qed.

(** X2.  When [_fit] returns, the model holds the three tables with the
    shapes the class documents ([nzw_] is n_topics by n_features, [ndz_] is
    n_samples by n_topics, [nz_] has n_topics entries) and a history that is
    not empty, and [clean_up] has deleted [WS], [DS] and [ZS]. *)
Theorem fit_attributes (self self' : LDA) (X : input) (w w' : world rng) :
  _fit RandomState shuffle _loglikelihood self X w = Ok (self', w') ->
  exists M nzw ndz nz lls,
    input_matrix X = Some M
    /\ nzw_ self' = Some nzw /\ ndz_ self' = Some ndz /\ nz_ self' = Some nz
    /\ loglikelihoods_ self' = Some lls /\ lls <> []
    /\ WS self' = None /\ DS self' = None /\ ZS self' = None
    /\ length nzw = n_topics self
    /\ Forall (fun row => length row = n_cols M) nzw
    /\ length ndz = length (rows M)
    /\ Forall (fun row => length row = n_topics self) ndz
    /\ length nz = n_topics self.
Proof.
  intros H. destruct (@fit_inv rng RandomState shuffle _loglikelihood self self' X w w' H)
    as (M & HM & F).
  destruct F as (nzw & ndz & nz & lls & F).
  exists M, nzw, ndz, nz, lls. split; [exact HM | exact F].
Qed.

(** X3.  On a model that [fit] has returned, [sample_topics] raises
    [AttributeError] as soon as it is asked for a sweep (the token arrays
    are deleted), while [loglikelihood], [components_] and [doc_topic_]
    still answer, the two distributions with n_topics rows of n_features
    entries and n_samples rows of n_topics entries. *)
Theorem methods_after_fit (self self' : LDA) (X : input) (w w' : world rng) :
  _fit RandomState shuffle _loglikelihood self X w = Ok (self', w') ->
  (forall k w2, (1 <= k)%Z ->
     sample_topics RandomState shuffle self' k w2 = Raise AttributeError)
  /\ exists M ll phi theta,
       input_matrix X = Some M
       /\ loglikelihood _loglikelihood self' = Ok ll
       /\ components_ self' = Ok phi
       /\ doc_topic_ self' = Ok theta
       /\ length phi = n_topics self
       /\ Forall (fun row => length row = n_cols M) phi
       /\ length theta = length (rows M)
       /\ Forall (fun row => length row = n_topics self) theta.
Proof.
  intros H. destruct (@fit_inv rng RandomState shuffle _loglikelihood self self' X w w' H)
    as (M & HM & F).
  destruct F as (nzw & ndz & nz & lls & H1 & H2 & H3 & H4 & H5 & H6 & H7 & H8
                 & L1 & L2 & L3 & L4 & L5).
  split.
  - intros k w2 Hk. apply sample_topics_needs_tokens; auto.
  - destruct (@project_shape (eta self') nzw _ L2) as [P1 P2].
    destruct (@project_shape (alpha self') ndz _ L4) as [Q1 Q2].
    exists M. eexists. exists (project (eta self') nzw), (project (alpha self') ndz).
    split; [exact HM|].
    split; [unfold loglikelihood; rewrite H1, H2, H3; reflexivity|].
    split; [unfold components_; rewrite H1; reflexivity|].
    split; [unfold doc_topic_; rewrite H2; reflexivity|].
    split; [congruence|]. split; [exact P2|].
    split; [congruence | exact Q2].
Qed.

(** X4.  A model that has only been constructed holds no array: every
    accessor and [transform] raise [AttributeError], and so does
    [sample_topics] when asked for at least one sweep; asked for none, it
    returns the model and the generators as they are. *)
Theorem methods_before_fit (K : nat) (n : Z) (a e : Qc) (rs : seed) (r : Z)
  (w0 : world rng) (self : LDA) :
  fst (__init__ RandomState rand K n a e rs r w0) = Ok self ->
  loglikelihood _loglikelihood self = Raise AttributeError
  /\ components_ self = Raise AttributeError
  /\ doc_topic_ self = Raise AttributeError
  /\ (forall X max_iter tol,
        transform self X max_iter tol = Raise AttributeError)
  /\ (forall k w, (1 <= k)%Z ->
        sample_topics RandomState shuffle self k w = Raise AttributeError)
  /\ (forall k w, (k <= 0)%Z ->
        sample_topics RandomState shuffle self k w = Ok (self, w)).
Proof.
  unfold __init__.
  destruct (Qcle_bool a 0 || Qcle_bool e 0); simpl; [discriminate|].
  destruct (with_rng _ _ w0) as [[pool h] w']; simpl.
  intros H; inversion H; subst; clear H.
  repeat split.
  - intros k w Hk. apply sample_topics_needs_tokens; auto.
  - intros k w Hk. unfold sample_topics.
    replace (Z.to_nat k) with O by lia. reflexivity.
Qed.

End Methods.

(** ** Fitting again, and odd settings of [n_iter] and [refresh] *)

Lemma initialized_same_config (self other : LDA) (M : matrix) :
  same_config self other -> initialized other M = initialized self M.
Proof.
  unfold same_config, initialized.
  intros (H1 & H2 & H3 & H4 & H5 & H6 & H7).
  destruct (matrix_to_lists M) as [ws ds].
  unfold set_loglikelihoods, set_tables, set_tokens; simpl.
  rewrite H1, H2, H3, H4, H5, H6, H7. reflexivity.
Qed.

Lemma initialize_same_config (self other : LDA) (X : input) :
  same_config self other -> _initialize other X = _initialize self X.
Proof.
  intros H. rewrite !initialize_cases.
  destruct (input_matrix X) as [M|]; [| reflexivity].
  rewrite (initialized_same_config M H).
  destruct H as (-> & _). reflexivity.
Qed.

Lemma py_range_empty (n r : Z) :
  (0 < r /\ n <= 0)%Z \/ (r < 0 /\ 0 <= n)%Z -> py_range 0 n r = Ok [].
Proof.
  intros H. unfold py_range.
  replace (r =? 0)%Z with false by (symmetry; apply Z.eqb_neq; lia).
  destruct H as [[Hr Hn]|[Hr Hn]].
  - replace (0 <? r)%Z with true by (symmetry; apply Z.ltb_lt; lia).
    replace (0 <? n)%Z with false by (symmetry; apply Z.ltb_ge; lia).
    reflexivity.
  - replace (0 <? r)%Z with false by (symmetry; apply Z.ltb_ge; lia).
    replace (n <? 0)%Z with false by (symmetry; apply Z.ltb_ge; lia).
    reflexivity.
Qed.

Section Refit.

Variable rng : Type.
Variable RandomState : Z -> rng.
Variable rand : rng -> Z -> list Qc * rng.
Variable shuffle : rng -> list Qc -> list Qc * rng.
Variable _loglikelihood :
  list (list Z) -> list (list Z) -> list Z -> list Z -> Qc -> Qc -> Qc.

Lemma fit_loop_config (its : list Z) (self self' : LDA) (w w' : world rng) :
  for_each its (fit_block RandomState shuffle _loglikelihood) (self, w)
  = Ok (self', w') ->
  same_config self self'.
Proof.
  revert self w; induction its as [|it its IH]; intros self w H;
    cbn [for_each] in H.
  - inversion H; subst. apply same_config_refl.
  - bind_inv H. destruct a as [self1 w1].
    apply fit_block_config in Ha. apply IH in H.
    eapply same_config_trans; eauto.
Qed.

Lemma fit_config (self self' : LDA) (X : input) (w w' : world rng) :
  _fit RandomState shuffle _loglikelihood self X w = Ok (self', w') ->
  same_config self self'.
Proof.
  intros H. unfold _fit in H. bind_inv H.
  destruct (initialize_result _ _ Ha) as (M & _ & _ & ->).
  bind_inv H. bind_inv H. destruct a0 as [self1 w1].
  bind_inv H. inversion H; subst.
  apply fit_loop_config in Ha1.
  destruct (checkpoint_inv _ _ Ha2) as (C & _).
  eapply same_config_trans; [apply initialized_config|].
  eapply same_config_trans; [exact Ha1|].
  eapply same_config_trans; [exact C|]. repeat split.
Qed.

(** X5.  [fit] never assigns the settings of the model: the number of
    topics, [n_iter], [alpha], [eta], [random_state], [refresh] and the pool
    of variates are after a fit what they were before. *)
Theorem fit_keeps_settings (self self' : LDA) (X : input) (w w' : world rng) :
  _fit RandomState shuffle _loglikelihood self X w = Ok (self', w') ->
  n_topics self' = n_topics self /\ n_iter self' = n_iter self
  /\ alpha self' = alpha self /\ eta self' = eta self
  /\ random_state self' = random_state self /\ refresh self' = refresh self
  /\ _rands self' = _rands self.
Proof. apply fit_config. Qed.

(** X6.  [fit] starts from scratch: what it does depends on the settings of
    the model only, not on tables or a history left by an earlier fit.  So
    fitting a fitted model again, from the same generators, is fitting the
    original model. *)
Theorem fit_starts_from_scratch (self other : LDA) (X : input)
  (w : world rng) :
  n_topics other = n_topics self /\ n_iter other = n_iter self
  /\ alpha other = alpha self /\ eta other = eta self
  /\ random_state other = random_state self /\ refresh other = refresh self
  /\ _rands other = _rands self ->
  _fit RandomState shuffle _loglikelihood other X w
  = _fit RandomState shuffle _loglikelihood self X w
  /\ forall Y w0 fitted w1,
       _fit RandomState shuffle _loglikelihood self Y w0 = Ok (fitted, w1) ->
       _fit RandomState shuffle _loglikelihood fitted X w
       = _fit RandomState shuffle _loglikelihood self X w.
Proof.
  intros H.
  assert (E : forall s1 s2, same_config s1 s2 ->
            _fit RandomState shuffle _loglikelihood s2 X w
            = _fit RandomState shuffle _loglikelihood s1 X w).
  { intros s1 s2 C. unfold _fit. rewrite (initialize_same_config X C).
    reflexivity. }
  split; [apply E; exact H|].
  intros Y w0 fitted w1 HF. apply E. eapply fit_config; eauto.
Qed.

(** X7.  With [refresh = 0], [_fit] raises [ValueError] (from [range]) once
    [_initialize] has accepted the input; when [_initialize] raises, its
    exception comes first. *)
Theorem fit_zero_refresh (self : LDA) (X : input) (w : world rng) :
  refresh self = 0%Z ->
  _fit RandomState shuffle _loglikelihood self X w
  = match _initialize self X with
    | Ok _ => Raise ValueError
    | Raise ex => Raise ex
    end.
Proof.
  intros Hr. unfold _fit.
  destruct (_initialize self X) as [self0|ex] eqn:E; [| reflexivity].
  destruct (initialize_result _ _ E) as (M & _ & _ & ->).
  pose proof (initialized_config self M) as (_ & _ & _ & _ & _ & C & _).
  cbn [bind]. rewrite C, Hr. reflexivity.
Qed.

(** X8.  When [range(0, n_iter, refresh)] is empty, because [n_iter <= 0]
    with [refresh > 0] or because [refresh < 0] with [n_iter >= 0], [_fit]
    runs no sweep at all, whatever [n_iter] says: it leaves the tables of
    [_initialize], a history of one value, and the generators untouched. *)
Theorem fit_without_sweeps (self : LDA) (X : input) (M : matrix)
  (w : world rng) :
  input_matrix X = Some M ->
  (0 < n_topics self)%nat \/ matrix_sum M = O ->
  (0 < refresh self /\ n_iter self <= 0)%Z
  \/ (refresh self < 0 /\ 0 <= n_iter self)%Z ->
  let c0 := initial_chain (n_topics self) M in
  exists self',
    _fit RandomState shuffle _loglikelihood self X w = Ok (self', w)
    /\ nzw_ self' = Some (c_nzw c0) /\ ndz_ self' = Some (c_ndz c0)
    /\ nz_ self' = Some (c_nz c0)
    /\ loglikelihoods_ self'
       = Some (chain_loglikelihood _loglikelihood (alpha self) (eta self) c0
               :: nil).
Proof.
  intros HM HK HR c0.
  pose proof (initialized_config self M) as (_ & C2 & C3 & C4 & _ & C6 & _).
  pose proof (checkpoint_ok _loglikelihood (initialized_has_chain self M)
                (initialized_loglikelihoods self M)) as Ck.
  rewrite C3, C4 in Ck. simpl app in Ck.
  eexists. split.
  { unfold _fit. rewrite (initialize_total self X HM HK). cbn [bind].
    rewrite C2, C6, (py_range_empty HR). cbn [bind for_each].
    rewrite Ck. reflexivity. }
  pose proof (initialized_has_chain self M) as (_ & _ & _ & H4 & H5 & H6).
  simpl. auto.
Qed.

End Refit.

(** ** Entries of the projections *)





(** ** More on [transform] *)

Lemma map_result_inv (A B : Type) (f : A -> result B) (xs : list A)
  (ys : list B) :
  Pz.map_result f xs = Ok ys ->
  length ys = length xs
  /\ forall y, In y ys -> exists x, In x xs /\ f x = Ok y.
Proof.
  revert ys; induction xs as [|x xs IH]; intros ys H; simpl in H.
  - inversion H; subst. split; [reflexivity | intros y []].
  - bind_inv H. bind_inv H. inversion H; subst.
    destruct (IH _ Ha0) as [L I]. split; [simpl; congruence|].
    intros y [Ey|Hy].
    + exists x. subst y. split; [left; reflexivity | assumption].
    + destruct (I y Hy) as (x' & Hx' & E). exists x'.
      split; [right; exact Hx' | exact E].
Qed.

Lemma colsum_length (K : nat) (P : list (list Qc)) :
  length (Pz.colsum K P) = K.
Proof. unfold Pz.colsum. rewrite length_map, length_seq. reflexivity. Qed.

Lemma transform_doc_length (max_iter : nat) (tol : Qc)
  (phi : list (list Qc)) (alpha : Qc) (ws : list nat) (row : list Qc) :
  Pz.transform_doc max_iter tol phi alpha ws = Ok row ->
  length row = length phi.
Proof.
  unfold Pz.transform_doc. intros H. bind_inv H. bind_inv H.
  inversion H; subst. rewrite normalize_length. apply colsum_length.
Qed.

(** X10.  When [transform] returns, its result has one row per row of the
    input (a one-dimensional array counts as one row) and every row has as
    many entries as the model has topics. *)
Theorem transform_shape (self : LDA) (X : input) (M : matrix)
  (max_iter : nat) (tol : Qc) (phi doc_topic : list (list Qc)) :
  input_matrix (atleast_2d X) = Some M ->
  components_ self = Ok phi ->
  transform self X max_iter tol = Ok doc_topic ->
  length doc_topic = length (rows M)
  /\ Forall (fun row => length row = length phi) doc_topic.
Proof.
  intros HM Hphi H. unfold transform in H.
  replace (if is_ndarray X then atleast_2d X else X) with (atleast_2d X) in H
    by (destruct X; reflexivity).
  rewrite Hphi in H. cbn [bind] in H.
  assert (Hs : shape2 (atleast_2d X) = Ok (M, length (rows M), n_cols M))
    by (destruct (atleast_2d X); inversion HM; subst; reflexivity).
  rewrite Hs in H. cbn [bind] in H.
  destruct (matrix_to_lists M) as [ws ds].
  apply map_result_inv in H. destruct H as [L I].
  split; [rewrite L; apply length_seq|].
  apply Forall_forall. intros row Hrow.
  destruct (I row Hrow) as (d & _ & E).
  apply transform_doc_length in E. exact E.
Qed.

Lemma l1_distance_nonneg (P Q : list (list Qc)) : 0 <= Pz.l1_distance P Q.
Proof.
  unfold Pz.l1_distance. apply Qcsum_nonneg. intros x Hx.
  apply in_map_iff in Hx. destruct Hx as (rs & <- & _).
  apply Qcsum_nonneg. intros y Hy.
  apply in_map_iff in Hy. destruct Hy as (z & <- & _).
  apply Qcabs_nonneg.
Qed.

(** X11.  With [tol <= 0] the early exit of [transform] never fires: the
    distance between two matrices is not negative, so every round that is
    run is followed by the next one until [max_iter] rounds are done. *)
Theorem nonpositive_tol_runs_all_rounds (n : nat) (tol : Qc)
  (phi : list (list Qc)) (alpha : Qc) (ws_doc : list nat)
  (PZS : list (list Qc)) :
  tol <= 0 ->
  Pz.iterate (S n) tol phi alpha ws_doc PZS
  = ('(PZS_new, _) <- Pz.round phi alpha ws_doc PZS ;;
     Pz.iterate n tol phi alpha ws_doc PZS_new).
Proof.
  intros Ht. cbn [Pz.iterate].
  destruct (Pz.round phi alpha ws_doc PZS) as [[PZS_new delta]|ex] eqn:E;
    [| reflexivity].
  cbn [bind].
  assert (Hd : 0 <= delta).
  { unfold Pz.round in E. bind_inv E. inversion E; subst.
    apply l1_distance_nonneg. }
  unfold Qclt_bool.
  replace (Qle_bool tol delta) with true; [reflexivity|].
  symmetry. apply Qle_bool_iff.
  apply (Qcle_trans tol 0 delta Ht Hd).
Qed.

Lemma map_result_all_ok (A B : Type) (f : A -> result B) (xs : list A)
  (ys : list B) :
  Pz.map_result f xs = Ok ys -> forall x, In x xs -> exists y, f x = Ok y.
Proof.
  revert ys; induction xs as [|x xs IH]; intros ys H x0 Hin; simpl in H.
  - contradiction.
  - bind_inv H. bind_inv H. destruct Hin as [E|Hin].
    + subst x0. exists a. exact Ha.
    + eapply IH; eauto.
Qed.

Lemma map_result_only (A B : Type) (f : A -> result B) (xs : list A)
  (E : exn) :
  (forall x e, In x xs -> f x = Raise e -> e = E) ->
  forall e, Pz.map_result f xs = Raise e -> e = E.
Proof.
  induction xs as [|x xs IH]; intros Hf e H; simpl in H; [discriminate|].
  destruct (f x) as [y|e1] eqn:Ex; simpl in H.
  - destruct (Pz.map_result f xs) as [ys|e2] eqn:Exs; simpl in H;
      [discriminate|].
    inversion H; subst. apply IH; [| reflexivity].
    intros x0 e0 Hin. apply Hf. right; exact Hin.
  - inversion H; subst. apply (Hf x e); [left; reflexivity | exact Ex].
Qed.

Lemma get_only_index (A : Type) (a : list A) (i : nat) (e : exn) :
  Np.get a i = Raise e -> e = IndexError.
Proof.
  unfold Np.get. destruct (nth_error a i); intros H; inversion H; reflexivity.
Qed.

Lemma phi_column_only_index (phi : list (list Qc)) (w : nat) (e : exn) :
  Pz.phi_column phi w = Raise e -> e = IndexError.
Proof.
  unfold Pz.phi_column. intros H.
  apply (@map_result_only _ _ (fun row => Np.get row w) phi IndexError)
    with (e := e); [| exact H].
  intros row e0 _. apply get_only_index.
Qed.

Lemma init_only_index (phi : list (list Qc)) (a : Qc) (ws : list nat)
  (e : exn) :
  Pz.init phi a ws = Raise e -> e = IndexError.
Proof.
  unfold Pz.init. intros H.
  destruct (Pz.map_result (Pz.phi_column phi) ws) as [cols|e1] eqn:E;
    simpl in H; [discriminate|].
  inversion H; subst.
  apply (@map_result_only _ _ (Pz.phi_column phi) ws IndexError)
    with (e := e); [| exact E].
  intros w e0 _. apply phi_column_only_index.
Qed.

Lemma fill_only_index (phi : list (list Qc)) (a : Qc)
  (toks : list (nat * list Qc)) (S : list Qc) (e : exn) :
  Pz.fill phi a toks S = Raise e -> e = IndexError.
Proof.
  revert S; induction toks as [|[w Pi] toks IH]; intros S H; simpl in H;
    [discriminate|].
  destruct (Pz.phi_column phi w) as [col|e1] eqn:E1; simpl in H.
  - destruct (Pz.fill phi a toks (Pz.vadd (Pz.vsub S Pi) Pi)) as [rest|e2]
      eqn:E2; simpl in H; [discriminate|].
    inversion H; subst. eapply IH; eauto.
  - inversion H; subst. eapply phi_column_only_index; eauto.
Qed.

Lemma round_only_index (phi : list (list Qc)) (a : Qc) (ws : list nat)
  (P : list (list Qc)) (e : exn) :
  Pz.round phi a ws P = Raise e -> e = IndexError.
Proof.
  unfold Pz.round. intros H.
  destruct (Pz.fill phi a (combine ws P) (Pz.colsum (length phi) P))
    as [raw|e1] eqn:E; simpl in H; [discriminate|].
  inversion H; subst. eapply fill_only_index; eauto.
Qed.

Lemma iterate_only_index (n : nat) (tol : Qc) (phi : list (list Qc)) (a : Qc)
  (ws : list nat) (P : list (list Qc)) (e : exn) :
  Pz.iterate n tol phi a ws P = Raise e -> e = IndexError.
Proof.
  revert P; induction n as [|n IH]; intros P H; simpl in H; [discriminate|].
  destruct (Pz.round phi a ws P) as [[P1 delta]|e1] eqn:E; simpl in H.
  - destruct (Qclt_bool delta tol); [discriminate|]. eapply IH; eauto.
  - inversion H; subst. eapply round_only_index; eauto.
Qed.

Lemma transform_doc_only_index (n : nat) (tol : Qc) (phi : list (list Qc))
  (a : Qc) (ws : list nat) (e : exn) :
  Pz.transform_doc n tol phi a ws = Raise e -> e = IndexError.
Proof.
  unfold Pz.transform_doc. intros H.
  destruct (Pz.init phi a ws) as [P0|e1] eqn:E0; simpl in H.
  - destruct (Pz.iterate n tol phi a ws P0) as [P|e2] eqn:E1; simpl in H;
      [discriminate|].
    inversion H; subst. eapply iterate_only_index; eauto.
  - inversion H; subst. eapply init_only_index; eauto.
Qed.

Lemma row_tokens_in (W d : nat) (row : list nat) (w d' : nat) :
  In (w, d') (row_tokens W d row)
  <-> (w < W)%nat /\ d' = d /\ (0 < nth w row O)%nat.
Proof.
  unfold row_tokens. rewrite in_flat_map. split.
  - intros (x & Hx & Hin). apply in_seq in Hx.
    apply repeat_spec in Hin as Ht. inversion Ht; subst.
    destruct (nth x row O) as [|n]; [contradiction|].
    repeat split; lia.
  - intros (Hw & -> & Hn). exists w. split; [apply in_seq; lia|].
    destruct (nth w row O) as [|n]; [lia|]. left; reflexivity.
Qed.

Lemma rows_tokens_in (W d0 : nat) (rs : list (list nat)) (w d : nat) :
  In (w, d) (rows_tokens W d0 rs)
  <-> (w < W)%nat /\ (d0 <= d < d0 + length rs)%nat
      /\ (0 < nth w (nth (d - d0) rs []) O)%nat.
Proof.
  revert d0; induction rs as [|row rs IH]; intros d0;
    cbn [rows_tokens length].
  - split; [contradiction | intros (_ & H & _); lia].
  - rewrite in_app_iff, row_tokens_in, IH. split.
    + intros [(Hw & -> & Hn) | (Hw & Hd & Hn)].
      * rewrite Nat.sub_diag. repeat split; auto; lia.
      * replace (d - d0)%nat with (S (d - S d0)) by lia.
        repeat split; auto; lia.
    + intros (Hw & Hd & Hn). destruct (Nat.eq_dec d d0) as [->|Hne].
      * left. rewrite Nat.sub_diag in Hn. auto.
      * right. replace (d - d0)%nat with (S (d - S d0)) in Hn by lia.
        repeat split; auto; lia.
Qed.

Lemma ws_of_doc_tokens (M : matrix) (d w : nat) :
  In w (Pz.ws_of_doc (fst (matrix_to_lists M)) (snd (matrix_to_lists M)) d)
  <-> (w < n_cols M)%nat /\ (d < length (rows M))%nat
      /\ (0 < nth w (nth d (rows M) []) O)%nat.
Proof.
  unfold matrix_to_lists, Pz.ws_of_doc. cbn [fst snd].
  rewrite combine_fst_snd, in_map_iff. split.
  - intros ([w' d'] & E & Hin). simpl in E; subst w'.
    apply filter_In in Hin. destruct Hin as [Hin Hd]. simpl in Hd.
    apply Nat.eqb_eq in Hd; subst d'.
    apply rows_tokens_in in Hin. rewrite Nat.sub_0_r in Hin.
    destruct Hin as (H1 & H2 & H3). repeat split; auto; lia.
  - intros (Hw & Hd & Hn). exists (w, d). split; [reflexivity|].
    apply filter_In. split; [| simpl; apply Nat.eqb_refl].
    apply rows_tokens_in. rewrite Nat.sub_0_r. repeat split; auto; lia.
Qed.

(** X12.  For a model with at least one topic over a vocabulary of [W]
    words, [transform] raises [IndexError] exactly when some document of the
    input has a token of a word at or beyond column [W] (at [phi[:, ws_doc]]
    or [phi[:, w]]); on every other input it returns. *)
Theorem transform_unknown_word (self : LDA) (X : input) (M : matrix)
  (max_iter : nat) (tol : Qc) (phi : list (list Qc)) (W : nat) :
  input_matrix (atleast_2d X) = Some M ->
  components_ self = Ok phi ->
  phi <> [] -> Forall (fun row => length row = W) phi ->
  (has_unknown_word M W ->
   transform self X max_iter tol = Raise IndexError)
  /\ (~ has_unknown_word M W ->
      exists doc_topic, transform self X max_iter tol = Ok doc_topic).
Proof.
  intros HM Hphi Hne Hrows. unfold transform.
  replace (if is_ndarray X then atleast_2d X else X) with (atleast_2d X)
    by (destruct X; reflexivity).
  rewrite Hphi. cbn [bind].
  assert (Hs : shape2 (atleast_2d X) = Ok (M, length (rows M), n_cols M))
    by (destruct (atleast_2d X); inversion HM; subst; reflexivity).
  rewrite Hs. cbn [bind].
  pose proof (ws_of_doc_tokens M) as Htok.
  destruct (matrix_to_lists M) as [ws ds]. cbn [fst snd] in Htok.
  split.
  - intros (d & w & Hd & Hw & Hn).
    destruct (Pz.map_result _ (seq 0 (length (rows M)))) as [R|e] eqn:E.
    + exfalso.
      destruct (map_result_all_ok _ _ E d) as (y & Hy);
        [apply in_seq; lia|].
      unfold Pz.transform_doc in Hy. bind_inv Hy.
      unfold Pz.init in Ha. bind_inv Ha.
      destruct (map_result_all_ok _ _ Ha0 w) as (col & Hcol);
        [apply Htok; repeat split; auto; lia|].
      destruct phi as [|row phi']; [congruence|].
      unfold Pz.phi_column in Hcol. simpl in Hcol. bind_inv Hcol.
      inversion Hrows; subst.
      unfold Np.get in Ha1.
      replace (nth_error row w) with (@None Qc) in Ha1;
        [discriminate|].
      symmetry. apply nth_error_None. lia.
    + f_equal.
      apply (map_result_only _ _ (E := IndexError)) with (e := e) in E;
        [exact E|].
      intros d0 e0 _. apply transform_doc_only_index.
  - intros Hno. eexists.
    apply (map_result_ok _
      (fun d => PzSpec.estimate max_iter tol phi (alpha self)
                  (Pz.ws_of_doc ws ds d))).
    intros d _. apply transform_doc_ok.
    apply Forall_forall. intros w Hw. apply Htok in Hw.
    destruct Hw as (H1 & H2 & H3).
    destruct (le_lt_dec W w) as [Hge|Hlt].
    + exfalso. apply Hno. exists d, w. repeat split; auto.
    + eapply Forall_impl; [| exact Hrows]. simpl. intros row Hrow. lia.
Qed.

(** ** The document lengths handed to the evaluator *)






Section DocumentLengths.

Variables K D W : nat.
Variables ws ds : list nat.
Variable c : chain.
Hypothesis Hc : counted K D W ws ds (fun _ => true) c.


End DocumentLengths.


(** ** One-dimensional input, and data seen after a fit *)

Lemma estimate_length (max_iter : nat) (tol : Qc) (phi : list (list Qc))
  (a : Qc) (ws : list nat) :
  length (PzSpec.estimate max_iter tol phi a ws) = length phi.
Proof.
  unfold PzSpec.estimate, PzSpec.topics.
  rewrite normalize_length, length_map, length_seq. reflexivity.
Qed.

Section OtherInputs.

Variable rng : Type.
Variable RandomState : Z -> rng.
Variable rand : rng -> Z -> list Qc * rng.
Variable shuffle : rng -> list Qc -> list Qc * rng.
Variable _loglikelihood :
  list (list Z) -> list (list Z) -> list Z -> list Z -> Qc -> Qc -> Qc.

(** X14.  A one-dimensional array is refused by [fit] and [initialize]
    ([ValueError]: its shape has one entry), while [fit_transform] takes it
    for a matrix of one row and, when it returns, yields one row of
    [n_topics] entries. *)
Theorem one_dimensional_input (self : LDA) (v : list nat) (w : world rng) :
  fit RandomState shuffle _loglikelihood self (Dense1 v) w = Raise ValueError
  /\ initialize self (Dense1 v) = Raise ValueError
  /\ fit_transform RandomState shuffle _loglikelihood self (Dense1 v) w
     = fit_transform RandomState shuffle _loglikelihood self
         (Dense2 (mkMatrix (length v) (v :: nil))) w
  /\ forall doc_topic self' w',
       fit_transform RandomState shuffle _loglikelihood self (Dense1 v) w
       = Ok (doc_topic, self', w') ->
       length doc_topic = 1%nat
       /\ Forall (fun row => length row = n_topics self) doc_topic.
Proof.
  split; [reflexivity|]. split; [reflexivity|]. split; [reflexivity|].
  intros doc_topic self' w' H. unfold fit_transform in H.
  cbn [is_ndarray atleast_2d] in H. bind_inv H. destruct a as [s1 w1].
  bind_inv H. inversion H; subst.
  destruct (@fit_inv rng RandomState shuffle _loglikelihood self self'
              _ w w' Ha) as (M & HM & F).
  inversion HM; subst M. cbn [rows n_cols length] in F.
  destruct F as (nzw & ndz & nz & lls & H1 & H2 & H3 & H4 & H5 & H6 & H7 & H8
                 & L1 & L2 & L3 & L4 & L5).
  unfold doc_topic_ in Ha0. rewrite H2 in Ha0. inversion Ha0; subst.
  destruct (@project_shape (alpha self') ndz _ L4) as [P1 P2].
  split; [congruence | exact P2].
Qed.

(** X15.  After [_fit] has returned, [transform] accepts every input that
    has no more columns than the training matrix, the training matrix
    itself among them: it returns one row per document, each with
    [n_topics] entries. *)
Theorem transform_after_fit (self self' : LDA) (X Y : input) (M MY : matrix)
  (w w' : world rng) (max_iter : nat) (tol : Qc) :
  _fit RandomState shuffle _loglikelihood self X w = Ok (self', w') ->
  input_matrix X = Some M ->
  input_matrix (atleast_2d Y) = Some MY ->
  (n_cols MY <= n_cols M)%nat ->
  exists doc_topic,
    transform self' Y max_iter tol = Ok doc_topic
    /\ length doc_topic = length (rows MY)
    /\ Forall (fun row => length row = n_topics self) doc_topic.
Proof.
  intros HF HM HY Hcols.
  destruct (@fit_inv rng RandomState shuffle _loglikelihood self self' X w w'
              HF) as (M0 & HM0 & F).
  assert (M0 = M) by congruence; subst M0.
  destruct F as (nzw & ndz & nz & lls & H1 & H2 & H3 & H4 & H5 & H6 & H7 & H8
                 & L1 & L2 & L3 & L4 & L5).
  destruct (@project_shape (eta self') nzw _ L2) as [P1 P2].
  set (phi := project (eta self') nzw) in *.
  assert (Hphi : components_ self' = Ok phi)
    by (unfold components_; rewrite H1; reflexivity).
  unfold transform.
  replace (if is_ndarray Y then atleast_2d Y else Y) with (atleast_2d Y)
    by (destruct Y; reflexivity).
  rewrite Hphi. cbn [bind].
  assert (Hs : shape2 (atleast_2d Y) = Ok (MY, length (rows MY), n_cols MY))
    by (destruct (atleast_2d Y); inversion HY; subst; reflexivity).
  rewrite Hs. cbn [bind].
  pose proof (matrix_to_lists_spec MY) as Hm.
  destruct (matrix_to_lists MY) as [ws ds].
  destruct Hm as (_ & _ & Hws & _).
  exists (map (fun d => PzSpec.estimate max_iter tol phi (alpha self')
                          (Pz.ws_of_doc ws ds d))
            (seq 0 (length (rows MY)))).
  split; [| split].
  - apply map_result_ok. intros d _. apply transform_doc_ok.
    apply Forall_forall. intros x Hx. apply ws_of_doc_in in Hx.
    rewrite Forall_forall in Hws. specialize (Hws x Hx).
    eapply Forall_impl; [| exact P2]. simpl. intros row Hrow. lia.
  - rewrite length_map, length_seq. reflexivity.
  - apply Forall_forall. intros row Hrow.
    apply in_map_iff in Hrow. destruct Hrow as (d & <- & _).
    rewrite estimate_length. congruence.
Qed.

End OtherInputs.

(** ** A negative [refresh] *)

Lemma py_range_backwards (n r : Z) :
  (n < 0)%Z -> (r < 0)%Z ->
  exists its,
    py_range 0 n r = Ok its
    /\ length its = Z.to_nat (ceil_div (- n) (- r)).
Proof.
  intros Hn Hr. unfold py_range, ceil_div.
  replace (r =? 0)%Z with false by (symmetry; apply Z.eqb_neq; lia).
  replace (0 <? r)%Z with false by (symmetry; apply Z.ltb_ge; lia).
  replace (n <? 0)%Z with true by (symmetry; apply Z.ltb_lt; lia).
  eexists. split; [reflexivity|].
  rewrite length_map, length_seq. f_equal.
  replace (- n + - r - 1)%Z with (0 - n - 1 + 1 * - r)%Z by lia.
  rewrite Z.div_add by lia. reflexivity.
Qed.

Section NegativeRefresh.

Variable rng : Type.
Variable RandomState : Z -> rng.
Variable rand : rng -> Z -> list Qc * rng.
Variable shuffle : rng -> list Qc -> list Qc * rng.
Variable _loglikelihood :
  list (list Z) -> list (list Z) -> list Z -> list Z -> Qc -> Qc -> Qc.

Variables ws ds : list nat.
Variable c : chain.

Lemma fit_block_no_sweep (it : Z) (self : LDA) (w : world rng)
  (lls : list Qc) :
  has_chain self ws ds c -> loglikelihoods_ self = Some lls ->
  (refresh self < 0)%Z ->
  fit_block RandomState shuffle _loglikelihood it (self, w)
  = Ok (set_loglikelihoods self
          (lls ++ chain_loglikelihood _loglikelihood (alpha self) (eta self) c
                  :: nil), w).
Proof.
  intros Hc HL Hr. unfold fit_block.
  rewrite (checkpoint_ok _loglikelihood Hc HL). cbn [bind].
  unfold sample_topics.
  replace (Z.to_nat _) with O by (simpl; lia). reflexivity.
Qed.

Lemma fit_loop_no_sweep (its : list Z) (self : LDA) (w : world rng)
  (lls : list Qc) :
  has_chain self ws ds c -> loglikelihoods_ self = Some lls ->
  (refresh self < 0)%Z ->
  for_each its (fit_block RandomState shuffle _loglikelihood) (self, w)
  = Ok (set_loglikelihoods self
          (lls ++ repeat (chain_loglikelihood _loglikelihood (alpha self)
                            (eta self) c) (length its)), w).
Proof.
  revert self lls; induction its as [|it its IH]; intros self lls Hc HL Hr;
    cbn [for_each].
  - simpl. rewrite app_nil_r. destruct self; simpl in *. subst. reflexivity.
  - rewrite (fit_block_no_sweep it w Hc HL Hr). cbn [bind].
    rewrite (IH _ (lls ++ chain_loglikelihood _loglikelihood (alpha self)
                            (eta self) c :: nil)).
    + simpl. rewrite <- app_assoc. reflexivity.
    + apply set_loglikelihoods_has_chain. exact Hc.
    + reflexivity.
    + exact Hr.
Qed.

End NegativeRefresh.

Section NeverSweeping.

Variable rng : Type.
Variable RandomState : Z -> rng.
Variable rand : rng -> Z -> list Qc * rng.
Variable shuffle : rng -> list Qc -> list Qc * rng.
Variable _loglikelihood :
  list (list Z) -> list (list Z) -> list Z -> list Z -> Qc -> Qc -> Qc.

(** X16.  With [refresh < 0] and [n_iter < 0] the loop of [_fit] does run,
    once for each of the [ceiling(n_iter / refresh)] values of the range,
    but every call of [sample_topics] is for a negative number of sweeps and
    does nothing: the tables stay those of [_initialize], the generators are
    untouched, and the history is the first log likelihood, once per turn
    of the loop and once more. *)
Theorem fit_negative_refresh (self : LDA) (X : input) (M : matrix)
  (w : world rng) :
  input_matrix X = Some M ->
  (0 < n_topics self)%nat \/ matrix_sum M = O ->
  (refresh self < 0)%Z -> (n_iter self < 0)%Z ->
  let c0 := initial_chain (n_topics self) M in
  exists self',
    _fit RandomState shuffle _loglikelihood self X w = Ok (self', w)
    /\ nzw_ self' = Some (c_nzw c0) /\ ndz_ self' = Some (c_ndz c0)
    /\ nz_ self' = Some (c_nz c0)
    /\ loglikelihoods_ self'
       = Some (repeat
                 (chain_loglikelihood _loglikelihood (alpha self) (eta self) c0)
                 (S (Z.to_nat (ceil_div (- n_iter self) (- refresh self))))).
Proof.
  intros HM HK Hr Hn c0.
  pose proof (initialized_config self M) as (_ & C2 & C3 & C4 & _ & C6 & _).
  destruct (py_range_backwards Hn Hr) as (its & Hits & Hlen).
  pose proof (initialized_has_chain self M) as Hc.
  pose proof (initialized_loglikelihoods self M) as HL.
  assert (Hr0 : (refresh (initialized self M) < 0)%Z) by (rewrite C6; exact Hr).
  pose proof (@fit_loop_no_sweep rng RandomState shuffle _loglikelihood _ _
                (initial_chain (n_topics self) M) its
                (initialized self M) w [] Hc HL Hr0) as Hloop.
  rewrite C3, C4 in Hloop. cbn [app] in Hloop.
  eexists. split.
  { unfold _fit. rewrite (initialize_total self X HM HK). cbn [bind].
    rewrite C2, C6, Hits. cbn [bind]. rewrite Hloop. cbn [bind].
    set (hist := repeat (chain_loglikelihood _loglikelihood (alpha self)
                           (eta self) (initial_chain (n_topics self) M))
                   (length its)).
    rewrite (@checkpoint_ok _loglikelihood _ _ _ _ hist
               (@set_loglikelihoods_has_chain _ _ _ _ hist Hc) eq_refl).
    cbn [bind]. reflexivity. }
  destruct Hc as (_ & _ & _ & H4 & H5 & H6).
  cbn [clean_up nzw_ ndz_ nz_ loglikelihoods_ set_loglikelihoods alpha eta].
  repeat (split; [assumption|]).
  rewrite C3, C4, Hlen. fold c0. rewrite <- repeat_cons. reflexivity.
Qed.

End NeverSweeping.

(** * The further properties on small inputs *)

Lemma fit_attributes_witness :
  exists self' w' nzw ndz nz,
    _fit demo_RandomState demo_shuffle demo_loglikelihood tiny_model
      (Dense2 tiny_X) demo_world = Ok (self', w')
    /\ nzw_ self' = Some nzw /\ ndz_ self' = Some ndz /\ nz_ self' = Some nz
    /\ length nzw = 2%nat /\ length ndz = 2%nat /\ length nz = 2%nat
    /\ WS self' = None.
Proof.
  destruct (_fit demo_RandomState demo_shuffle demo_loglikelihood tiny_model
              (Dense2 tiny_X) demo_world) as [[self' w']|ex] eqn:E;
    [| vm_compute in E; discriminate].
  destruct (@fit_attributes Z demo_RandomState demo_shuffle demo_loglikelihood
              tiny_model self' (Dense2 tiny_X) demo_world w' E)
    as (M & nzw & ndz & nz & lls & HM & H1 & H2 & H3 & _ & _ & H6 & _ & _
        & L1 & _ & L3 & _ & L5).
  inversion HM; subst M.
  exists self', w', nzw, ndz, nz.
  split; [reflexivity|].
  repeat (split; [assumption|]). exact H6.
Defined.

Lemma methods_after_fit_witness :
  exists self' w' phi,
    _fit demo_RandomState demo_shuffle demo_loglikelihood tiny_model
      (Dense2 tiny_X) demo_world = Ok (self', w')
    /\ sample_topics demo_RandomState demo_shuffle self' 1 w'
       = Raise AttributeError
    /\ components_ self' = Ok phi
    /\ length phi = 2%nat.
Proof.
  destruct (_fit demo_RandomState demo_shuffle demo_loglikelihood tiny_model
              (Dense2 tiny_X) demo_world) as [[self' w']|ex] eqn:E;
    [| vm_compute in E; discriminate].
  destruct (@methods_after_fit Z demo_RandomState demo_shuffle demo_loglikelihood
              tiny_model self' (Dense2 tiny_X) demo_world w' E)
    as (HS & M & ll & phi & theta & _ & _ & H3 & _ & L1 & _).
  exists self', w', phi.
  split; [reflexivity|].
  split; [apply HS; lia|].
  split; [exact H3 | exact L1].
Defined.

Lemma methods_before_fit_witness :
  exists self,
    fst (__init__ demo_RandomState demo_rand 2 3 (Q2Qc (1 # 10))
           (Q2Qc (1 # 100)) (SeedInt 0) 2 demo_world) = Ok self
    /\ components_ self = Raise AttributeError
    /\ sample_topics demo_RandomState demo_shuffle self 1 demo_world
       = Raise AttributeError
    /\ sample_topics demo_RandomState demo_shuffle self 0 demo_world
       = Ok (self, demo_world).
Proof.
  destruct (fst (__init__ demo_RandomState demo_rand 2 3 (Q2Qc (1 # 10))
                   (Q2Qc (1 # 100)) (SeedInt 0) 2 demo_world))
    as [self|ex] eqn:E.
  - destruct (@methods_before_fit Z demo_RandomState demo_rand demo_shuffle
                demo_loglikelihood _ _ _ _ _ _ _ _ E)
      as (_ & H2 & _ & _ & H5 & H6).
    exists self. split; [reflexivity|].
    split; [exact H2|].
    split; [apply H5; lia | apply H6; lia].
  - exfalso. unfold __init__ in E.
    destruct (Qcle_bool (Q2Qc (1 # 10)) 0 || Qcle_bool (Q2Qc (1 # 100)) 0)
      eqn:B; [vm_compute in B; discriminate|].
    destruct (with_rng (fun g => demo_rand g pool_size)
                (check_random_state demo_RandomState (SeedInt 0)) demo_world)
      as [[pool h] w'].
    cbn [fst] in E. discriminate.
Defined.

Lemma fit_keeps_settings_witness :
  exists self' w',
    _fit demo_RandomState demo_shuffle demo_loglikelihood tiny_model
      (Dense2 tiny_X) demo_world = Ok (self', w')
    /\ n_topics self' = 2%nat /\ refresh self' = 2%Z
    /\ _rands self' = _rands tiny_model.
Proof.
  destruct (_fit demo_RandomState demo_shuffle demo_loglikelihood tiny_model
              (Dense2 tiny_X) demo_world) as [[self' w']|ex] eqn:E;
    [| vm_compute in E; discriminate].
  destruct (@fit_keeps_settings Z demo_RandomState demo_shuffle demo_loglikelihood
              tiny_model self' (Dense2 tiny_X) demo_world w' E) as (H1 & _ & _ & _ & _ & H6 & H7).
  exists self', w'.
  split; [reflexivity|]. split; [exact H1|]. split; [exact H6 | exact H7].
Defined.

Lemma fit_starts_from_scratch_witness :
  _fit demo_RandomState demo_shuffle demo_loglikelihood tiny_initialized
    (Dense2 tiny_X) demo_world
  = _fit demo_RandomState demo_shuffle demo_loglikelihood tiny_model
      (Dense2 tiny_X) demo_world.
Proof.
  apply (@fit_starts_from_scratch Z demo_RandomState demo_shuffle
           demo_loglikelihood tiny_model tiny_initialized (Dense2 tiny_X)
           demo_world).
  repeat split.
Defined.

Lemma fit_zero_refresh_witness :
  _fit demo_RandomState demo_shuffle demo_loglikelihood (tiny_scheduled 3 0)
    (Dense2 tiny_X) demo_world
  = Raise ValueError.
Proof.
  exact (@fit_zero_refresh Z demo_RandomState demo_shuffle demo_loglikelihood
           (tiny_scheduled 3 0) (Dense2 tiny_X) demo_world eq_refl).
Defined.

Lemma fit_without_sweeps_witness :
  exists self',
    _fit demo_RandomState demo_shuffle demo_loglikelihood (tiny_scheduled 0 2)
      (Dense2 tiny_X) demo_world = Ok (self', demo_world)
    /\ nzw_ self' = Some (c_nzw (initial_chain 2 tiny_X))
    /\ loglikelihoods_ self'
       = Some (chain_loglikelihood demo_loglikelihood (Q2Qc (1 # 10))
                 (Q2Qc (1 # 100)) (initial_chain 2 tiny_X) :: nil).
Proof.
  destruct (@fit_without_sweeps Z demo_RandomState demo_shuffle
              demo_loglikelihood (tiny_scheduled 0 2) (Dense2 tiny_X) tiny_X
              demo_world eq_refl (or_introl (Nat.lt_0_succ 1))
              ltac:(left; simpl; lia))
    as (self' & H1 & H2 & _ & _ & H5).
  exists self'. split; [exact H1|]. split; [exact H2 | exact H5].
Defined.


Lemma transform_shape_witness :
  exists phi doc_topic,
    components_ tiny_initialized = Ok phi
    /\ transform tiny_initialized (Dense1 [1; 2]%nat) 1 (Q2Qc (1 # 1000))
       = Ok doc_topic
    /\ length doc_topic = 1%nat
    /\ Forall (fun row => length row = length phi) doc_topic.
Proof.
  destruct (components_ tiny_initialized) as [phi|ex] eqn:E;
    [| vm_compute in E; discriminate].
  destruct (transform tiny_initialized (Dense1 [1; 2]%nat) 1
              (Q2Qc (1 # 1000))) as [doc_topic|ex] eqn:T;
    [| vm_compute in T; discriminate].
  destruct (@transform_shape tiny_initialized (Dense1 [1; 2]%nat)
              (mkMatrix 2 [[1; 2]%nat]) 1 (Q2Qc (1 # 1000)) phi doc_topic
              eq_refl E T) as [L R].
  exists phi, doc_topic.
  split; [reflexivity|]. split; [reflexivity|]. split; [exact L | exact R].
Defined.

Lemma nonpositive_tol_runs_all_rounds_witness :
  Pz.iterate 2 0 ((Q2Qc (1 # 2) :: Q2Qc (1 # 2) :: nil) :: nil)
    (Q2Qc (1 # 10)) (0%nat :: nil) ((1 :: nil) :: nil)
  = ('(PZS_new, _) <-
       Pz.round ((Q2Qc (1 # 2) :: Q2Qc (1 # 2) :: nil) :: nil)
         (Q2Qc (1 # 10)) (0%nat :: nil) ((1 :: nil) :: nil) ;;
     Pz.iterate 1 0 ((Q2Qc (1 # 2) :: Q2Qc (1 # 2) :: nil) :: nil)
       (Q2Qc (1 # 10)) (0%nat :: nil) PZS_new).
Proof.
  apply (@nonpositive_tol_runs_all_rounds 1 0
           ((Q2Qc (1 # 2) :: Q2Qc (1 # 2) :: nil) :: nil) (Q2Qc (1 # 10))
           (0%nat :: nil) ((1 :: nil) :: nil)).
  apply Qcle_refl.
Defined.

Lemma transform_unknown_word_witness :
  transform tiny_initialized (Dense1 [0; 0; 1]%nat) 1 (Q2Qc (1 # 1000))
  = Raise IndexError.
Proof.
  destruct (components_ tiny_initialized) as [phi|ex] eqn:E;
    [| vm_compute in E; discriminate].
  assert (Hne : phi <> nil)
    by (vm_compute in E; inversion E; discriminate).
  assert (Hrows : Forall (fun row => length row = 2%nat) phi)
    by (vm_compute in E; inversion E; subst phi; repeat constructor).
  apply (proj1 (@transform_unknown_word tiny_initialized
                  (Dense1 [0; 0; 1]%nat) (mkMatrix 3 [[0; 0; 1]%nat]) 1
                  (Q2Qc (1 # 1000)) phi 2 eq_refl E Hne Hrows)).
  exists 0%nat, 2%nat. simpl. lia.
Defined.


Lemma transform_after_fit_witness :
  exists self' w' doc_topic,
    _fit demo_RandomState demo_shuffle demo_loglikelihood tiny_model
      (Dense2 tiny_X) demo_world = Ok (self', w')
    /\ transform self' (Dense1 [1; 2]%nat) 1 (Q2Qc (1 # 1000)) = Ok doc_topic
    /\ length doc_topic = 1%nat
    /\ Forall (fun row => length row = 2%nat) doc_topic.
Proof.
  destruct (_fit demo_RandomState demo_shuffle demo_loglikelihood tiny_model
              (Dense2 tiny_X) demo_world) as [[self' w']|ex] eqn:E;
    [| vm_compute in E; discriminate].
  destruct (@transform_after_fit Z demo_RandomState demo_shuffle
              demo_loglikelihood tiny_model self' (Dense2 tiny_X)
              (Dense1 [1; 2]%nat) tiny_X (mkMatrix 2 [[1; 2]%nat])
              demo_world w' 1 (Q2Qc (1 # 1000)) E eq_refl eq_refl
              (Nat.le_refl 2))
    as (doc_topic & H1 & H2 & H3).
  exists self', w', doc_topic.
  split; [reflexivity|]. split; [exact H1|]. split; [exact H2 | exact H3].
Defined.

Lemma fit_negative_refresh_witness :
  exists self',
    _fit demo_RandomState demo_shuffle demo_loglikelihood
      (tiny_scheduled (-3) (-2)) (Dense2 tiny_X) demo_world
    = Ok (self', demo_world)
    /\ nzw_ self' = Some (c_nzw (initial_chain 2 tiny_X))
    /\ loglikelihoods_ self'
       = Some (repeat
                 (chain_loglikelihood demo_loglikelihood (Q2Qc (1 # 10))
                    (Q2Qc (1 # 100)) (initial_chain 2 tiny_X)) 3).
Proof.
  destruct (@fit_negative_refresh Z demo_RandomState demo_shuffle
              demo_loglikelihood (tiny_scheduled (-3) (-2)) (Dense2 tiny_X)
              tiny_X demo_world eq_refl (or_introl (Nat.lt_0_succ 1))
              eq_refl eq_refl)
    as (self' & H1 & H2 & _ & _ & H5).
  exists self'. split; [exact H1|]. split; [exact H2 | exact H5].
Defined.
